(** * Line-oriented C++ guideline checker and modernizer

    A shallow embedding of [scripts/detect_violations.py] and
    [scripts/modernize_code.py].

    Text is a list of characters.  A character is a code point below 256
    (Rocq's [ascii]); the character classes of Python's [re] module for [str]
    patterns are written out for that range.  String literals of the source
    that lie outside the range (the Chinese messages, the arrow in the reason
    tags) are carried as their UTF-8 bytes: the code never inspects them. *)

From Stdlib Require Import String Ascii List Bool Arith ZArith Lia.
From Stdlib Require Import Sorting.Sorted Sorting.Permutation.
Import ListNotations.

Set Implicit Arguments.
Local Open Scope list_scope.

(** ** Text *)

Definition str := list ascii.

(** A literal of the source. *)
Definition L (s : string) : str := list_ascii_of_string s.
Arguments L : simpl never.

Definition ascii_eqb (a b : ascii) : bool := Ascii.eqb a b.

Fixpoint str_eqb (a b : str) : bool :=
  match a, b with
  | [], [] => true
  | x :: a', y :: b' => ascii_eqb x y && str_eqb a' b'
  | _, _ => false
  end.

(** [s.startswith(p)] *)
Fixpoint starts_with (p s : str) : bool :=
  match p, s with
  | [], _ => true
  | x :: p', y :: s' => ascii_eqb x y && starts_with p' s'
  | _ :: _, [] => false
  end.

(** [sub in s] *)
Fixpoint contains (sub s : str) : bool :=
  starts_with sub s ||
  match s with
  | [] => false
  | _ :: s' => contains sub s'
  end.

(** [s.find(sub)]: index of the first occurrence, [-1] when there is none. *)
Fixpoint find_from (sub s : str) (i : Z) : Z :=
  if starts_with sub s then i
  else match s with
       | [] => (-1)%Z
       | _ :: s' => find_from sub s' (i + 1)%Z
       end.

Definition find (sub s : str) : Z := find_from sub s 0%Z.

(** [s.split(sep)[0]] for a non-empty separator: the text before the first
    occurrence of [sep], the whole text when there is none. *)
Fixpoint split_head (sep s : str) : str :=
  if starts_with sep s then []
  else match s with
       | [] => []
       | c :: s' => c :: split_head sep s'
       end.

(** [s.replace(old, new, 1)]: the first occurrence of [old] replaced; the
    empty [old] occurs at index 0. *)
Fixpoint replace_first (old new s : str) : str :=
  if starts_with old s then new ++ skipn (length old) s
  else match s with
       | [] => []
       | c :: s' => c :: replace_first old new s'
       end.

(** ** Character classes of [re] on [str] patterns *)

Definition code (c : ascii) : nat := nat_of_ascii c.

Definition in_range (lo hi : nat) (c : ascii) : bool :=
  (lo <=? code c) && (code c <=? hi).

(** [\s]: the characters for which [str.isspace()] holds. *)
Definition is_space (c : ascii) : bool :=
  in_range 9 13 c || in_range 28 32 c || (code c =? 133) || (code c =? 160).

(** [\d] *)
Definition is_digit (c : ascii) : bool := in_range 48 57 c.

Definition is_upper (c : ascii) : bool := in_range 65 90 c.
Definition is_lower (c : ascii) : bool := in_range 97 122 c.

(** [\w]: alphanumeric in the sense of [str.isalnum()], or the underscore. *)
Definition is_word (c : ascii) : bool :=
  is_digit c || is_upper c || is_lower c || (code c =? 95)
  || (code c =? 170) || (code c =? 178) || (code c =? 179) || (code c =? 181)
  || (code c =? 185) || (code c =? 186) || in_range 188 190 c
  || in_range 192 214 c || in_range 216 246 c || in_range 248 255 c.

(** [.] without DOTALL *)
Definition is_dot (c : ascii) : bool := negb (code c =? 10).

Definition is_chr (a : ascii) (c : ascii) : bool := ascii_eqb a c.

(** [[^...]] and [[...]] over listed characters *)
Definition one_of (cs : str) (c : ascii) : bool := existsb (ascii_eqb c) cs.
Definition none_of (cs : str) (c : ascii) : bool := negb (one_of cs c).

(** [s.strip()] *)
Fixpoint lstrip (s : str) : str :=
  match s with
  | c :: s' => if is_space c then lstrip s' else s
  | [] => []
  end.

Definition strip (s : str) : str := rev (lstrip (rev (lstrip s))).

(** ** Regular expressions

    The patterns of the two scripts only quantify single-character classes,
    so repetition is over a class.  [x+] is [Cat (Cls x) (Star true x)],
    [x+?] is [Cat (Cls x) (Star false x)] and [x?] is [Alt (Cls x) Emp]:
    these have the same backtracking order as the quantifier. *)

Inductive regex : Type :=
| Emp                                   (* the empty pattern *)
| Cls (p : ascii -> bool)               (* one character of a class *)
| Cat (r1 r2 : regex)                   (* r1 r2 *)
| Alt (r1 r2 : regex)                   (* r1|r2, left first *)
| Star (greedy : bool) (p : ascii -> bool)   (* p* and p*? *)
| Bnd                                   (* \b *)
| Bol                                   (* ^ *)
| Grp (n : nat) (r : regex).            (* capturing group number n *)

(** Captured groups, most recent binding first. *)
Definition caps := list (nat * str).

Fixpoint group (n : nat) (g : caps) : option str :=
  match g with
  | [] => None
  | (m, s) :: g' => if Nat.eqb n m then Some s else group n g'
  end.

(** The matcher walks the text with the consumed part reversed in [pre] and
    the remaining part in [s]. *)
Definition head_word (s : str) : bool :=
  match s with
  | c :: _ => is_word c
  | [] => false
  end.

Definition at_boundary (pre s : str) : bool :=
  negb (Bool.eqb (head_word pre) (head_word s)).

(** The text consumed between two positions of the same walk. *)
Definition taken (pre pre' : str) : str :=
  rev (firstn (length pre' - length pre) pre').

Section Matcher.
Variable A : Type.

Definition cont := str -> str -> caps -> option A.

Definition or_else (x : option A) (y : option A) : option A :=
  match x with
  | Some _ => x
  | None => y
  end.

Fixpoint star_greedy (p : ascii -> bool) (pre s : str) (g : caps) (k : cont)
  : option A :=
  match s with
  | c :: s' =>
      if p c then or_else (star_greedy p (c :: pre) s' g k) (k pre s g)
      else k pre s g
  | [] => k pre s g
  end.

Fixpoint star_lazy (p : ascii -> bool) (pre s : str) (g : caps) (k : cont)
  : option A :=
  or_else (k pre s g)
    match s with
    | c :: s' => if p c then star_lazy p (c :: pre) s' g k else None
    | [] => None
    end.

Fixpoint run (r : regex) (pre s : str) (g : caps) (k : cont) : option A :=
  match r with
  | Emp => k pre s g
  | Cls p =>
      match s with
      | c :: s' => if p c then k (c :: pre) s' g else None
      | [] => None
      end
  | Cat r1 r2 => run r1 pre s g (fun pre' s' g' => run r2 pre' s' g' k)
  | Alt r1 r2 => or_else (run r1 pre s g k) (run r2 pre s g k)
  | Star true p => star_greedy p pre s g k
  | Star false p => star_lazy p pre s g k
  | Bnd => if at_boundary pre s then k pre s g else None
  | Bol => match pre with [] => k pre s g | _ :: _ => None end
  | Grp n r =>
      run r pre s g (fun pre' s' g' => k pre' s' ((n, taken pre pre') :: g'))
  end.
End Matcher.

(** A match: the matched text, the text after it, the groups. *)
Record rmatch : Type := mkMatch {
  m_text : str;
  m_rest : str;
  m_groups : caps
}.

(** One attempt at one position.  [adv] is the engine's must-advance flag:
    an attempt right after an empty match has to consume something. *)
Definition re_at (r : regex) (adv : bool) (pre s : str) : option rmatch :=
  run r pre s []
    (fun pre' s' g' =>
       if adv && (length pre' =? length pre) then None
       else Some (mkMatch (taken pre pre') s' g')).

(** [re.match(r, s)] *)
Definition re_match (r : regex) (s : str) : option rmatch := re_at r false [] s.

(** [re.search(r, s)]: the first position, left to right, with a match. *)
Fixpoint search_from (r : regex) (pre s : str) : option rmatch :=
  match re_at r false pre s with
  | Some m => Some m
  | None =>
      match s with
      | c :: s' => search_from r (c :: pre) s'
      | [] => None
      end
  end.

Definition re_search (r : regex) (s : str) : option rmatch := search_from r [] s.

Definition is_some {X : Type} (o : option X) : bool :=
  match o with
  | Some _ => true
  | None => false
  end.

(** [re.sub(r, repl, s)] for a replacement without group references: the
    non-overlapping matches, left to right, replaced by [repl].  [skip]
    counts the characters of the current match still to be dropped. *)
Fixpoint sub_go (r : regex) (repl pre s : str) (skip : nat) : str :=
  match skip, s with
  | S n, c :: s' => sub_go r repl (c :: pre) s' n
  | S _, [] => []
  | O, [] => if is_some (re_at r false pre []) then repl else []
  | O, c :: s' =>
      match re_at r false pre s with
      | Some (mkMatch (_ :: m') _ _) =>
          repl ++ sub_go r repl (c :: pre) s' (length m')
      | Some (mkMatch [] _ _) =>
          repl ++
          match re_at r true pre s with
          | Some (mkMatch (_ :: m') _ _) =>
              repl ++ sub_go r repl (c :: pre) s' (length m')
          | _ => c :: sub_go r repl (c :: pre) s' 0
          end
      | None => c :: sub_go r repl (c :: pre) s' 0
      end
  end.

Definition re_sub (r : regex) (repl s : str) : str := sub_go r repl [] s 0.

(** Pattern building blocks. *)
Fixpoint lit (s : str) : regex :=
  match s with
  | [] => Emp
  | c :: s' => Cat (Cls (is_chr c)) (lit s')
  end.

Definition plus (p : ascii -> bool) : regex := Cat (Cls p) (Star true p).
Definition plus_lazy (p : ascii -> bool) : regex := Cat (Cls p) (Star false p).
Definition opt (p : ascii -> bool) : regex := Alt (Cls p) Emp.
Definition ws : regex := Star true is_space.
Definition ws1 : regex := plus is_space.
Definition word1 : regex := plus is_word.

Fixpoint cat (rs : list regex) : regex :=
  match rs with
  | [] => Emp
  | [r] => r
  | r :: rs' => Cat r (cat rs')
  end.

Fixpoint alt_lits (ss : list str) : regex :=
  match ss with
  | [] => Cls (fun _ => false)
  | [s] => lit s
  | s :: ss' => Alt (lit s) (alt_lits ss')
  end.

(** * The Transformation Engine: [modernize_code.py] *)

Module Modernize.

Record Replacement : Type := mkReplacement {
  line_num : nat;
  old_text : str;
  new_text : str;
  reason : str
}.

(** The reason tags of the four passes. *)
Definition reason_null : str := L "NULL → nullptr (ES.47)".
Definition reason_typedef : str := L "typedef → using (T.43)".
Definition reason_explicit : str := L "添加 explicit 到单参数构造函数 (C.46)".
Definition reason_zero : str := L "指针初始化 0 → nullptr (ES.47)".

(** ** Patterns *)

(** [\bNULL\b] *)
Definition null_re : regex := cat [Bnd; lit (L "NULL"); Bnd].

(** [( \s* ) typedef \s+ ( .+? ) \s+ ( \w+ ) \s* ;], written here with blanks between its parts *)
Definition typedef_re : regex :=
  cat [Grp 1 ws; lit (L "typedef"); ws1; Grp 2 (plus_lazy is_dot); ws1;
       Grp 3 word1; ws; lit (L ";")].

(** [\*\s*\w+\s*=\s*0\s*;] *)
Definition zero_ptr_re : regex :=
  cat [lit (L "*"); ws; word1; ws; lit (L "="); ws; lit (L "0"); ws;
       lit (L ";")].

(** [=\s*0\s*;] *)
Definition zero_assign_re : regex :=
  cat [lit (L "="); ws; lit (L "0"); ws; lit (L ";")].

(** [\s*(class|struct)\s+\w+] *)
Definition class_re : regex :=
  cat [ws; Grp 1 (alt_lits [L "class"; L "struct"]); ws1; word1].

(** [\s*public\s*:], [\s*private\s*:], [\s*protected\s*:] *)
Definition label_re (kw : str) : regex := cat [ws; lit kw; ws; lit (L ":")].

(** [( \s* ) ( \w+ ) \s* \( \s* \w+ [^,)]* \) \s* [:{;]], written here with blanks between its parts *)
Definition ctor_re : regex :=
  cat [Grp 1 ws; Grp 2 word1; ws; lit (L "("); ws; word1;
       Star true (none_of (L ",)")); lit (L ")"); ws; Cls (one_of (L ":{;"))].

(** [\s*}\s*;] *)
Definition class_end_re : regex := cat [ws; lit (L "}"); ws; lit (L ";")].

(** [match.group(n)] and the members of [match.groups()]; every group the
    script reads takes part in every match of its pattern. *)
Definition grp (n : nat) (m : rmatch) : str :=
  match group n (m_groups m) with
  | Some s => s
  | None => []
  end.

(** ** The loop over [enumerate(lines, 1)]

    A pass without loop-carried state: [body i line] gives the line appended
    to [result] and the entries appended to [self.replacements]. *)
Fixpoint for_lines (body : nat -> str -> str * list Replacement)
                   (i : nat) (lines : list str)
  : list str * list Replacement :=
  match lines with
  | [] => ([], [])
  | line :: rest =>
      let '(new_line, reps) := body i line in
      let '(result, log) := for_lines body (S i) rest in
      (new_line :: result, reps ++ log)
  end.

(** ** Pass: NULL to nullptr *)

Definition null_body (i : nat) (line : str) : str * list Replacement :=
  if negb (contains (L "//") line) && negb (contains (L "/*") line) then
    if is_some (re_search null_re line) then
      let old_line := line in
      let new_line := re_sub null_re (L "nullptr") line in
      if negb (str_eqb old_line new_line) then
        (new_line, [mkReplacement i old_line new_line reason_null])
      else (new_line, [])
    else (line, [])
  else (line, []).

Definition _replace_null_with_nullptr (lines : list str)
  : list str * list Replacement :=
  for_lines null_body 1 lines.

(** ** Pass: typedef to using *)

Definition newline : str := ["010"%char].

Definition typedef_body (i : nat) (line : str) : str * list Replacement :=
  match re_match typedef_re line with
  | Some m =>
      let indent := grp 1 m in
      let old_type := grp 2 m in
      let new_name := grp 3 m in
      let old_line := line in
      let new_line :=
        indent ++ L "using " ++ new_name ++ L " = " ++ old_type ++ L ";"
               ++ newline in
      (new_line, [mkReplacement i old_line new_line reason_typedef])
  | None => (line, [])
  end.

Definition _replace_typedef_with_using (lines : list str)
  : list str * list Replacement :=
  for_lines typedef_body 1 lines.

(** ** Pass: pointer assignment of 0 to nullptr *)

Definition zero_body (i : nat) (line : str) : str * list Replacement :=
  if is_some (re_search zero_ptr_re line) then
    let old_line := line in
    let new_line := re_sub zero_assign_re (L "= nullptr;") line in
    if negb (str_eqb old_line new_line) then
      (new_line, [mkReplacement i old_line new_line reason_zero])
    else (new_line, [])
  else (line, []).

Definition _replace_zero_nullptr (lines : list str)
  : list str * list Replacement :=
  for_lines zero_body 1 lines.

(** ** Pass: explicit on single-parameter constructors *)

(** The three values [access_level] takes. *)
Inductive access : Type := Public | Private | Protected.

Definition access_eqb (a b : access) : bool :=
  match a, b with
  | Public, Public | Private, Private | Protected, Protected => true
  | _, _ => false
  end.

(** The two loop variables [in_class] and [access_level]. *)
Record scope : Type := mkScope {
  in_class : bool;
  access_level : access
}.

Definition initial_scope : scope := mkScope false Private.

(** The class-definition and access-level tracking at the top of the loop
    body. *)
Definition track_class (st : scope) (line : str) : scope :=
  if is_some (re_match class_re line) then
    mkScope true (if contains (L "struct") line then Public else Private)
  else st.

Definition track_access (st : scope) (line : str) : scope :=
  if is_some (re_match (label_re (L "public")) line) then
    mkScope (in_class st) Public
  else if is_some (re_match (label_re (L "private")) line) then
    mkScope (in_class st) Private
  else if is_some (re_match (label_re (L "protected")) line) then
    mkScope (in_class st) Protected
  else st.

(** The end-of-class test at the bottom of the loop body. *)
Definition track_end (st : scope) (line : str) : scope :=
  if in_class st && is_some (re_match class_end_re line) then
    mkScope false (access_level st)
  else st.

(** The constructor test in the middle, under the scope [st] in force. *)
Definition explicit_line (st : scope) (i : nat) (line : str)
  : str * list Replacement :=
  if in_class st && access_eqb (access_level st) Public then
    match re_match ctor_re line with
    | Some m =>
        if negb (contains (L "explicit") line)
           && negb (contains (L "delete") line) then
          let indent := grp 1 m in
          let old_line := line in
          let new_line := replace_first indent (indent ++ L "explicit ") line in
          (new_line, [mkReplacement i old_line new_line reason_explicit])
        else (line, [])
    | None => (line, [])
    end
  else (line, []).

Fixpoint explicit_loop (st : scope) (i : nat) (lines : list str)
  : list str * list Replacement :=
  match lines with
  | [] => ([], [])
  | line :: rest =>
      let st1 := track_access (track_class st line) line in
      let '(new_line, reps) := explicit_line st1 i line in
      let st2 := track_end st1 line in
      let '(result, log) := explicit_loop st2 (S i) rest in
      (new_line :: result, reps ++ log)
  end.

Definition _add_explicit_to_constructors (lines : list str)
  : list str * list Replacement :=
  explicit_loop initial_scope 1 lines.

(** ** [modernize_file], from the lines read to the lines it would write

    [self.replacements] starts empty and each pass appends to it.  Reading
    the file, printing the log and writing the result are left out. *)
Definition modernize_file (original_lines : list str)
  : list str * list Replacement :=
  let replacements := [] in
  let '(lines, log) := _replace_null_with_nullptr original_lines in
  let replacements := replacements ++ log in
  let '(lines, log) := _replace_typedef_with_using lines in
  let replacements := replacements ++ log in
  let '(lines, log) := _add_explicit_to_constructors lines in
  let replacements := replacements ++ log in
  let '(lines, log) := _replace_zero_nullptr lines in
  let replacements := replacements ++ log in
  (lines, replacements).

End Modernize.

(** * The Detection Engine: [detect_violations.py] *)

Module Detect.

Inductive Severity : Type := CRITICAL | IMPORTANT | SUGGESTION.

Record Violation : Type := mkViolation {
  file : str;
  line : nat;
  column : Z;
  severity : Severity;
  rule : str;
  message : str;
  code_snippet : str;
  suggestion : str
}.

(** ** Patterns *)

(** [\bnew\s+\w+] *)
Definition new_re : regex := cat [Bnd; lit (L "new"); ws1; word1].

(** [\bdelete\s+] *)
Definition delete_re : regex := cat [Bnd; lit (L "delete"); ws1].

(** [\bNULL\b] *)
Definition null_re : regex := cat [Bnd; lit (L "NULL"); Bnd].

(** [\*\s*\w+\s*=\s*0\s*[;,)]] *)
Definition zero_re : regex :=
  cat [lit (L "*"); ws; word1; ws; lit (L "="); ws; lit (L "0"); ws;
       Cls (one_of (L ";,)"))].

(** [\([A-Z]\w*\s*\*?\s*\)\s*[a-zA-Z_]] *)
Definition cast_re : regex :=
  cat [lit (L "("); Cls is_upper; Star true is_word; ws; opt (is_chr "*"%char);
       ws; lit (L ")"); ws;
       Cls (fun c => is_lower c || is_upper c || is_chr "_"%char c)].

(** [\btypedef\b] *)
Definition typedef_re : regex := cat [Bnd; lit (L "typedef"); Bnd].

(** [^\s*(int|bool|void|string|double|float)\s+\w+\s*\([^)]*\)\s*\{] *)
Definition const_re : regex :=
  cat [Bol; ws;
       Grp 1 (alt_lits [L "int"; L "bool"; L "void"; L "string"; L "double";
                        L "float"]);
       ws1; word1; ws; lit (L "("); Star true (none_of (L ")")); lit (L ")");
       ws; lit (L "{")].

(** [for\s*\(\s*\w+\s+\w+\s*=\s*0\s*;.*\.size\(\)] *)
Definition loop_re : regex :=
  cat [lit (L "for"); ws; lit (L "("); ws; word1; ws1; word1; ws; lit (L "=");
       ws; lit (L "0"); ws; lit (L ";"); Star true is_dot; lit (L ".size()")].

(** [\w+\s*\*\s+\w+\s*\([^)]*\)] *)
Definition rawptr_re : regex :=
  cat [word1; ws; lit (L "*"); ws1; word1; ws; lit (L "(");
       Star true (none_of (L ")")); lit (L ")")].

(** [\b\w+\s+\w+\s*\[\s*\d+\s*\]] *)
Definition carray_re : regex :=
  cat [Bnd; word1; ws1; word1; ws; lit (L "["); ws; plus is_digit; ws;
       lit (L "]")].

(** The comment skipping at the top of four of the detectors. *)
Definition code_part (line : str) : str :=
  if contains (L "//") line then split_head (L "//") line else line.

(** ** The loop over [enumerate(lines, 1)]: [body i line] gives the records
    appended to [self.violations]. *)
Fixpoint for_lines (body : nat -> str -> list Violation)
                   (i : nat) (lines : list str) : list Violation :=
  match lines with
  | [] => []
  | line :: rest => body i line ++ for_lines body (S i) rest
  end.

(** ** The eight detectors *)

Definition new_violation (filepath : str) (i : nat) (line : str) : Violation :=
  mkViolation filepath i (find (L "new") line) CRITICAL (L "R.11")
    (L "直接使用 'new'，应使用智能指针") (strip line)
    (L "使用 std::make_unique<T>() 或 std::make_shared<T>()").

Definition delete_violation (filepath : str) (i : nat) (line : str)
  : Violation :=
  mkViolation filepath i (find (L "delete") line) CRITICAL (L "R.11")
    (L "直接使用 'delete'，应使用智能指针或 RAII") (strip line)
    (L "使用 RAII 或智能指针自动管理资源").

Definition raw_new_delete_body (filepath : str) (i : nat) (line : str)
  : list Violation :=
  let code_part := code_part line in
  (if is_some (re_search new_re code_part) then
     if negb (contains (L "make_unique") line)
        && negb (contains (L "make_shared") line)
     then [new_violation filepath i line] else []
   else [])
  ++
  (if is_some (re_search delete_re code_part) then
     [delete_violation filepath i line]
   else []).

Definition _detect_raw_new_delete (filepath : str) (lines : list str)
  : list Violation :=
  for_lines (raw_new_delete_body filepath) 1 lines.

Definition null_violation (filepath : str) (i : nat) (line : str)
  : Violation :=
  mkViolation filepath i (find (L "NULL") line) IMPORTANT (L "ES.47")
    (L "使用 NULL，应使用 nullptr") (strip line) (L "替换为 nullptr").

Definition zero_violation (filepath : str) (i : nat) (line : str)
  : Violation :=
  mkViolation filepath i 0%Z IMPORTANT (L "ES.47")
    (L "指针赋值为 0，应使用 nullptr") (strip line) (L "替换为 nullptr").

Definition null_usage_body (filepath : str) (i : nat) (line : str)
  : list Violation :=
  let code_part := code_part line in
  (if is_some (re_search null_re code_part) then
     [null_violation filepath i line]
   else [])
  ++
  (if is_some (re_search zero_re code_part) then
     [zero_violation filepath i line]
   else []).

Definition _detect_null_usage (filepath : str) (lines : list str)
  : list Violation :=
  for_lines (null_usage_body filepath) 1 lines.

Definition cast_violation (filepath : str) (i : nat) (line : str)
  : Violation :=
  mkViolation filepath i 0%Z CRITICAL (L "ES.49")
    (L "使用 C 风格类型转换") (strip line)
    (L "使用 static_cast<T>(), dynamic_cast<T>() 等").

Definition c_style_cast_body (filepath : str) (i : nat) (line : str)
  : list Violation :=
  let code_part := code_part line in
  if is_some (re_search cast_re code_part) then
    [cast_violation filepath i line]
  else [].

Definition _detect_c_style_cast (filepath : str) (lines : list str)
  : list Violation :=
  for_lines (c_style_cast_body filepath) 1 lines.

Definition typedef_violation (filepath : str) (i : nat) (line : str)
  : Violation :=
  mkViolation filepath i (find (L "typedef") line) SUGGESTION (L "T.43")
    (L "使用 typedef，建议使用 using") (strip line)
    (L "使用 using 别名: using NewName = OldType;").

Definition typedef_body (filepath : str) (i : nat) (line : str)
  : list Violation :=
  let code_part := code_part line in
  if is_some (re_search typedef_re code_part) then
    [typedef_violation filepath i line]
  else [].

Definition _detect_typedef (filepath : str) (lines : list str)
  : list Violation :=
  for_lines (typedef_body filepath) 1 lines.

Definition const_violation (filepath : str) (i : nat) (line : str)
  : Violation :=
  mkViolation filepath i 0%Z IMPORTANT (L "Con.2")
    (L "成员函数可能应该声明为 const") (strip line)
    (L "如果函数不修改对象状态，添加 const 限定符").

(** [lines[i]] under the guard [i < len(lines)]: with the 1-based [i] this
    is the line after the current one. *)
Definition missing_const_body (filepath : str) (lines : list str)
                              (i : nat) (line : str) : list Violation :=
  if is_some (re_search const_re line) then
    match nth_error lines i with
    | Some next =>
        if contains (L "return") next && negb (contains (L "const") line)
        then [const_violation filepath i line] else []
    | None => []
    end
  else [].

Definition _detect_missing_const (filepath : str) (lines : list str)
  : list Violation :=
  for_lines (missing_const_body filepath lines) 1 lines.

Definition loop_violation (filepath : str) (i : nat) (line : str)
  : Violation :=
  mkViolation filepath i 0%Z SUGGESTION (L "ES.71")
    (L "使用索引循环，建议使用范围 for") (strip line)
    (L "考虑使用 for (auto& item : container) 或标准算法").

Definition manual_loops_body (filepath : str) (i : nat) (line : str)
  : list Violation :=
  if is_some (re_search loop_re line) then [loop_violation filepath i line]
  else [].

Definition _detect_manual_loops (filepath : str) (lines : list str)
  : list Violation :=
  for_lines (manual_loops_body filepath) 1 lines.

Definition rawptr_violation (filepath : str) (i : nat) (line : str)
  : Violation :=
  mkViolation filepath i 0%Z IMPORTANT (L "I.11")
    (L "函数返回裸指针，所有权不明确") (strip line)
    (L "考虑返回 unique_ptr、shared_ptr 或引用").

Definition raw_pointers_body (filepath : str) (i : nat) (line : str)
  : list Violation :=
  if is_some (re_search rawptr_re line) then
    if negb (contains (L "const") line) then [rawptr_violation filepath i line]
    else []
  else [].

Definition _detect_raw_pointers (filepath : str) (lines : list str)
  : list Violation :=
  for_lines (raw_pointers_body filepath) 1 lines.

Definition carray_violation (filepath : str) (i : nat) (line : str)
  : Violation :=
  mkViolation filepath i 0%Z SUGGESTION (L "SL.con.1")
    (L "使用 C 风格数组") (strip line)
    (L "考虑使用 std::array<T, N> 或 std::vector<T>").

Definition c_arrays_body (filepath : str) (i : nat) (line : str)
  : list Violation :=
  if is_some (re_search carray_re line) then
    if negb (contains (L "char") line) then [carray_violation filepath i line]
    else []
  else [].

Definition _detect_c_arrays (filepath : str) (lines : list str)
  : list Violation :=
  for_lines (c_arrays_body filepath) 1 lines.

(** ** [detect_file], on the lines read: the detectors run in this order,
    each appending to [self.violations]. *)
Definition detect_lines (filepath : str) (lines : list str) : list Violation :=
  _detect_raw_new_delete filepath lines
  ++ _detect_null_usage filepath lines
  ++ _detect_c_style_cast filepath lines
  ++ _detect_typedef filepath lines
  ++ _detect_missing_const filepath lines
  ++ _detect_manual_loops filepath lines
  ++ _detect_raw_pointers filepath lines
  ++ _detect_c_arrays filepath lines.

(** ** Files and directories

    What the script asks of its environment: whether a path is a file or a
    directory, what reading a file gives (its lines, or an exception), and
    what a glob pattern under a directory lists. *)

Inductive read_result : Type :=
| ReadOk (lines : list str)
| ReadRaises (e : str).

Record world : Type := mkWorld {
  isfile : str -> bool;
  isdir : str -> bool;
  readlines : str -> read_result;
  glob : str -> str -> list str
}.

(** [detect_file]: the violations returned and the lines printed to
    [sys.stderr]. *)
Definition detect_file (w : world) (filepath : str)
  : list Violation * list str :=
  match readlines w filepath with
  | ReadRaises e =>
      ([], [L "错误：无法读取文件 " ++ filepath ++ L ": " ++ e])
  | ReadOk lines => (detect_lines filepath lines, [])
  end.

(** The loop of [scan_directory] over [cpp_files]. *)
Fixpoint scan_files (w : world) (cpp_files : list str)
  : list Violation * list str :=
  match cpp_files with
  | [] => ([], [])
  | filepath :: rest =>
      let '(violations, err) := detect_file w filepath in
      let '(all_violations, errs) := scan_files w rest in
      (violations ++ all_violations, err ++ errs)
  end.

(** [scan_directory]; ['.cpp'] occurs once in either pattern. *)
Definition scan_directory (w : world) (directory : str) (recursive : bool)
  : list Violation * list str :=
  let pattern := if recursive then L "**/*.cpp" else L "*.cpp" in
  let cpp_files :=
    glob w directory pattern
    ++ glob w directory (replace_first (L ".cpp") (L ".h") pattern)
    ++ glob w directory (replace_first (L ".cpp") (L ".hpp") pattern) in
  scan_files w cpp_files.

(** ** The sort of [main] *)

Definition severity_rank (s : Severity) : nat :=
  match s with
  | CRITICAL => 0
  | IMPORTANT => 1
  | SUGGESTION => 2
  end.

(** Comparison of two [str] values: lexicographic on code points. *)
Fixpoint str_compare (a b : str) : comparison :=
  match a, b with
  | [], [] => Eq
  | [], _ :: _ => Lt
  | _ :: _, [] => Gt
  | x :: a', y :: b' =>
      match Nat.compare (code x) (code y) with
      | Eq => str_compare a' b'
      | c => c
      end
  end.

(** Comparison of the key tuples [(rank, v.file, v.line)]. *)
Definition key_compare (v1 v2 : Violation) : comparison :=
  match Nat.compare (severity_rank (severity v1)) (severity_rank (severity v2)) with
  | Eq =>
      match str_compare (file v1) (file v2) with
      | Eq => Nat.compare (line v1) (line v2)
      | c => c
      end
  | c => c
  end.

Definition key_leb (v1 v2 : Violation) : bool :=
  match key_compare v1 v2 with
  | Gt => false
  | _ => true
  end.

(** [list.sort(key=...)] is an ascending stable sort: an element goes in
    front of the first one whose key is not smaller. *)
Fixpoint insert (v : Violation) (l : list Violation) : list Violation :=
  match l with
  | [] => [v]
  | u :: l' => if key_leb v u then v :: l else u :: insert v l'
  end.

Definition sort_by_key (l : list Violation) : list Violation :=
  fold_right insert [] l.

(** ** [main]

    How an invocation ends, the violation records it prints (in order, each
    through [format_violation]) and what it writes to [sys.stderr]. *)

Inductive status : Type :=
| Returned
| Exited (code : nat).

Record outcome : Type := mkOutcome {
  exit_status : status;
  shown : list Violation;
  stderr : list str
}.

(** The part of [main] after the target has been scanned: nothing is shown
    for an empty list, otherwise the list is sorted and shown. *)
Definition report (violations : list Violation) (err : list str) : outcome :=
  match violations with
  | [] => mkOutcome Returned [] err
  | _ :: _ => mkOutcome Returned (sort_by_key violations) err
  end.

Definition main (w : world) (argv : list str) : outcome :=
  match argv with
  | _ :: target :: _ =>
      let recursive :=
        existsb (str_eqb (L "--recursive")) argv
        || existsb (str_eqb (L "-r")) argv in
      if isfile w target then
        let '(violations, err) := detect_file w target in
        report violations err
      else if isdir w target then
        let '(violations, err) := scan_directory w target recursive in
        report violations err
      else
        mkOutcome (Exited 1) []
          [L "错误: " ++ target ++ L " 不是有效的文件或目录"]
  | _ => mkOutcome (Exited 1) [] []
  end.

End Detect.

(** * The summary of [main] in [detect_violations.py] *)

Module Summary.
Import Detect.

Definition severity_eqb (a b : Severity) : bool :=
  match a, b with
  | CRITICAL, CRITICAL | IMPORTANT, IMPORTANT | SUGGESTION, SUGGESTION => true
  | _, _ => false
  end.

(** [sum(1 for v in violations if v.severity == s)] *)
Definition count_severity (s : Severity) (violations : list Violation) : nat :=
  list_sum (map (fun _ => 1)
                (filter (fun v => severity_eqb (severity v) s) violations)).

(** The three numbers [main] prints under the list. *)
Definition critical (violations : list Violation) : nat :=
  count_severity CRITICAL violations.
Definition important (violations : list Violation) : nat :=
  count_severity IMPORTANT violations.
Definition suggestions (violations : list Violation) : nat :=
  count_severity SUGGESTION violations.

End Summary.

(** * The statistics of [generate_report.py] *)

Module Report.
Import Detect.

(** [Severity.value] *)
Definition severity_value (s : Severity) : str :=
  match s with
  | CRITICAL => L "严重"
  | IMPORTANT => L "重要"
  | SUGGESTION => L "建议"
  end.

(** A [defaultdict(int)] with string keys, in insertion order. *)
Definition counter := list (str * nat).

(** [d[k] += 1] *)
Fixpoint bump (k : str) (d : counter) : counter :=
  match d with
  | [] => [(k, 1)]
  | (k', n) :: d' =>
      if str_eqb k k' then (k', n + 1) :: d' else (k', n) :: bump k d'
  end.

(** [d.get(k, 0)] *)
Fixpoint get (k : str) (d : counter) : nat :=
  match d with
  | [] => 0
  | (k', n) :: d' => if str_eqb k k' then n else get k d'
  end.

Record stats : Type := mkStats {
  total : nat;
  by_severity : counter;
  by_rule : counter;
  by_file : counter
}.

(** The body of the loop of [_calculate_stats]. *)
Definition count_one (st : stats) (v : Violation) : stats :=
  mkStats (total st)
          (bump (severity_value (severity v)) (by_severity st))
          (bump (rule v) (by_rule st))
          (bump (file v) (by_file st)).

Definition _calculate_stats (violations : list Violation) : stats :=
  fold_left count_one violations (mkStats (length violations) [] [] []).

(** The records [generate_markdown] lists in its two detail sections, in
    order: every critical one, then the first ten important ones. *)
Definition markdown_details (violations : list Violation) : list Violation :=
  let critical :=
    filter (fun v => Summary.severity_eqb (severity v) CRITICAL) violations in
  let important :=
    filter (fun v => Summary.severity_eqb (severity v) IMPORTANT) violations in
  critical ++ firstn 10 important.

(** The records [generate_html] lists, in order: [self.violations[:50]]. *)
Definition html_details (violations : list Violation) : list Violation :=
  firstn 50 violations.

(** How [main] goes on once [argparse] has read the command line
    ([directory] is [args.directory], [recursive] is [args.recursive]): it
    exits, returns without a report, or hands a list to [ReportGenerator]. *)
Inductive handed : Type :=
| Exits (code : nat)
| NoReport
| Generates (violations : list Violation).

Definition main (w : world) (directory : str) (recursive : bool) : handed :=
  if negb (isdir w directory) then Exits 1
  else
    match fst (scan_directory w directory recursive) with
    | [] => NoReport
    | violations => Generates violations
    end.

End Report.

(** * Reading and writing in [modernize_code.py] *)

Module Driver.

(** What the script asks of its environment: whether a path is a file, what
    reading it gives, and whether [shutil.copy2] or the writing of a file
    raises (and with what). *)
Record env : Type := mkEnv {
  isfile : str -> bool;
  readlines : str -> Detect.read_result;
  copy2_raises : str -> str -> option str;
  write_raises : str -> option str
}.

(** What a run does to its surroundings, in order: a file copied, a file
    written with the given lines, a line printed to [sys.stderr].  What goes
    to standard output is left out. *)
Inductive effect : Type :=
| Copied (src dst : str)
| Written (path : str) (lines : list str)
| Complained (msg : str).

(** How a call ends: with a value, or with an exception nobody catches. *)
Inductive ending (X : Type) : Type :=
| Returns (x : X)
| Raises (e : str).
Arguments Returns {X} x.
Arguments Raises {X} e.

Fixpoint lines_eqb (a b : list str) : bool :=
  match a, b with
  | [], [] => true
  | x :: a', y :: b' => str_eqb x y && lines_eqb a' b'
  | _, _ => false
  end.

(** [CodeModernizer.modernize_file]: how the call ends, what it did, and
    [self.replacements] afterwards ([replacements] is its value before). *)
Definition modernize_file (w : env) (dry_run : bool)
                          (replacements : list Modernize.Replacement)
                          (filepath : str) (backup : bool)
  : ending bool * list effect * list Modernize.Replacement :=
  match readlines w filepath with
  | Detect.ReadRaises e =>
      (Returns false,
       [Complained (L "错误：无法读取文件 " ++ filepath ++ L ": " ++ e)],
       replacements)
  | Detect.ReadOk original_lines =>
      let '(lines, replacements) := Modernize.modernize_file original_lines in
      if lines_eqb lines original_lines then (Returns false, [], replacements)
      else if dry_run then (Returns true, [], replacements)
      else
        let backup_path := filepath ++ L ".bak" in
        match (if backup then copy2_raises w filepath backup_path else None) with
        | Some e => (Raises e, [], replacements)
        | None =>
            let copied := if backup then [Copied filepath backup_path] else [] in
            match write_raises w filepath with
            | None =>
                (Returns true, copied ++ [Written filepath lines], replacements)
            | Some e =>
                (Returns false,
                 copied ++ [Complained (L "  错误：无法写入文件: " ++ e)],
                 replacements)
            end
        end
  end.

(** [main]: the exit status ([0] when it returns) or the exception, and what
    it did.  A fresh [CodeModernizer] starts with no replacements. *)
Definition main (w : env) (argv : list str) : ending nat * list effect :=
  match argv with
  | _ :: filepath :: _ =>
      let dry_run := existsb (str_eqb (L "--dry-run")) argv in
      let backup := existsb (str_eqb (L "--backup")) argv in
      if negb (isfile w filepath) then
        (Returns 1, [Complained (L "错误: " ++ filepath ++ L " 不是有效的文件")])
      else
        match modernize_file w dry_run [] filepath backup with
        | (Returns _, effects, _) => (Returns 0, effects)
        | (Raises e, effects, _) => (Raises e, effects)
        end
  | _ => (Returns 1, [])
  end.

(** The exit status of the process: the interpreter reports an exception
    nobody catches and exits with status 1. *)
Definition exit_status (r : ending nat) : nat :=
  match r with
  | Returns n => n
  | Raises _ => 1
  end.

End Driver.

(** * Derived notions used by the statements *)

Import Modernize.

(** The scope at the top of the loop body for the line at index [n]
    (0-based), that is after the lines before it. *)
Fixpoint scope_before (st : scope) (lines : list str) (n : nat) : scope :=
  match n, lines with
  | S n', line :: rest =>
      scope_before (track_end (track_access (track_class st line) line) line)
                   rest n'
  | _, _ => st
  end.

(** The scope under which the constructor test of a line runs. *)
Definition scope_in_force (st : scope) (lines : list str) (n : nat)
                          (line : str) : scope :=
  let st0 := scope_before st lines n in
  track_access (track_class st0 line) line.

(** The pass an entry of the log comes from, read off its reason tag, in the
    order the passes are called by [modernize_file]. *)
Definition pass_rank (r : Replacement) : nat :=
  if str_eqb (reason r) reason_null then 1
  else if str_eqb (reason r) reason_typedef then 2
  else if str_eqb (reason r) reason_explicit then 3
  else if str_eqb (reason r) reason_zero then 4
  else 0.

(** The same under the numbering NULL, typedef, pointer zero, explicit. *)
Definition listed_rank (r : Replacement) : nat :=
  if str_eqb (reason r) reason_null then 1
  else if str_eqb (reason r) reason_typedef then 2
  else if str_eqb (reason r) reason_zero then 3
  else if str_eqb (reason r) reason_explicit then 4
  else 0.

(** Order on log entries by (pass, line number). *)
Definition log_lt (rank : Replacement -> nat) (a b : Replacement) : Prop :=
  rank a < rank b \/ (rank a = rank b /\ line_num a < line_num b).

Definition log_ordered (rank : Replacement -> nat) (log : list Replacement)
  : Prop :=
  StronglySorted (log_lt rank) log.

(** Order on violations by the key tuple (severity rank, file, line). *)
Definition str_lt (a b : str) : Prop := Detect.str_compare a b = Lt.

Definition key_le (a b : Detect.Violation) : Prop :=
  Detect.severity_rank (Detect.severity a)
    < Detect.severity_rank (Detect.severity b)
  \/ (Detect.severity_rank (Detect.severity a)
        = Detect.severity_rank (Detect.severity b)
      /\ (str_lt (Detect.file a) (Detect.file b)
          \/ (Detect.file a = Detect.file b
              /\ Detect.line a <= Detect.line b))).

(** The order of the severities for sorting and display: Critical, then
    Important, then Suggestion. *)
Definition severity_before (s t : Detect.Severity) : Prop :=
  match s, t with
  | Detect.CRITICAL, Detect.IMPORTANT
  | Detect.CRITICAL, Detect.SUGGESTION
  | Detect.IMPORTANT, Detect.SUGGESTION => True
  | _, _ => False
  end.

(** [a] may stand in front of [b] in a list ordered by severity, then by
    file, then by line number. *)
Definition display_le (a b : Detect.Violation) : Prop :=
  severity_before (Detect.severity a) (Detect.severity b)
  \/ (Detect.severity a = Detect.severity b
      /\ (str_lt (Detect.file a) (Detect.file b)
          \/ (Detect.file a = Detect.file b
              /\ Detect.line a <= Detect.line b))).

(** What the order looks at in a record. *)
Definition key_of (v : Detect.Violation) : Detect.Severity * str * nat :=
  (Detect.severity v, Detect.file v, Detect.line v).

(** The list [violations] of [main] when it reaches the sort. *)
Definition detected (w : Detect.world) (argv : list str)
  : list Detect.Violation :=
  match argv with
  | _ :: target :: _ =>
      let recursive :=
        existsb (str_eqb (L "--recursive")) argv
        || existsb (str_eqb (L "-r")) argv in
      if Detect.isfile w target then fst (Detect.detect_file w target)
      else if Detect.isdir w target then
        fst (Detect.scan_directory w target recursive)
      else []
  | _ => []
  end.

(** The line [detect_file] prints to [sys.stderr] when reading fails. *)
Definition read_error (filepath e : str) : str :=
  L "错误：无法读取文件 " ++ filepath ++ L ": " ++ e.

(** A small environment: a directory [src] with an unreadable file in front
    of a readable one, and nothing else. *)
Definition probe_world : Detect.world :=
  Detect.mkWorld
    (fun p => false)
    (fun p => str_eqb p (L "src"))
    (fun p =>
       if str_eqb p (L "src/ok.cpp") then
         Detect.ReadOk [L "int *p = NULL;"; L "x = (Foo*)y;"]
       else Detect.ReadRaises (L "Permission denied"))
    (fun d pat =>
       if str_eqb d (L "src") && str_eqb pat (L "*.cpp") then
         [L "src/bad.cpp"; L "src/ok.cpp"]
       else []).

(** A directory [src] with two readable files: an important finding in the
    first, two critical ones in the second, the later line found first. *)
Definition report_world : Detect.world :=
  Detect.mkWorld
    (fun p => false)
    (fun p => str_eqb p (L "src"))
    (fun p =>
       if str_eqb p (L "src/a.cpp") then Detect.ReadOk [L "int *p = NULL;"]
       else if str_eqb p (L "src/b.cpp") then
         Detect.ReadOk [L "x = (Foo*)y;"; L "delete p;"]
       else Detect.ReadRaises (L "No such file or directory"))
    (fun d pat =>
       if str_eqb d (L "src") && str_eqb pat (L "*.cpp") then
         [L "src/a.cpp"; L "src/b.cpp"]
       else []).

(** ** What a pattern matches

    [lang r pre m post]: the pattern [r] matches the text [m] when [pre] is
    the text in front of it, reversed, and [post] the text behind it.  The
    context is what [\b] and [^] look at. *)
Fixpoint lang (r : regex) (pre m post : str) : Prop :=
  match r with
  | Emp => m = []
  | Cls p => exists c, m = [c] /\ p c = true
  | Cat r1 r2 =>
      exists m1 m2,
        m = m1 ++ m2 /\ lang r1 pre m1 (m2 ++ post)
        /\ lang r2 (rev m1 ++ pre) m2 post
  | Alt r1 r2 => lang r1 pre m post \/ lang r2 pre m post
  | Star _ p => forallb p m = true
  | Bnd => m = [] /\ at_boundary pre post = true
  | Bol => m = [] /\ pre = []
  | Grp _ r => lang r pre m post
  end.

(** The group numbers a pattern binds. *)
Fixpoint groups_of (r : regex) : list nat :=
  match r with
  | Cat r1 r2 | Alt r1 r2 => groups_of r1 ++ groups_of r2
  | Grp n r => n :: groups_of r
  | _ => []
  end.

(** A pattern that matches no empty text. *)
Definition never_empty (r : regex) : Prop :=
  forall pre m post, lang r pre m post -> m <> [].

(** The report of the NULL rule, told from the other ES.47 report by its
    message, on the line numbered [n]. *)
Definition null_message : str := L "使用 NULL，应使用 nullptr".

Definition is_null_report (n : nat) (v : Detect.Violation) : bool :=
  (Detect.line v =? n) && str_eqb (Detect.message v) null_message.

(** The log entries for the line numbered [n]. *)
Definition log_at (n : nat) (log : list Replacement) : list Replacement :=
  filter (fun r => line_num r =? n) log.

(** A line with NULL in front of a comment. *)
Definition commented_null : str := L "p = NULL; // reset".

(** The first character of a text, if any, is outside a class. *)
Definition head_not (p : ascii -> bool) (s : str) : Prop :=
  match s with
  | [] => True
  | c :: _ => p c = false
  end.



(** Three lines that are comments from their first character on. *)
Definition comment_only : list str :=
  [L "// for (int i = 0; i < v.size(); ++i)";
   L "// Foo * make(int x);";
   L "// int arr[10];"].

(** A class whose name has [struct] inside it, with a constructor in its
    private part. *)
Definition private_ctor : list str :=
  [L "class Constructor {"; L "    Constructor(int x);"; L "};"].

(** What it is for a pass to keep every line in its place: as many lines
    out as in; a line of the output is the line of the input at the same
    number or its rewrite, logged under that number; and every log entry
    names a line number at which the input holds its old text and the output
    its new text. *)
Definition keeps_lines (pass : list str -> list str * list Replacement) : Prop :=
  forall lines : list str,
    length (fst (pass lines)) = length lines
    /\ (forall n l,
          nth_error lines n = Some l ->
          exists l',
            nth_error (fst (pass lines)) n = Some l'
            /\ (l' = l
                \/ exists r, In r (snd (pass lines)) /\ line_num r = S n
                             /\ old_text r = l /\ new_text r = l'))
    /\ (forall r,
          In r (snd (pass lines)) ->
          1 <= line_num r
          /\ nth_error lines (line_num r - 1) = Some (old_text r)
          /\ nth_error (fst (pass lines)) (line_num r - 1) = Some (new_text r)).

(** A file with a struct constructor on line 2 and a pointer set to 0 on
    line 4. *)
Definition order_probe : list str :=
  [L "struct S {"; L "    S(int x);"; L "};"; L "int *p = 0;"].

(** [re.sub] of the NULL pass and of the pointer-zero pass, from a position
    inside the text. *)
Definition null_sub (pre s : str) : str :=
  sub_go Modernize.null_re (L "nullptr") pre s 0.

Definition zero_sub (pre s : str) : str :=
  sub_go zero_assign_re (L "= nullptr;") pre s 0.

(** A line that begins, after white space, with a word followed by
    optional white space and an opening parenthesis. *)
Definition call_shaped (text : str) : Prop :=
  exists indent c cs w t,
    text = indent ++ (c :: cs) ++ w ++ L "(" ++ t
    /\ forallb is_space indent = true
    /\ is_word c = true /\ forallb is_word cs = true
    /\ forallb is_space w = true.

(** An effect that leaves every file as it is. *)
Definition harmless (e : Driver.effect) : Prop :=
  match e with
  | Driver.Complained _ => True
  | _ => False
  end.

(** A file the pipeline changes, and an environment in which it can be read,
    copied and written. *)
Definition null_file : list str := [L "int *p = NULL;"].

Definition open_env : Driver.env :=
  Driver.mkEnv (fun p => str_eqb p (L "a.cpp"))
               (fun p => Detect.ReadOk null_file)
               (fun src dst => None)
               (fun p => None).


(** The violations the eight detector bodies give for one line. *)
Definition line_reports (filepath : str) (lines : list str) (i : nat)
                        (text : str) : list Detect.Violation :=
  Detect.raw_new_delete_body filepath i text
  ++ Detect.null_usage_body filepath i text
  ++ Detect.c_style_cast_body filepath i text
  ++ Detect.typedef_body filepath i text
  ++ Detect.missing_const_body filepath lines i text
  ++ Detect.manual_loops_body filepath i text
  ++ Detect.raw_pointers_body filepath i text
  ++ Detect.c_arrays_body filepath i text.

(** The rule identifiers with the severity each is reported under. *)
Definition rule_table : list (str * Detect.Severity) :=
  [(L "R.11", Detect.CRITICAL); (L "ES.47", Detect.IMPORTANT);
   (L "ES.49", Detect.CRITICAL); (L "T.43", Detect.SUGGESTION);
   (L "Con.2", Detect.IMPORTANT); (L "ES.71", Detect.SUGGESTION);
   (L "I.11", Detect.IMPORTANT); (L "SL.con.1", Detect.SUGGESTION)].


(** A line that is a [private:] or [protected:] label. *)
Definition closing_label (text : str) : Prop :=
  is_some (re_match (label_re (L "private")) text) = true
  \/ is_some (re_match (label_re (L "protected")) text) = true.

(** A counter after the keys of a list of violations have been counted
    into it. *)
Definition tally (key : Detect.Violation -> str) (d : Report.counter)
                 (vs : list Detect.Violation) : Report.counter :=
  fold_left (fun d v => Report.bump (key v) d) vs d.

(** Case analysis on the tests of a detector body, and on membership in a
    short list. *)
Ltac body_cases :=
  repeat match goal with
         | |- context [if ?b then _ else _] => destruct b
         | |- context [match nth_error ?l ?i with _ => _ end] =>
             destruct (nth_error l i)
         end.

Ltac one_of_list H :=
  simpl in H;
  repeat match type of H with
         | _ \/ _ => destruct H as [H | H]
         | False => destruct H
         end.

(** Case analysis on membership in the reports of one line. *)
Ltac report_cases Hv :=
  unfold line_reports, Detect.raw_new_delete_body, Detect.null_usage_body,
    Detect.c_style_cast_body, Detect.typedef_body, Detect.manual_loops_body,
    Detect.raw_pointers_body, Detect.c_arrays_body in Hv;
  rewrite ?in_app_iff in Hv;
  repeat match type of Hv with
         | _ \/ _ => destruct Hv as [Hv | Hv]
         end;
  repeat match type of Hv with
         | In _ (if ?b then _ else _) => destruct b eqn:?
         end;
  try (simpl in Hv;
       repeat match type of Hv with
              | _ \/ _ => destruct Hv as [Hv | Hv]
              | False => destruct Hv
              end).

(** * Basic facts on text *)

Lemma ascii_eqb_eq (a b : ascii) : ascii_eqb a b = true <-> a = b.
Proof. apply Ascii.eqb_eq. Qed.

Lemma str_eqb_eq (a b : str) : str_eqb a b = true <-> a = b.
Proof.
  revert b; induction a as [|x a IH]; intros [|y b]; simpl;
    try (split; [discriminate | discriminate]); try tauto.
  rewrite andb_true_iff, ascii_eqb_eq, IH.
  split; [intros [-> ->]; reflexivity | intros H; inversion H; auto].
Qed.

Lemma str_eqb_refl (a : str) : str_eqb a a = true.
Proof. apply str_eqb_eq; reflexivity. Qed.

Lemma str_eqb_neq (a b : str) : str_eqb a b = false <-> a <> b.
Proof.
  split.
  - intros H E. apply str_eqb_eq in E. congruence.
  - intros H. destruct (str_eqb a b) eqn:E; [|reflexivity].
    apply str_eqb_eq in E. contradiction.
Qed.


(** * The loops keep the lines in place *)

Section ForLines.
Variable body : nat -> str -> str * list Replacement.

Lemma for_lines_length (i : nat) (lines : list str) :
  length (fst (for_lines body i lines)) = length lines.
Proof.
  revert i; induction lines as [|l rest IH]; intros i; simpl; [reflexivity|].
  destruct (body i l) as [nl reps].
  specialize (IH (S i)). destruct (for_lines body (S i) rest) as [res log].
  simpl in *. congruence.
Qed.

Lemma for_lines_nth (i n : nat) (lines : list str) :
  nth_error (fst (for_lines body i lines)) n
  = option_map (fun l => fst (body (i + n) l)) (nth_error lines n).
Proof.
  revert i n; induction lines as [|l rest IH]; intros i n; simpl.
  - destruct n; reflexivity.
  - destruct (body i l) as [nl reps] eqn:Eb.
    specialize (IH (S i)).
    destruct (for_lines body (S i) rest) as [res log]. simpl in *.
    destruct n as [|n]; simpl.
    + rewrite Nat.add_0_r, Eb. reflexivity.
    + rewrite IH. replace (i + S n) with (S i + n) by lia. reflexivity.
Qed.

Lemma for_lines_log (i : nat) (lines : list str) (r : Replacement) :
  In r (snd (for_lines body i lines)) ->
  exists n l, nth_error lines n = Some l /\ In r (snd (body (i + n) l)).
Proof.
  revert i; induction lines as [|l rest IH]; intros i; simpl; [tauto|].
  destruct (body i l) as [nl reps] eqn:Eb.
  specialize (IH (S i)).
  destruct (for_lines body (S i) rest) as [res log]. simpl in *.
  rewrite in_app_iff. intros [H|H].
  - exists 0, l. rewrite Nat.add_0_r, Eb. auto.
  - destruct (IH H) as (n & l' & Hn & Hr).
    exists (S n), l'. replace (i + S n) with (S i + n) by lia. auto.
Qed.

(** A body that either keeps its line and logs nothing, or logs the one
    entry that records the rewrite under the line's number. *)
Variable tag : str.
Hypothesis body_shape :
  forall i line,
    body i line = (line, [])
    \/ exists new, body i line = (new, [mkReplacement i line new tag]).

Lemma for_lines_entry (i : nat) (lines : list str) (r : Replacement) :
  In r (snd (for_lines body i lines)) ->
  exists n l,
    nth_error lines n = Some l
    /\ r = mkReplacement (i + n) l (fst (body (i + n) l)) tag.
Proof.
  intros H. apply for_lines_log in H. destruct H as (n & l & Hn & Hr).
  exists n, l. split; [exact Hn|].
  destruct (body_shape (i + n) l) as [E | (nw & E)]; rewrite E in *;
    simpl in *; [tauto|].
  destruct Hr as [<- | []]. reflexivity.
Qed.

Lemma for_lines_entries (i : nat) (lines : list str) (r : Replacement) :
  In r (snd (for_lines body i lines)) -> reason r = tag /\ i <= line_num r.
Proof.
  intros H. apply for_lines_entry in H. destruct H as (n & l & _ & ->).
  simpl. split; [reflexivity | lia].
Qed.

Lemma for_lines_sorted (i : nat) (lines : list str) :
  StronglySorted (fun a b => line_num a < line_num b)
                 (snd (for_lines body i lines)).
Proof.
  revert i; induction lines as [|l rest IH]; intros i; simpl.
  - constructor.
  - pose proof (for_lines_entries (S i) rest) as Hent.
    specialize (IH (S i)).
    destruct (body_shape i l) as [E | (nw & E)]; rewrite E;
      destruct (for_lines body (S i) rest) as [res log]; simpl in *.
    + exact IH.
    + constructor; [exact IH|].
      apply Forall_forall. intros r Hr. simpl.
      destruct (Hent r Hr). lia.
Qed.

Lemma for_lines_changed (i n : nat) (lines : list str) (l l' : str) :
  nth_error lines n = Some l ->
  nth_error (fst (for_lines body i lines)) n = Some l' ->
  l' = l \/ In (mkReplacement (i + n) l l' tag) (snd (for_lines body i lines)).
Proof.
  revert i n; induction lines as [|x rest IH]; intros i n; simpl.
  - destruct n; discriminate.
  - specialize (IH (S i)).
    destruct (body_shape i x) as [E | (nw & E)]; rewrite E;
      destruct (for_lines body (S i) rest) as [res log]; simpl in *;
      destruct n as [|n]; simpl.
    + intros [= ->] [= ->]. left; reflexivity.
    + intros H1 H2. rewrite Nat.add_succ_r. exact (IH n H1 H2).
    + intros [= ->] [= ->]. right. left. rewrite Nat.add_0_r. reflexivity.
    + intros H1 H2. rewrite Nat.add_succ_r.
      destruct (IH n H1 H2); auto.
Qed.
End ForLines.

Lemma explicit_line_cases (st : scope) (i : nat) (line : str) :
  explicit_line st i line = (line, [])
  \/ exists m,
       in_class st = true /\ access_level st = Public
       /\ re_match ctor_re line = Some m
       /\ contains (L "explicit") line = false
       /\ contains (L "delete") line = false
       /\ explicit_line st i line
          = (replace_first (grp 1 m) (grp 1 m ++ L "explicit ") line,
             [mkReplacement i line
                (replace_first (grp 1 m) (grp 1 m ++ L "explicit ") line)
                reason_explicit]).
Proof.
  unfold explicit_line.
  destruct (in_class st) eqn:Ec; simpl; [|left; reflexivity].
  destruct (access_level st) eqn:Ea; simpl; try (left; reflexivity).
  destruct (re_match ctor_re line) as [m|] eqn:Em; [|left; reflexivity].
  destruct (contains (L "explicit") line) eqn:Ee; simpl; [left; reflexivity|].
  destruct (contains (L "delete") line) eqn:Ed; simpl; [left; reflexivity|].
  right. exists m. repeat split; reflexivity.
Qed.

Lemma explicit_loop_length (st : scope) (i : nat) (lines : list str) :
  length (fst (explicit_loop st i lines)) = length lines.
Proof.
  revert st i; induction lines as [|l rest IH]; intros st i; simpl;
    [reflexivity|].
  destruct (explicit_line _ i l) as [nl reps].
  specialize (IH (track_end (track_access (track_class st l) l) l) (S i)).
  destruct (explicit_loop _ (S i) rest) as [res log]. simpl in *. congruence.
Qed.

Lemma explicit_loop_nth (st : scope) (i n : nat) (lines : list str) :
  nth_error (fst (explicit_loop st i lines)) n
  = option_map
      (fun l => fst (explicit_line (scope_in_force st lines n l) (i + n) l))
      (nth_error lines n).
Proof.
  revert st i n; induction lines as [|l rest IH]; intros st i n; simpl.
  - destruct n; reflexivity.
  - destruct (explicit_line _ i l) as [nl reps] eqn:Eb.
    specialize (IH (track_end (track_access (track_class st l) l) l) (S i)).
    destruct (explicit_loop _ (S i) rest) as [res log]. simpl in *.
    destruct n as [|n]; simpl.
    + unfold scope_in_force. simpl. rewrite Nat.add_0_r, Eb. reflexivity.
    + rewrite IH. replace (i + S n) with (S i + n) by lia. reflexivity.
Qed.

Lemma explicit_loop_log (st : scope) (i : nat) (lines : list str)
                        (r : Replacement) :
  In r (snd (explicit_loop st i lines)) ->
  exists n l,
    nth_error lines n = Some l
    /\ In r (snd (explicit_line (scope_in_force st lines n l) (i + n) l)).
Proof.
  revert st i; induction lines as [|l rest IH]; intros st i; simpl; [tauto|].
  destruct (explicit_line _ i l) as [nl reps] eqn:Eb.
  specialize (IH (track_end (track_access (track_class st l) l) l) (S i)).
  destruct (explicit_loop _ (S i) rest) as [res log]. simpl in *.
  rewrite in_app_iff. intros [H|H].
  - exists 0, l. unfold scope_in_force. simpl.
    rewrite Nat.add_0_r, Eb. auto.
  - destruct (IH H) as (n & l' & Hn & Hr).
    exists (S n), l'. replace (i + S n) with (S i + n) by lia. auto.
Qed.

Lemma explicit_line_log (st : scope) (i : nat) (line : str) (r : Replacement) :
  In r (snd (explicit_line st i line)) ->
  r = mkReplacement i line (fst (explicit_line st i line)) reason_explicit.
Proof.
  destruct (explicit_line_cases st i line) as [E | (m & _ & _ & _ & _ & _ & E)];
    rewrite E; simpl; [tauto|].
  intros [<- | []]. reflexivity.
Qed.

Lemma explicit_loop_entries (st : scope) (i : nat) (lines : list str)
                            (r : Replacement) :
  In r (snd (explicit_loop st i lines)) ->
  reason r = reason_explicit /\ i <= line_num r.
Proof.
  intros H. apply explicit_loop_log in H. destruct H as (n & l & _ & Hr).
  apply explicit_line_log in Hr. subst r. simpl. split; [reflexivity | lia].
Qed.

Lemma explicit_loop_sorted (st : scope) (i : nat) (lines : list str) :
  StronglySorted (fun a b => line_num a < line_num b)
                 (snd (explicit_loop st i lines)).
Proof.
  revert st i; induction lines as [|l rest IH]; intros st i; simpl.
  - constructor.
  - pose proof (explicit_line_log (track_access (track_class st l) l) i l)
      as Hone.
    pose proof (explicit_loop_entries
                  (track_end (track_access (track_class st l) l) l) (S i) rest)
      as Hent.
    specialize (IH (track_end (track_access (track_class st l) l) l) (S i)).
    destruct (explicit_line_cases (track_access (track_class st l) l) i l)
      as [E | (m & _ & _ & _ & _ & _ & E)]; rewrite E in *;
      destruct (explicit_loop _ (S i) rest) as [res log]; simpl in *.
    + exact IH.
    + constructor; [exact IH|].
      apply Forall_forall. intros r Hr. simpl.
      destruct (Hent r Hr). lia.
Qed.

Lemma explicit_line_shape (st : scope) (i : nat) (line : str) :
  explicit_line st i line = (line, [])
  \/ exists new,
       explicit_line st i line
       = (new, [mkReplacement i line new reason_explicit]).
Proof.
  destruct (explicit_line_cases st i line) as [E | (m & _ & _ & _ & _ & _ & E)];
    [left; exact E | right; eexists; exact E].
Qed.

Lemma explicit_loop_changed (st : scope) (i n : nat) (lines : list str)
                            (l l' : str) :
  nth_error lines n = Some l ->
  nth_error (fst (explicit_loop st i lines)) n = Some l' ->
  l' = l
  \/ In (mkReplacement (i + n) l l' reason_explicit)
        (snd (explicit_loop st i lines)).
Proof.
  revert st i n; induction lines as [|x rest IH]; intros st i n; simpl.
  - destruct n; discriminate.
  - specialize (IH (track_end (track_access (track_class st x) x) x) (S i)).
    destruct (explicit_line_shape (track_access (track_class st x) x) i x)
      as [E | (nw & E)]; rewrite E;
      destruct (explicit_loop _ (S i) rest) as [res log]; simpl in *;
      destruct n as [|n]; simpl.
    + intros [= ->] [= ->]. left; reflexivity.
    + intros H1 H2. rewrite Nat.add_succ_r. exact (IH n H1 H2).
    + intros [= ->] [= ->]. right. left. rewrite Nat.add_0_r. reflexivity.
    + intros H1 H2. rewrite Nat.add_succ_r.
      destruct (IH n H1 H2); auto.
Qed.

(** The three bodies without loop-carried state have the shape the loop
    lemmas ask for. *)
Lemma null_body_shape (i : nat) (line : str) :
  null_body i line = (line, [])
  \/ exists new, null_body i line = (new, [mkReplacement i line new reason_null]).
Proof.
  unfold null_body.
  destruct (negb (contains (L "//") line) && negb (contains (L "/*") line));
    [|left; reflexivity].
  destruct (is_some (re_search null_re line)); [|left; reflexivity].
  destruct (str_eqb line (re_sub null_re (L "nullptr") line)) eqn:E; simpl.
  - apply str_eqb_eq in E. rewrite <- E. left; reflexivity.
  - right. eexists. reflexivity.
Qed.

Lemma typedef_body_shape (i : nat) (line : str) :
  typedef_body i line = (line, [])
  \/ exists new,
       typedef_body i line = (new, [mkReplacement i line new reason_typedef]).
Proof.
  unfold typedef_body.
  destruct (re_match typedef_re line); [right; eexists|left]; reflexivity.
Qed.

Lemma zero_body_shape (i : nat) (line : str) :
  zero_body i line = (line, [])
  \/ exists new, zero_body i line = (new, [mkReplacement i line new reason_zero]).
Proof.
  unfold zero_body.
  destruct (is_some (re_search zero_ptr_re line)); [|left; reflexivity].
  destruct (str_eqb line (re_sub zero_assign_re (L "= nullptr;") line)) eqn:E;
    simpl.
  - apply str_eqb_eq in E. rewrite <- E. left; reflexivity.
  - right. eexists. reflexivity.
Qed.

(** ** Line preservation (C5) *)

Lemma nth_error_same_length {X Y : Type} (a : list X) (b : list Y) (n : nat)
                            (x : X) :
  length b = length a -> nth_error a n = Some x ->
  exists y, nth_error b n = Some y.
Proof.
  intros Hl Hn.
  destruct (nth_error b n) as [y|] eqn:E; [eauto|].
  apply nth_error_None in E.
  assert (n < length a) by (apply nth_error_Some; congruence). lia.
Qed.

Lemma for_lines_keeps (body : nat -> str -> str * list Replacement) (tag : str) :
  (forall i line,
      body i line = (line, [])
      \/ exists new, body i line = (new, [mkReplacement i line new tag])) ->
  keeps_lines (for_lines body 1).
Proof.
  intros Hs lines. split; [apply for_lines_length|]. split.
  - intros n l Hn.
    destruct (nth_error_same_length lines (fst (for_lines body 1 lines)) n
                (for_lines_length body 1 lines) Hn) as [l' Hl'].
    exists l'. split; [exact Hl'|].
    destruct (for_lines_changed body Hs 1 n lines Hn Hl') as [E|Hin];
      [left; exact E | right].
    eexists. split; [exact Hin|]. simpl. auto.
  - intros r Hr.
    destruct (for_lines_entry body Hs 1 lines r Hr) as (n & l & Hn & ->).
    simpl. rewrite Nat.sub_0_r. split; [lia|]. split; [exact Hn|].
    rewrite for_lines_nth, Hn. reflexivity.
Qed.

Lemma explicit_keeps : keeps_lines _add_explicit_to_constructors.
Proof.
  intros lines. unfold _add_explicit_to_constructors.
  split; [apply explicit_loop_length|]. split.
  - intros n l Hn.
    destruct (nth_error_same_length lines
                (fst (explicit_loop initial_scope 1 lines)) n
                (explicit_loop_length initial_scope 1 lines) Hn) as [l' Hl'].
    exists l'. split; [exact Hl'|].
    destruct (explicit_loop_changed initial_scope 1 n lines Hn Hl')
      as [E|Hin]; [left; exact E | right].
    eexists. split; [exact Hin|]. simpl. auto.
  - intros r Hr.
    destruct (explicit_loop_log initial_scope 1 lines r Hr) as (n & l & Hn & Hl).
    apply explicit_line_log in Hl. subst r. simpl.
    rewrite Nat.sub_0_r. split; [lia|]. split; [exact Hn|].
    rewrite explicit_loop_nth, Hn. reflexivity.
Qed.

(** C5.  Each of the four rewrite passes returns as many lines as it is
    given, every output line is the input line of the same number or its
    rewrite logged under that number, and every log entry points at the
    line whose text it replaced: no pass splits, merges, inserts or deletes
    a line. *)
Theorem passes_keep_lines :
  keeps_lines _replace_null_with_nullptr
  /\ keeps_lines _replace_typedef_with_using
  /\ keeps_lines _add_explicit_to_constructors
  /\ keeps_lines _replace_zero_nullptr.
Proof.
  split; [|split; [|split]].
  - exact (for_lines_keeps null_body null_body_shape).
  - exact (for_lines_keeps typedef_body typedef_body_shape).
  - exact explicit_keeps.
  - exact (for_lines_keeps zero_body zero_body_shape).
Qed.

(** ** Pass order and the order of the log (C1) *)

Lemma StronglySorted_app {X : Type} (R : X -> X -> Prop) (a b : list X) :
  StronglySorted R a -> StronglySorted R b ->
  (forall x y, In x a -> In y b -> R x y) ->
  StronglySorted R (a ++ b).
Proof.
  induction a as [|x a IH]; simpl; intros Ha Hb Hab; [exact Hb|].
  inversion Ha as [|? ? Hsa Hfa]; subst.
  constructor.
  - apply IH; auto.
  - apply Forall_app. split; [exact Hfa|].
    apply Forall_forall. intros y Hy. apply Hab; auto.
Qed.

Lemma StronglySorted_weaken {X : Type} (R S : X -> X -> Prop) (l : list X) :
  (forall x y, In x l -> In y l -> R x y -> S x y) ->
  StronglySorted R l -> StronglySorted S l.
Proof.
  induction l as [|x l IH]; intros HRS Hl; [constructor|].
  inversion Hl as [|? ? Hs Hf]; subst. constructor.
  - apply IH; [|exact Hs]. intros; apply HRS; simpl; auto.
  - rewrite Forall_forall in *. intros y Hy.
    apply HRS; simpl; auto.
Qed.

(** A log whose entries all carry one reason tag and come in increasing line
    order is ordered by (pass, line). *)
Lemma one_pass_ordered (rank : Replacement -> nat) (k : nat)
                       (log : list Replacement) :
  (forall r, In r log -> rank r = k) ->
  StronglySorted (fun a b => line_num a < line_num b) log ->
  log_ordered rank log.
Proof.
  intros Hk. apply StronglySorted_weaken.
  intros x y Hx Hy Hlt. right. rewrite (Hk x Hx), (Hk y Hy). auto.
Qed.

Lemma rank_of_reason (r : Replacement) :
  (reason r = reason_null -> pass_rank r = 1)
  /\ (reason r = reason_typedef -> pass_rank r = 2)
  /\ (reason r = reason_explicit -> pass_rank r = 3)
  /\ (reason r = reason_zero -> pass_rank r = 4).
Proof.
  unfold pass_rank. repeat split; intros ->; reflexivity.
Qed.

(** C1 (amended).  [modernize_file] runs the passes in the order NULL,
    typedef, explicit-constructor insertion, pointer zero, each on the lines
    the previous one returned, and its log is the four logs one after the
    other: it is ordered by (pass in that order, line number). *)
Theorem modernize_pass_order (lines : list str) :
  let p1 := _replace_null_with_nullptr lines in
  let p2 := _replace_typedef_with_using (fst p1) in
  let p3 := _add_explicit_to_constructors (fst p2) in
  let p4 := _replace_zero_nullptr (fst p3) in
  modernize_file lines = (fst p4, snd p1 ++ snd p2 ++ snd p3 ++ snd p4)
  /\ log_ordered pass_rank (snd (modernize_file lines)).
Proof.
  intros p1 p2 p3 p4.
  assert (E : modernize_file lines = (fst p4, snd p1 ++ snd p2 ++ snd p3 ++ snd p4)).
  { unfold modernize_file, p4, p3, p2, p1.
    destruct (_replace_null_with_nullptr lines) as [l1 g1]; simpl.
    destruct (_replace_typedef_with_using l1) as [l2 g2]; simpl.
    destruct (_add_explicit_to_constructors l2) as [l3 g3]; simpl.
    destruct (_replace_zero_nullptr l3) as [l4 g4]; simpl.
    rewrite <- !app_assoc. reflexivity. }
  split; [exact E|]. rewrite E. simpl.
  assert (H1 : forall r, In r (snd p1) -> pass_rank r = 1).
  { intros r Hr. apply (for_lines_entries null_body null_body_shape) in Hr.
    apply rank_of_reason, Hr. }
  assert (H2 : forall r, In r (snd p2) -> pass_rank r = 2).
  { intros r Hr.
    apply (for_lines_entries typedef_body typedef_body_shape) in Hr.
    apply rank_of_reason, Hr. }
  assert (H3 : forall r, In r (snd p3) -> pass_rank r = 3).
  { intros r Hr. apply explicit_loop_entries in Hr.
    apply rank_of_reason, Hr. }
  assert (H4 : forall r, In r (snd p4) -> pass_rank r = 4).
  { intros r Hr. apply (for_lines_entries zero_body zero_body_shape) in Hr.
    apply rank_of_reason, Hr. }
  assert (S1 : log_ordered pass_rank (snd p1)).
  { apply one_pass_ordered with (k := 1); [exact H1|].
    apply (for_lines_sorted null_body null_body_shape). }
  assert (S2 : log_ordered pass_rank (snd p2)).
  { apply one_pass_ordered with (k := 2); [exact H2|].
    apply (for_lines_sorted typedef_body typedef_body_shape). }
  assert (S3 : log_ordered pass_rank (snd p3)).
  { apply one_pass_ordered with (k := 3); [exact H3|].
    apply explicit_loop_sorted. }
  assert (S4 : log_ordered pass_rank (snd p4)).
  { apply one_pass_ordered with (k := 4); [exact H4|].
    apply (for_lines_sorted zero_body zero_body_shape). }
  unfold log_ordered in *.
  repeat apply StronglySorted_app; auto; intros x y Hx Hy; left;
    repeat (apply in_app_or in Hy; destruct Hy as [Hy|Hy]);
    repeat match goal with
           | H : forall r, In r ?g -> _, Hr : In ?r ?g |- _ =>
               rewrite (H r Hr); clear Hr
           end; lia.
Qed.

(** C1 as stated fails: numbered NULL, typedef, pointer zero, explicit, the
    log of [order_probe] has its explicit entry (line 2) in front of its
    pointer-zero entry (line 4). *)
Lemma listed_order_fails :
  ~ log_ordered listed_rank (snd (modernize_file order_probe)).
Proof.
  assert (E : map (fun r => (listed_rank r, line_num r))
                  (snd (modernize_file order_probe)) = [(4, 2); (3, 4)])
    by (vm_compute; reflexivity).
  intros H. unfold log_ordered in H.
  destruct (snd (modernize_file order_probe)) as [|a [|b [|c l]]];
    try discriminate E.
  injection E as Ea1 Ea2 Eb1 Eb2.
  inversion H as [|? ? _ Hf]; subst.
  inversion Hf as [|? ? Hab _]; subst.
  unfold log_lt in Hab. lia.
Qed.

(** * The sort of the displayed violations (C8) *)

Import Detect.

Lemma code_inj (a b : ascii) : code a = code b -> a = b.
Proof.
  unfold code. intros H.
  rewrite <- (ascii_nat_embedding a), <- (ascii_nat_embedding b), H.
  reflexivity.
Qed.

Lemma str_compare_eq (a b : str) : str_compare a b = Eq <-> a = b.
Proof.
  revert b; induction a as [|x a IH]; intros [|y b]; simpl;
    try (split; [discriminate | discriminate]); try tauto.
  destruct (Nat.compare (code x) (code y)) eqn:E.
  - apply Nat.compare_eq in E. apply code_inj in E. subst y.
    rewrite IH. split; [intros ->; reflexivity | intros [= ->]; reflexivity].
  - split; [discriminate|]. intros [= -> ->].
    rewrite Nat.compare_refl in E. discriminate.
  - split; [discriminate|]. intros [= -> ->].
    rewrite Nat.compare_refl in E. discriminate.
Qed.

Lemma str_compare_antisym (a b : str) :
  str_compare b a = CompOpp (str_compare a b).
Proof.
  revert b; induction a as [|x a IH]; intros [|y b]; simpl; try reflexivity.
  rewrite (Nat.compare_antisym (code x) (code y)).
  destruct (Nat.compare (code x) (code y)); simpl; auto.
Qed.

Lemma str_compare_trans (a b c : str) :
  str_compare a b = Lt -> str_compare b c = Lt -> str_compare a c = Lt.
Proof.
  revert b c; induction a as [|x a IH]; intros [|y b] [|z c]; simpl;
    try discriminate; try reflexivity.
  destruct (Nat.compare (code x) (code y)) eqn:Exy; try discriminate;
    destruct (Nat.compare (code y) (code z)) eqn:Eyz; try discriminate;
    intros H1 H2.
  - apply Nat.compare_eq in Exy, Eyz.
    replace (Nat.compare (code x) (code z)) with Eq
      by (symmetry; apply Nat.compare_eq_iff; lia).
    eapply IH; eauto.
  - apply Nat.compare_eq in Exy. apply Nat.compare_lt_iff in Eyz.
    replace (Nat.compare (code x) (code z)) with Lt
      by (symmetry; apply Nat.compare_lt_iff; lia).
    reflexivity.
  - apply Nat.compare_eq in Eyz. apply Nat.compare_lt_iff in Exy.
    replace (Nat.compare (code x) (code z)) with Lt
      by (symmetry; apply Nat.compare_lt_iff; lia).
    reflexivity.
  - apply Nat.compare_lt_iff in Exy, Eyz.
    replace (Nat.compare (code x) (code z)) with Lt
      by (symmetry; apply Nat.compare_lt_iff; lia).
    reflexivity.
Qed.

Lemma key_leb_le (a b : Violation) : key_leb a b = true <-> key_le a b.
Proof.
  unfold key_leb, key_compare, key_le, str_lt.
  destruct (Nat.compare (severity_rank (severity a))
                        (severity_rank (severity b))) eqn:Er.
  - apply Nat.compare_eq in Er.
    destruct (str_compare (file a) (file b)) eqn:Ef.
    + apply str_compare_eq in Ef.
      destruct (Nat.compare (line a) (line b)) eqn:El.
      * apply Nat.compare_eq in El. split; [|reflexivity].
        intros _. right. split; [exact Er|]. right. split; [exact Ef | lia].
      * apply Nat.compare_lt_iff in El. split; [|reflexivity].
        intros _. right. split; [exact Er|]. right. split; [exact Ef | lia].
      * apply Nat.compare_gt_iff in El. split; [discriminate|].
        intros [H | [_ [H | [_ H]]]]; try lia; discriminate.
    + split; [|reflexivity]. intros _. right. split; [exact Er|]. left.
      reflexivity.
    + split; [discriminate|].
      intros [H | [_ [H | [H _]]]]; try lia; try discriminate.
      apply str_compare_eq in H. congruence.
  - apply Nat.compare_lt_iff in Er. split; [|reflexivity]. intros _. left.
    exact Er.
  - apply Nat.compare_gt_iff in Er. split; [discriminate|].
    intros [H | [H _]]; lia.
Qed.

Lemma key_le_total (a b : Violation) : key_le a b \/ key_le b a.
Proof.
  unfold key_le, str_lt.
  destruct (Nat.lt_total (severity_rank (severity a))
                         (severity_rank (severity b))) as [H | [H | H]];
    [left; left; exact H | | right; left; exact H].
  destruct (str_compare (file a) (file b)) eqn:Ef.
  - apply str_compare_eq in Ef.
    destruct (Nat.le_ge_cases (line a) (line b)).
    + left. right. split; [exact H|]. right. auto.
    + right. right. split; [lia|]. right. auto.
  - left. right. split; [exact H|]. left. reflexivity.
  - right. right. split; [lia|]. left.
    rewrite str_compare_antisym, Ef. reflexivity.
Qed.

Lemma key_le_trans (a b c : Violation) : key_le a b -> key_le b c -> key_le a c.
Proof.
  unfold key_le, str_lt.
  intros [H1 | [E1 H1]] [H2 | [E2 H2]]; try (left; lia).
  right. split; [lia|].
  destruct H1 as [H1 | [F1 L1]], H2 as [H2 | [F2 L2]].
  - left. eapply str_compare_trans; eauto.
  - left. rewrite <- F2. exact H1.
  - left. rewrite F1. exact H2.
  - right. split; [congruence | lia].
Qed.

Lemma insert_perm (v : Violation) (l : list Violation) :
  Permutation (v :: l) (insert v l).
Proof.
  induction l as [|u l IH]; simpl; [apply Permutation_refl|].
  destruct (key_leb v u); [apply Permutation_refl|].
  eapply perm_trans; [apply perm_swap|]. apply perm_skip, IH.
Qed.

Lemma sort_by_key_perm (l : list Violation) : Permutation l (sort_by_key l).
Proof.
  induction l as [|v l IH]; simpl; [constructor|].
  eapply perm_trans; [apply perm_skip, IH | apply insert_perm].
Qed.

Lemma insert_sorted (v : Violation) (l : list Violation) :
  StronglySorted key_le l -> StronglySorted key_le (insert v l).
Proof.
  induction l as [|u l IH]; simpl; intros Hl.
  - constructor; [constructor | constructor].
  - inversion Hl as [|? ? Hs Hf]; subst.
    destruct (key_leb v u) eqn:E.
    + apply key_leb_le in E. constructor; [exact Hl|].
      constructor; [exact E|].
      rewrite Forall_forall in *. intros x Hx.
      eapply key_le_trans; [exact E | apply Hf, Hx].
    + assert (Huv : key_le u v).
      { destruct (key_le_total u v) as [H|H]; [exact H|].
        apply key_leb_le in H. congruence. }
      constructor; [apply IH, Hs|].
      rewrite Forall_forall in *. intros x Hx.
      apply (Permutation_in _ (Permutation_sym (insert_perm v l))) in Hx.
      destruct Hx as [<- | Hx]; [exact Huv | apply Hf, Hx].
Qed.

Lemma sort_by_key_sorted (l : list Violation) :
  StronglySorted key_le (sort_by_key l).
Proof.
  induction l as [|v l IH]; simpl; [constructor | apply insert_sorted, IH].
Qed.

(** What [main] hands to the sort: [violations] before line 323. *)
Lemma main_shown (w : world) (argv : list str) :
  shown (main w argv) = sort_by_key (detected w argv).
Proof.
  assert (Hr : forall v e, shown (report v e) = sort_by_key v)
    by (intros [|x v] e; reflexivity).
  unfold main, detected.
  destruct argv as [|prog [|target rest]]; try reflexivity.
  destruct (isfile w target).
  - destruct (detect_file w target); apply Hr.
  - destruct (isdir w target); [|reflexivity].
    destruct (scan_directory w target _); apply Hr.
Qed.

(** The key of the sort orders the records as the display order does. *)
Lemma key_le_display (a b : Violation) : key_le a b <-> display_le a b.
Proof.
  unfold key_le, display_le, severity_before.
  destruct (severity a), (severity b); simpl; split;
    intros [H | [H R]]; try lia; try discriminate H; try tauto;
    try (right; split; [reflexivity | exact R]);
    left; lia.
Qed.

Lemma sorted_display (l : list Violation) :
  StronglySorted key_le l -> StronglySorted display_le l.
Proof.
  induction 1 as [|a l Hs IH Hf]; constructor; [exact IH|].
  rewrite Forall_forall in *. intros x Hx. apply key_le_display, Hf, Hx.
Qed.

(** X22.  The violation list [main] of [detect_violations.py] displays, for
    a file or batched over the files of a directory, is the detected list
    rearranged into display order: by severity (Critical, then Important,
    then Suggestion), then by file, then by ascending line number.  So no
    critical record stands behind a record of another severity, and no
    suggestion in front of one. *)
Theorem sorted_before_display (w : world) (argv : list str) :
  StronglySorted display_le (shown (main w argv))
  /\ Permutation (detected w argv) (shown (main w argv))
  /\ forall i j a b,
       i < j ->
       nth_error (shown (main w argv)) i = Some a ->
       nth_error (shown (main w argv)) j = Some b ->
       (severity b = CRITICAL -> severity a = CRITICAL)
       /\ (severity a = SUGGESTION -> severity b = SUGGESTION).
Proof.
  rewrite main_shown.
  split; [apply sorted_display, sort_by_key_sorted|].
  split; [apply sort_by_key_perm|].
  generalize (sorted_display (sort_by_key_sorted (detected w argv))).
  generalize (sort_by_key (detected w argv)) as l.
  induction l as [|x l IH]; intros Hs i j a b Hij Hi Hj.
  - destruct i; discriminate.
  - inversion Hs as [|? ? Hs' Hf]; subst.
    destruct j as [|j]; [lia|]. simpl in Hj.
    destruct i as [|i]; simpl in Hi.
    + injection Hi as ->. apply nth_error_In in Hj.
      rewrite Forall_forall in Hf. specialize (Hf b Hj).
      unfold display_le, severity_before in Hf.
      destruct (severity a), (severity b); split; intros E;
        try reflexivity; try discriminate E;
        destruct Hf as [[] | [Hf _]]; discriminate Hf.
    + apply (IH Hs' i j a b); auto. lia.
Qed.

Lemma sorted_before_display_witness :
  let out := shown (main report_world [L "detect_violations.py"; L "src"]) in
  exists a b,
    1 < 2 /\ nth_error out 1 = Some a /\ nth_error out 2 = Some b
    /\ severity a = CRITICAL /\ severity b = IMPORTANT
    /\ (severity b = CRITICAL -> severity a = CRITICAL)
    /\ (severity a = SUGGESTION -> severity b = SUGGESTION).
Proof.
  intros out.
  destruct (nth_error out 1) as [a|] eqn:Ea; [|discriminate Ea].
  destruct (nth_error out 2) as [b|] eqn:Eb; [|discriminate Eb].
  exists a, b. split; [lia|]. split; [reflexivity|]. split; [reflexivity|].
  split; [injection Ea as <-; reflexivity|].
  split; [injection Eb as <-; reflexivity|].
  exact (proj2 (proj2 (sorted_before_display report_world
                         [L "detect_violations.py"; L "src"]))
           1 2 a b (Nat.lt_succ_diag_r 1) Ea Eb).
Defined.

(** C8.  [main] of [generate_report.py] hands the list of [scan_directory]
    to [ReportGenerator] as it is.  For the directory of [report_world] that
    list has the important record of the first file in front of the two
    critical records of the second, and of those the one of line 2 in front
    of the one of line 1.  The HTML report lists the records in that order,
    the Markdown report lists line 2 in front of line 1, and neither list
    is in display order; [main] of [detect_violations.py] shows the same
    records sorted. *)
Theorem report_list_unsorted :
  exists violations,
    Report.main report_world (L "src") false = Report.Generates violations
    /\ map key_of violations
       = [(IMPORTANT, L "src/a.cpp", 1); (CRITICAL, L "src/b.cpp", 2);
          (CRITICAL, L "src/b.cpp", 1)]
    /\ Report.html_details violations = violations
    /\ map key_of (Report.markdown_details violations)
       = [(CRITICAL, L "src/b.cpp", 2); (CRITICAL, L "src/b.cpp", 1);
          (IMPORTANT, L "src/a.cpp", 1)]
    /\ ~ StronglySorted display_le (Report.html_details violations)
    /\ ~ StronglySorted display_le (Report.markdown_details violations)
    /\ map key_of (shown (main report_world
                            [L "detect_violations.py"; L "src"]))
       = [(CRITICAL, L "src/b.cpp", 1); (CRITICAL, L "src/b.cpp", 2);
          (IMPORTANT, L "src/a.cpp", 1)].
Proof.
  eexists. split; [vm_compute; reflexivity|].
  split; [reflexivity|]. split; [reflexivity|]. split; [reflexivity|].
  split; [|split; [|reflexivity]].
  - intros H. inversion H as [|? ? _ Hf]; subst.
    inversion Hf as [|? ? Hd _]; subst.
    destruct Hd as [[] | [E _]]; discriminate E.
  - intros H. inversion H as [|? ? _ Hf]; subst.
    inversion Hf as [|? ? Hd _]; subst.
    destruct Hd as [[] | [_ [E | [_ E]]]].
    + discriminate E.
    + vm_compute in E. lia.
Qed.

(** * Unreadable files and invalid paths (C9) *)

Lemma scan_files_app (w : world) (a b : list str) :
  scan_files w (a ++ b)
  = (fst (scan_files w a) ++ fst (scan_files w b),
     snd (scan_files w a) ++ snd (scan_files w b)).
Proof.
  induction a as [|f a IH]; simpl.
  - destruct (scan_files w b); reflexivity.
  - destruct (detect_file w f) as [v e]. rewrite IH.
    destruct (scan_files w a) as [va ea]. simpl.
    rewrite !app_assoc. reflexivity.
Qed.

(** C9.  Reading a file that raises makes [detect_file] print one line to
    [sys.stderr] and return the empty list, so a scan over several files
    goes on: it returns what the files before and after give and prints the
    error; [main] on a directory returns normally.  A target that is neither
    a file nor a directory makes [main] exit with status 1, as does a
    missing target. *)
Theorem unreadable_file_skipped
    (w : world) (filepath e : str) (before after : list str)
    (prog dir bad : str) (rest : list str)
    (Hread : readlines w filepath = ReadRaises e)
    (Hdir : isfile w dir = false /\ isdir w dir = true)
    (Hbad : isfile w bad = false /\ isdir w bad = false) :
  detect_file w filepath = ([], [read_error filepath e])
  /\ fst (scan_files w (before ++ filepath :: after))
     = fst (scan_files w before) ++ fst (scan_files w after)
  /\ In (read_error filepath e)
        (snd (scan_files w (before ++ filepath :: after)))
  /\ exit_status (main w (prog :: dir :: rest)) = Returned
  /\ exit_status (main w (prog :: bad :: rest)) = Exited 1
  /\ shown (main w (prog :: bad :: rest)) = []
  /\ exit_status (main w [prog]) = Exited 1.
Proof.
  assert (Hd : detect_file w filepath = ([], [read_error filepath e])).
  { unfold detect_file. rewrite Hread. reflexivity. }
  split; [exact Hd|].
  assert (Hs : scan_files w (filepath :: after)
               = (fst (scan_files w after),
                  read_error filepath e :: snd (scan_files w after))).
  { simpl. rewrite Hd. destruct (scan_files w after); reflexivity. }
  rewrite scan_files_app, Hs. simpl.
  split; [reflexivity|]. split; [apply in_or_app; right; left; reflexivity|].
  destruct Hdir as [Hd1 Hd2], Hbad as [Hb1 Hb2].
  unfold main. rewrite Hd1, Hd2, Hb1, Hb2.
  destruct (scan_directory w dir _) as [[|v vs] err]; simpl; auto.
Qed.

Lemma unreadable_file_skipped_witness :
  readlines probe_world (L "src/bad.cpp") = ReadRaises (L "Permission denied")
  /\ (isfile probe_world (L "src") = false
      /\ isdir probe_world (L "src") = true)
  /\ (isfile probe_world (L "nowhere") = false
      /\ isdir probe_world (L "nowhere") = false)
  /\ fst (scan_files probe_world ([] ++ L "src/bad.cpp" :: [L "src/ok.cpp"]))
     = fst (scan_files probe_world [])
       ++ fst (scan_files probe_world [L "src/ok.cpp"])
  /\ exit_status (main probe_world [L "detect_violations.py"; L "nowhere"])
     = Exited 1.
Proof.
  pose proof (@unreadable_file_skipped probe_world (L "src/bad.cpp")
                (L "Permission denied") [] [L "src/ok.cpp"]
                (L "detect_violations.py") (L "src") (L "nowhere") []
                eq_refl (conj eq_refl eq_refl) (conj eq_refl eq_refl))
    as (_ & H2 & _ & _ & H5 & _).
  split; [reflexivity|]. split; [split; reflexivity|].
  split; [split; reflexivity|]. split; [exact H2 | exact H5].
Defined.

(** * The matcher against [lang] *)

Lemma taken_app (pre m : str) : taken pre (rev m ++ pre) = m.
Proof.
  unfold taken. rewrite length_app, length_rev.
  replace (length m + length pre - length pre) with (length (rev m) + 0)
    by (rewrite length_rev; lia).
  rewrite firstn_app_2. simpl. rewrite app_nil_r. apply rev_involutive.
Qed.

Section MatcherFacts.
Variable A : Type.
Implicit Types (k : cont A) (pre s m post : str) (g : caps).

Lemma or_else_some (x y : option A) (v : A) :
  or_else x y = Some v -> x = Some v \/ (x = None /\ y = Some v).
Proof. destruct x; simpl; intros H; [left | right]; auto. Qed.

Lemma or_else_none (x y : option A) :
  or_else x y = None -> x = None /\ y = None.
Proof. destruct x; simpl; intros H; [discriminate | auto]. Qed.

Lemma star_greedy_sound p k g v : forall s pre,
  star_greedy p pre s g k = Some v ->
  exists m post,
    s = m ++ post /\ forallb p m = true /\ k (rev m ++ pre) post g = Some v.
Proof.
  induction s as [|c s IH]; intros pre; simpl.
  - intros H. exists [], []. auto.
  - destruct (p c) eqn:Ep.
    + intros H. apply or_else_some in H. destruct H as [H | [_ H]].
      * destruct (IH _ H) as (m & post & -> & Hm & Hk).
        exists (c :: m), post. simpl. rewrite Ep, Hm.
        rewrite <- app_assoc. auto.
      * exists [], (c :: s). auto.
    + intros H. exists [], (c :: s). auto.
Qed.

Lemma star_greedy_complete p k g : forall s pre,
  star_greedy p pre s g k = None ->
  forall m post,
    s = m ++ post -> forallb p m = true -> k (rev m ++ pre) post g = None.
Proof.
  induction s as [|c s IH]; intros pre; simpl.
  - intros H m post E _. symmetry in E. apply app_eq_nil in E.
    destruct E as [-> ->]. exact H.
  - intros H m post E Hm.
    destruct m as [|c' m]; simpl in *.
    + subst post. destruct (p c); [apply or_else_none in H; tauto | exact H].
    + injection E as <- ->. apply andb_true_iff in Hm. destruct Hm as [Hc Hm].
      rewrite Hc in H. apply or_else_none in H. destruct H as [H _].
      rewrite <- app_assoc. simpl. exact (IH _ H m post eq_refl Hm).
Qed.

Lemma star_lazy_sound p k g v : forall s pre,
  star_lazy p pre s g k = Some v ->
  exists m post,
    s = m ++ post /\ forallb p m = true /\ k (rev m ++ pre) post g = Some v.
Proof.
  induction s as [|c s IH]; intros pre; simpl; intros H;
    apply or_else_some in H; destruct H as [H | [_ H]];
    try discriminate; try (eexists [], _; simpl; eauto; fail).
  destruct (p c) eqn:Ep; [|discriminate].
  destruct (IH _ H) as (m & post & -> & Hm & Hk).
  exists (c :: m), post. simpl. rewrite Ep, Hm, <- app_assoc. auto.
Qed.

Lemma star_lazy_complete p k g : forall s pre,
  star_lazy p pre s g k = None ->
  forall m post,
    s = m ++ post -> forallb p m = true -> k (rev m ++ pre) post g = None.
Proof.
  induction s as [|c s IH]; intros pre; simpl; intros H m post E Hm;
    apply or_else_none in H; destruct H as [H0 H].
  - symmetry in E. apply app_eq_nil in E. destruct E as [-> ->]. exact H0.
  - destruct m as [|c' m]; simpl in *.
    + subst post. exact H0.
    + injection E as <- ->. apply andb_true_iff in Hm. destruct Hm as [Hc Hm].
      rewrite Hc in H. rewrite <- app_assoc. simpl.
      exact (IH _ H m post eq_refl Hm).
Qed.

(** Soundness: a result of the matcher comes from a text in [lang], and
    the groups the pattern does not bind reach the continuation unchanged. *)
Lemma run_sound (r : regex) : forall k pre s g v,
  run r pre s g k = Some v ->
  exists m post g',
    s = m ++ post /\ lang r pre m post
    /\ k (rev m ++ pre) post g' = Some v
    /\ (forall n, ~ In n (groups_of r) -> group n g' = group n g).
Proof.
  induction r as [|p|r1 IH1 r2 IH2|r1 IH1 r2 IH2|[|] p| | |n r IH];
    intros k pre s g v H; simpl in H.
  - exists [], s, g. simpl. auto.
  - destruct s as [|c s]; [discriminate|].
    destruct (p c) eqn:Ep; [|discriminate].
    exists [c], s, g. simpl. eauto 6.
  - destruct (IH1 _ _ _ _ _ H) as (m1 & post1 & g1 & -> & L1 & K1 & G1).
    destruct (IH2 _ _ _ _ _ K1) as (m2 & post & g2 & -> & L2 & K2 & G2).
    exists (m1 ++ m2), post, g2.
    rewrite <- app_assoc, rev_app_distr, <- app_assoc.
    split; [reflexivity|]. split; [simpl; eauto 6|]. split; [exact K2|].
    intros n Hn. simpl in Hn. rewrite in_app_iff in Hn.
    rewrite G2, G1; tauto.
  - apply or_else_some in H. destruct H as [H | [_ H]].
    + destruct (IH1 _ _ _ _ _ H) as (m & post & g' & -> & L1 & K1 & G1).
      exists m, post, g'. simpl. repeat split; auto.
      intros n Hn. apply G1. rewrite in_app_iff in Hn. tauto.
    + destruct (IH2 _ _ _ _ _ H) as (m & post & g' & -> & L1 & K1 & G1).
      exists m, post, g'. simpl. repeat split; auto.
      intros n Hn. apply G1. rewrite in_app_iff in Hn. tauto.
  - destruct (star_greedy_sound _ _ _ _ _ H) as (m & post & -> & Hm & K).
    exists m, post, g. simpl. auto.
  - destruct (star_lazy_sound _ _ _ _ _ H) as (m & post & -> & Hm & K).
    exists m, post, g. simpl. auto.
  - destruct (at_boundary pre s) eqn:Eb; [|discriminate].
    exists [], s, g. simpl. auto.
  - destruct pre; [|discriminate]. exists [], s, g. simpl. auto.
  - destruct (IH _ _ _ _ _ H) as (m & post & g' & -> & L1 & K1 & G1).
    exists m, post, ((n, taken pre (rev m ++ pre)) :: g').
    split; [reflexivity|]. split; [exact L1|]. split; [exact K1|].
    intros n0 Hn. simpl in Hn. simpl.
    destruct (Nat.eqb_spec n0 n) as [->|Hne]; [tauto|].
    apply G1. tauto.
Qed.

(** Completeness: when the matcher gives up, the continuation has refused
    every text in [lang]. *)
Lemma run_complete (r : regex) : forall k pre s g,
  run r pre s g k = None ->
  forall m post,
    s = m ++ post -> lang r pre m post ->
    exists g', k (rev m ++ pre) post g' = None.
Proof.
  induction r as [|p|r1 IH1 r2 IH2|r1 IH1 r2 IH2|[|] p| | |n r IH];
    intros k pre s g H m post E Hl; simpl in H, Hl.
  - subst m. simpl in *. subst s. eauto.
  - destruct Hl as (c & -> & Hc). subst s. simpl in H. rewrite Hc in H.
    simpl. eauto.
  - destruct Hl as (m1 & m2 & -> & L1 & L2).
    rewrite <- app_assoc in E.
    destruct (IH1 _ _ _ _ H m1 (m2 ++ post) E L1) as (g1 & K1).
    destruct (IH2 _ _ _ _ K1 m2 post eq_refl L2) as (g2 & K2).
    exists g2. rewrite rev_app_distr, <- app_assoc. exact K2.
  - apply or_else_none in H. destruct H as [H1 H2].
    destruct Hl as [Hl|Hl]; eauto.
  - exists g. eapply star_greedy_complete; eauto.
  - exists g. eapply star_lazy_complete; eauto.
  - destruct Hl as (-> & Hb). simpl in *. subst s. rewrite Hb in H. eauto.
  - destruct Hl as (-> & ->). simpl in *. subst s. eauto.
  - destruct (IH _ _ _ _ H m post E Hl) as (g' & K). eauto.
Qed.
End MatcherFacts.

Lemma re_at_sound (r : regex) (adv : bool) (pre s : str) (x : rmatch) :
  re_at r adv pre s = Some x ->
  s = m_text x ++ m_rest x
  /\ lang r pre (m_text x) (m_rest x)
  /\ (adv = true -> m_text x <> []).
Proof.
  unfold re_at. intros H. apply run_sound in H.
  destruct H as (m & post & g' & -> & Hl & K & _).
  destruct (adv && (length (rev m ++ pre) =? length pre)) eqn:E;
    [discriminate|].
  injection K as <-. simpl. rewrite taken_app.
  split; [reflexivity|]. split; [exact Hl|].
  intros -> ->. simpl in E. rewrite Nat.eqb_refl in E. discriminate.
Qed.

Lemma re_at_complete (r : regex) (pre s : str) :
  re_at r false pre s = None ->
  forall m post, s = m ++ post -> ~ lang r pre m post.
Proof.
  unfold re_at. intros H m post E Hl.
  destruct (@run_complete _ _ _ _ _ _ H m post E Hl) as (g' & K).
  discriminate.
Qed.

(** [re.search]: a match at the first position that has one. *)
Lemma search_from_none (r : regex) : forall s pre,
  search_from r pre s = None <->
  forall a b, s = a ++ b -> re_at r false (rev a ++ pre) b = None.
Proof.
  induction s as [|c s IH]; intros pre; simpl.
  - destruct (re_at r false pre []) eqn:E.
    + split; [discriminate|]. intros H. specialize (H [] [] eq_refl).
      simpl in H. congruence.
    + split; [|reflexivity]. intros _ a b Hab. symmetry in Hab.
      apply app_eq_nil in Hab. destruct Hab as [-> ->]. exact E.
  - destruct (re_at r false pre (c :: s)) eqn:E.
    + split; [discriminate|]. intros H. specialize (H [] (c :: s) eq_refl).
      simpl in H. congruence.
    + rewrite IH. split.
      * intros H [|c' a] b Hab; simpl in *.
        -- subst b. exact E.
        -- injection Hab as <- ->. rewrite <- app_assoc. simpl. apply H.
           reflexivity.
      * intros H a b ->. specialize (H (c :: a) b eq_refl). simpl in H.
        rewrite <- app_assoc in H. exact H.
Qed.

Lemma search_from_some (r : regex) : forall s pre x,
  search_from r pre s = Some x ->
  exists a b, s = a ++ b /\ re_at r false (rev a ++ pre) b = Some x.
Proof.
  induction s as [|c s IH]; intros pre x; simpl.
  - destruct (re_at r false pre []) eqn:E; [|discriminate].
    intros [= <-]. exists [], []. auto.
  - destruct (re_at r false pre (c :: s)) eqn:E.
    + intros [= <-]. exists [], (c :: s). auto.
    + intros H. destruct (IH _ _ H) as (a & b & -> & Hx).
      exists (c :: a), b. simpl. rewrite <- app_assoc. auto.
Qed.

(** * Substitution *)

Section SubFacts.
Variable r : regex.
Variable repl : str.

Lemma sub_go_skip : forall a pre b,
  sub_go r repl pre (a ++ b) (length a) = sub_go r repl (rev a ++ pre) b 0.
Proof.
  induction a as [|c a IH]; intros pre b; simpl; [reflexivity|].
  rewrite IH, <- app_assoc. reflexivity.
Qed.


Hypothesis r_never_empty : never_empty r.

(** The equation of [re.sub] for a pattern that matches no empty text. *)
Lemma sub_go_step (pre s : str) :
  sub_go r repl pre s 0
  = match re_at r false pre s with
    | Some x => repl ++ sub_go r repl (rev (m_text x) ++ pre) (m_rest x) 0
    | None =>
        match s with
        | [] => []
        | c :: s' => c :: sub_go r repl (c :: pre) s' 0
        end
    end.
Proof.
  destruct (re_at r false pre s) as [x|] eqn:E.
  - destruct (re_at_sound _ _ _ _ E) as (Hs & Hl & _).
    apply r_never_empty in Hl.
    destruct x as [m rest g]. simpl in *.
    destruct m as [|c m]; [congruence|]. subst s. simpl in *. rewrite E.
    rewrite sub_go_skip, <- app_assoc. reflexivity.
  - destruct s as [|c s]; simpl; rewrite E; reflexivity.
Qed.

(** When no match reads like the replacement followed by anything, a text
    with a match is changed. *)
Hypothesis repl_differs :
  forall pre m post X, lang r pre m post -> repl ++ X <> m ++ post.

Lemma sub_go_changes : forall s pre,
  search_from r pre s <> None -> sub_go r repl pre s 0 <> s.
Proof.
  induction s as [|c s IH]; intros pre; rewrite sub_go_step; simpl;
    destruct (re_at r false pre _) as [x|] eqn:E; try congruence.
  - destruct (re_at_sound _ _ _ _ E) as (Hs & Hl & _).
    intros _. rewrite Hs. apply repl_differs with (pre := pre). exact Hl.
  - destruct (re_at_sound _ _ _ _ E) as (Hs & Hl & _).
    intros _. rewrite Hs. apply repl_differs with (pre := pre). exact Hl.
  - intros H Heq. injection Heq as Heq. exact (IH _ H Heq).
Qed.
End SubFacts.

Lemma search_from_skip (r : regex) (c : ascii) (s pre : str) :
  re_at r false pre (c :: s) = None ->
  search_from r pre (c :: s) = search_from r (c :: pre) s.
Proof. simpl. intros ->. reflexivity. Qed.

(** * Literals and prefixes *)

Lemma lang_lit (t : str) : forall pre m post, lang (lit t) pre m post <-> m = t.
Proof.
  induction t as [|c t IH]; intros pre m post; simpl; [tauto|].
  split.
  - intros (m1 & m2 & -> & (c' & -> & Hc) & H2).
    apply ascii_eqb_eq in Hc. subst c'. apply IH in H2. subst. reflexivity.
  - intros ->. exists [c], t. split; [reflexivity|]. split.
    + exists c. split; [reflexivity|]. apply ascii_eqb_eq. reflexivity.
    + apply IH. reflexivity.
Qed.

Lemma starts_with_iff (p s : str) :
  starts_with p s = true <-> exists t, s = p ++ t.
Proof.
  revert s; induction p as [|x p IH]; intros s; simpl.
  - split; eauto.
  - destruct s as [|y s].
    + split; [discriminate | intros (t & H); discriminate].
    + rewrite andb_true_iff, ascii_eqb_eq, IH. split.
      * intros (-> & t & ->). eauto.
      * intros (t & H). injection H as -> ->. eauto.
Qed.


(** * The whole word NULL *)

Lemma lang_null (pre m post : str) :
  lang Modernize.null_re pre m post
  <-> m = L "NULL" /\ head_word pre = false /\ head_word post = false.
Proof.
  unfold Modernize.null_re. cbn [cat lang]. split.
  - intros (m1 & m2 & -> & (-> & Hb1) & (m3 & m4 & -> & Hlit & (-> & Hb2))).
    apply lang_lit in Hlit. subst m3.
    unfold at_boundary in Hb1, Hb2.
    change (head_word ((L "NULL" ++ []) ++ post)) with true in Hb1.
    change (head_word (rev (L "NULL") ++ rev [] ++ pre)) with true in Hb2.
    destruct (head_word pre), (head_word post); try discriminate; auto.
  - intros (-> & Hpre & Hpost).
    exists [], (L "NULL"). split; [reflexivity|].
    split; [split; [reflexivity|]|].
    + unfold at_boundary.
      change (head_word (L "NULL" ++ post)) with true. rewrite Hpre.
      reflexivity.
    + exists (L "NULL"), []. split; [reflexivity|].
      split; [apply lang_lit; reflexivity|]. split; [reflexivity|].
      unfold at_boundary.
      change (head_word (rev (L "NULL") ++ rev [] ++ pre)) with true.
      rewrite Hpost. reflexivity.
Qed.

Lemma null_never_empty : never_empty Modernize.null_re.
Proof. intros pre m post H. apply lang_null in H. destruct H as (-> & _). discriminate. Qed.

Lemma null_repl_differs (pre m post X : str) :
  lang Modernize.null_re pre m post -> L "nullptr" ++ X <> m ++ post.
Proof. intros H. apply lang_null in H. destruct H as (-> & _). discriminate. Qed.

(** An attempt succeeds only on a text that begins with [N]. *)
Lemma null_at_head (pre s : str) (c : ascii) :
  c <> "N"%char -> re_at Modernize.null_re false pre (c :: s) = None.
Proof.
  intros Hc. destruct (re_at _ false pre (c :: s)) as [x|] eqn:E; [|reflexivity].
  destruct (re_at_sound _ _ _ _ E) as (Hs & Hl & _).
  apply lang_null in Hl. destruct Hl as (Hm & _). rewrite Hm in Hs.
  injection Hs as -> _. congruence.
Qed.

Lemma null_at_nil (pre : str) : re_at Modernize.null_re false pre [] = None.
Proof.
  destruct (re_at _ false pre []) as [x|] eqn:E; [|reflexivity].
  destruct (re_at_sound _ _ _ _ E) as (Hs & Hl & _).
  apply lang_null in Hl. destruct Hl as (Hm & _). rewrite Hm in Hs.
  discriminate.
Qed.

Lemma null_sub_step (pre s : str) :
  null_sub pre s
  = match re_at Modernize.null_re false pre s with
    | Some x => L "nullptr" ++ null_sub (rev (m_text x) ++ pre) (m_rest x)
    | None =>
        match s with
        | [] => []
        | c :: s' => c :: null_sub (c :: pre) s'
        end
    end.
Proof. apply sub_go_step, null_never_empty. Qed.

(** A character of the output other than [n] is a copied one. *)
Lemma null_sub_copied (pre s rest : str) (y : ascii) :
  null_sub pre s = y :: rest -> y <> "n"%char ->
  exists s', s = y :: s' /\ rest = null_sub (y :: pre) s'.
Proof.
  rewrite null_sub_step. destruct (re_at _ false pre s) as [x|].
  - intros [= <- _] H. congruence.
  - destruct s as [|c s']; [discriminate|]. intros [= -> <-] _. eauto.
Qed.

Lemma null_sub_head_word (pre s : str) :
  head_word (null_sub pre s) = head_word s.
Proof.
  rewrite null_sub_step. destruct (re_at _ false pre s) as [x|] eqn:E.
  - destruct (re_at_sound _ _ _ _ E) as (Hs & Hl & _).
    apply lang_null in Hl. destruct Hl as (Hm & _). rewrite Hs, Hm.
    reflexivity.
  - destruct s; reflexivity.
Qed.

(** No whole word NULL is left in the output of the substitution. *)
Lemma null_sub_clean : forall n s pre pre',
  length s <= n -> head_word pre = head_word pre' ->
  search_from Modernize.null_re pre' (null_sub pre s) = None.
Proof.
  induction n as [|n IH]; intros s pre pre' Hn Hw.
  - destruct s; [|simpl in Hn; lia].
    rewrite null_sub_step, null_at_nil. simpl. rewrite null_at_nil.
    reflexivity.
  - rewrite null_sub_step.
    destruct (re_at _ false pre s) as [x|] eqn:E.
    + destruct (re_at_sound _ _ _ _ E) as (Hs & Hl & _).
      apply lang_null in Hl. destruct Hl as (Hm & _).
      rewrite Hm in *. cbv [L list_ascii_of_string app].
      do 7 (rewrite search_from_skip by (apply null_at_head; discriminate)).
      apply IH; [|reflexivity].
      rewrite Hs, length_app in Hn.
      change (length (L "NULL")) with 4 in Hn. lia.
    + destruct s as [|c s']; [simpl; rewrite null_at_nil; reflexivity|].
      assert (Hc : re_at Modernize.null_re false pre' (c :: null_sub (c :: pre) s')
                   = None).
      { destruct (re_at _ false pre' _) as [y|] eqn:E'; [exfalso|reflexivity].
        destruct (re_at_sound _ _ _ _ E') as (Hs & Hl & _).
        apply lang_null in Hl. destruct Hl as (Hm & Hp & Hq).
        rewrite Hm in Hs. cbv [L list_ascii_of_string app] in Hs.
        injection Hs as -> Hs.
        apply null_sub_copied in Hs; [|discriminate].
        destruct Hs as (s1 & -> & Hs).
        symmetry in Hs. apply null_sub_copied in Hs; [|discriminate].
        destruct Hs as (s2 & -> & Hs).
        symmetry in Hs. apply null_sub_copied in Hs; [|discriminate].
        destruct Hs as (s3 & -> & Hs).
        rewrite Hs, null_sub_head_word in Hq.
        apply (@re_at_complete _ _ _ E (L "NULL") s3 eq_refl).
        apply lang_null. rewrite Hw. auto. }
      rewrite search_from_skip by exact Hc.
      apply IH; [simpl in Hn; lia | reflexivity].
Qed.

(** * Reports and log entries of one line *)

Lemma in_detect_for_lines (body : nat -> str -> list Violation) :
  forall lines i v,
    In v (Detect.for_lines body i lines) ->
    exists n l, nth_error lines n = Some l /\ In v (body (i + n) l).
Proof.
  induction lines as [|x rest IH]; intros i v; simpl; [tauto|].
  rewrite in_app_iff. intros [H|H].
  - exists 0, x. rewrite Nat.add_0_r. auto.
  - destruct (IH _ _ H) as (n & l & Hn & Hv).
    exists (S n), l. rewrite Nat.add_succ_r. auto.
Qed.

Lemma filter_nil_iff {X : Type} (P : X -> bool) (l : list X) :
  (forall x, In x l -> P x = false) -> filter P l = [].
Proof.
  induction l as [|x l IH]; simpl; intros H; [reflexivity|].
  rewrite (H x) by auto. apply IH. auto.
Qed.

Lemma filter_detect_none (P : Violation -> bool)
                         (body : nat -> str -> list Violation) :
  (forall i l v, In v (body i l) -> P v = false) ->
  forall i lines, filter P (Detect.for_lines body i lines) = [].
Proof.
  intros H i lines. apply filter_nil_iff. intros v Hv.
  apply in_detect_for_lines in Hv. destruct Hv as (n & l & _ & Hv). eauto.
Qed.

Lemma filter_detect_at (Q : Violation -> bool)
                       (body : nat -> str -> list Violation) :
  (forall i l v, In v (body i l) -> line v = i) ->
  forall lines i n l,
    nth_error lines n = Some l ->
    filter (fun v => (line v =? i + n) && Q v) (Detect.for_lines body i lines)
    = filter Q (body (i + n) l).
Proof.
  intros Hline. induction lines as [|x rest IH]; intros i n l Hn.
  - destruct n; discriminate.
  - simpl. rewrite filter_app. destruct n as [|n]; simpl in Hn.
    + injection Hn as ->. rewrite Nat.add_0_r.
      rewrite (filter_nil_iff _ (Detect.for_lines body (S i) rest)).
      * rewrite app_nil_r. apply filter_ext_in. intros v Hv.
        rewrite (Hline _ _ _ Hv), Nat.eqb_refl. reflexivity.
      * intros v Hv. apply in_detect_for_lines in Hv.
        destruct Hv as (k & l' & _ & Hv). rewrite (Hline _ _ _ Hv).
        replace (S i + k =? i) with false; [reflexivity|].
        symmetry. apply Nat.eqb_neq. lia.
    + rewrite (filter_nil_iff _ (body i x)).
      * simpl. rewrite Nat.add_succ_r. apply (IH (S i) n l Hn).
      * intros v Hv. rewrite (Hline _ _ _ Hv).
        replace (i =? i + S n) with false; [reflexivity|].
        symmetry. apply Nat.eqb_neq. lia.
Qed.

Lemma log_at_for_lines (body : nat -> str -> str * list Replacement)
                       (tag : str) :
  (forall i line,
      body i line = (line, [])
      \/ exists new, body i line = (new, [mkReplacement i line new tag])) ->
  forall lines i n l,
    nth_error lines n = Some l ->
    log_at (i + n) (snd (Modernize.for_lines body i lines))
    = snd (body (i + n) l).
Proof.
  intros Hs. unfold log_at.
  induction lines as [|x rest IH]; intros i n l Hn.
  - destruct n; discriminate.
  - pose proof (for_lines_entries body Hs (S i) rest) as Hent.
    specialize (IH (S i)). simpl.
    destruct (Modernize.for_lines body (S i) rest) as [res log] eqn:Er.
    simpl in *.
    destruct n as [|n]; simpl in Hn.
    + injection Hn as ->. rewrite Nat.add_0_r.
      assert (Hrest : filter (fun r => line_num r =? i) log = []).
      { apply filter_nil_iff. intros r Hr. destruct (Hent r Hr).
        apply Nat.eqb_neq. lia. }
      destruct (Hs i l) as [E | (nw & E)]; rewrite E; simpl.
      * exact Hrest.
      * rewrite Nat.eqb_refl, Hrest. reflexivity.
    + rewrite Nat.add_succ_r.
      destruct (Hs i x) as [E | (nw & E)]; rewrite E; simpl.
      * apply (IH n l Hn).
      * replace (i =? S (i + n)) with false
          by (symmetry; apply Nat.eqb_neq; lia).
        apply (IH n l Hn).
Qed.

(** * NULL: one report, and one rewrite on a line without a comment (C3) *)

Lemma other_detectors_silent (filepath : str) (lines : list str) (n : nat) :
  filter (is_null_report n) (_detect_raw_new_delete filepath lines) = []
  /\ filter (is_null_report n) (_detect_c_style_cast filepath lines) = []
  /\ filter (is_null_report n) (_detect_typedef filepath lines) = []
  /\ filter (is_null_report n) (_detect_missing_const filepath lines) = []
  /\ filter (is_null_report n) (_detect_manual_loops filepath lines) = []
  /\ filter (is_null_report n) (_detect_raw_pointers filepath lines) = []
  /\ filter (is_null_report n) (_detect_c_arrays filepath lines) = [].
Proof.
  repeat split; apply filter_detect_none; intros i l v;
    unfold raw_new_delete_body, c_style_cast_body, Detect.typedef_body,
      missing_const_body, manual_loops_body, raw_pointers_body, c_arrays_body;
    body_cases; intros H; one_of_list H; subst v;
    unfold is_null_report; apply andb_false_iff; right; reflexivity.
Qed.

Lemma null_usage_line (filepath : str) (i : nat) (l : str) (v : Violation) :
  In v (null_usage_body filepath i l) -> line v = i.
Proof.
  unfold null_usage_body. body_cases; intros H; one_of_list H; subst v;
    reflexivity.
Qed.

Lemma null_usage_report (filepath : str) (i : nat) (l : str) :
  is_some (re_search Detect.null_re (code_part l)) = true ->
  filter (fun v => str_eqb (message v) null_message)
         (null_usage_body filepath i l)
  = [null_violation filepath i l].
Proof.
  unfold null_usage_body. intros ->.
  destruct (is_some (re_search zero_re (code_part l))); reflexivity.
Qed.

Lemma null_body_rewrites (i : nat) (text : str) :
  contains (L "//") text = false -> contains (L "/*") text = false ->
  is_some (re_search Modernize.null_re text) = true ->
  let new := re_sub Modernize.null_re (L "nullptr") text in
  null_body i text = (new, [mkReplacement i text new reason_null])
  /\ re_search Modernize.null_re new = None.
Proof.
  intros H1 H2 Hs new. unfold null_body. rewrite H1, H2, Hs. simpl.
  fold new.
  assert (Hne : new <> text).
  { apply sub_go_changes.
    - apply null_never_empty.
    - intros. apply null_repl_differs with (pre := pre). assumption.
    - unfold re_search in Hs. destruct (search_from _ [] text);
        [discriminate | discriminate Hs]. }
  replace (str_eqb text new) with false
    by (symmetry; apply str_eqb_neq; congruence).
  split; [reflexivity|].
  apply (@null_sub_clean (length text) text [] []); auto.
Qed.

Lemma null_body_guarded (i : nat) (text : str) :
  contains (L "//") text || contains (L "/*") text = true ->
  null_body i text = (text, []).
Proof.
  unfold null_body. intros H.
  destruct (contains (L "//") text), (contains (L "/*") text);
    try discriminate; reflexivity.
Qed.

(** C3 (amended).  For a line whose code segment holds the whole word NULL,
    detection reports the NULL rule exactly once for that line, as an
    Important ES.47 violation.  The NULL pass rewrites the line when it holds
    neither of the tokens [//] and [/*]: then every whole word NULL becomes
    nullptr, none is left, and exactly one Replacement is logged for the
    line.  A line that holds one of the two tokens is returned as it is and
    nothing is logged for it. *)
Theorem null_reported_and_rewritten
    (filepath : str) (lines : list str) (n : nat) (text : str)
    (Hn : nth_error lines n = Some text)
    (Hnull : is_some (re_search Detect.null_re (code_part text)) = true) :
  filter (is_null_report (S n)) (detect_lines filepath lines)
  = [null_violation filepath (S n) text]
  /\ severity (null_violation filepath (S n) text) = IMPORTANT
  /\ rule (null_violation filepath (S n) text) = L "ES.47"
  /\ let out := _replace_null_with_nullptr lines in
     let new := re_sub Modernize.null_re (L "nullptr") text in
     if contains (L "//") text || contains (L "/*") text then
       nth_error (fst out) n = Some text /\ log_at (S n) (snd out) = []
     else
       nth_error (fst out) n = Some new
       /\ re_search Modernize.null_re new = None
       /\ log_at (S n) (snd out) = [mkReplacement (S n) text new reason_null].
Proof.
  split; [|split; [reflexivity | split; [reflexivity|]]].
  - destruct (other_detectors_silent filepath lines (S n))
      as (H1 & H3 & H4 & H5 & H6 & H7 & H8).
    unfold detect_lines. rewrite !filter_app, H1, H3, H4, H5, H6, H7, H8.
    rewrite !app_nil_r. simpl.
    unfold _detect_null_usage.
    change (is_null_report (S n))
      with (fun v => (line v =? 1 + n) && str_eqb (message v) null_message).
    rewrite (filter_detect_at _ (null_usage_body filepath)
               (null_usage_line filepath) lines 1 n Hn).
    apply null_usage_report, Hnull.
  - intros out new. unfold out, _replace_null_with_nullptr.
    rewrite for_lines_nth, Hn. simpl option_map.
    change (S n) with (1 + n).
    rewrite (log_at_for_lines null_body null_body_shape lines 1 n Hn).
    destruct (contains (L "//") text || contains (L "/*") text) eqn:Eg.
    + rewrite (null_body_guarded (1 + n) text Eg). auto.
    + apply orb_false_iff in Eg. destruct Eg as [E1 E2].
      assert (Hs : is_some (re_search Modernize.null_re text) = true).
      { unfold code_part in Hnull. rewrite E1 in Hnull. exact Hnull. }
      destruct (null_body_rewrites (1 + n) text E1 E2 Hs) as [Hb Hc].
      rewrite Hb. auto.
Qed.

Lemma null_reported_and_rewritten_witness :
  nth_error [L "int *p = NULL;"] 0 = Some (L "int *p = NULL;")
  /\ is_some (re_search Detect.null_re (code_part (L "int *p = NULL;"))) = true
  /\ filter (is_null_report 1) (detect_lines (L "a.cpp") [L "int *p = NULL;"])
     = [null_violation (L "a.cpp") 1 (L "int *p = NULL;")].
Proof.
  split; [reflexivity|]. split; [reflexivity|].
  exact (proj1 (@null_reported_and_rewritten (L "a.cpp") [L "int *p = NULL;"]
                  0 (L "int *p = NULL;") eq_refl eq_refl)).
Defined.

(** C3 as stated fails on [commented_null]: its code segment holds the
    whole word NULL, and the NULL pass returns the line as it is, NULL
    included, and logs nothing. *)
Lemma commented_null_not_rewritten :
  is_some (re_search Detect.null_re (code_part commented_null)) = true
  /\ _replace_null_with_nullptr [commented_null] = ([commented_null], [])
  /\ is_some (re_search Modernize.null_re commented_null) = true.
Proof. repeat split; vm_compute; reflexivity. Qed.

(** * The pointer-zero patterns *)

(** The texts [= 0 ;] with any white space after [=] and after [0]. *)
Lemma lang_zero_assign (pre m post : str) :
  lang zero_assign_re pre m post
  <-> exists w1 w2,
        m = L "=" ++ w1 ++ L "0" ++ w2 ++ L ";"
        /\ forallb is_space w1 = true /\ forallb is_space w2 = true.
Proof.
  unfold zero_assign_re, ws. cbn [cat lang]. split.
  - intros (m1 & r1 & -> & H1 & w1 & r2 & -> & Hw1 & m3 & r3 & -> & H3
            & w2 & m5 & -> & Hw2 & H5).
    apply lang_lit in H1, H3, H5. subst. eauto.
  - intros (w1 & w2 & -> & Hw1 & Hw2).
    exists (L "="), (w1 ++ L "0" ++ w2 ++ L ";").
    split; [reflexivity|]. split; [apply lang_lit; reflexivity|].
    exists w1, (L "0" ++ w2 ++ L ";").
    split; [reflexivity|]. split; [exact Hw1|].
    exists (L "0"), (w2 ++ L ";").
    split; [reflexivity|]. split; [apply lang_lit; reflexivity|].
    exists w2, (L ";").
    split; [reflexivity|]. split; [exact Hw2 | apply lang_lit; reflexivity].
Qed.

(** A match of the pointer pattern ends in a match of the assignment
    pattern. *)
Lemma lang_zero_ptr (pre m post : str) :
  lang zero_ptr_re pre m post ->
  exists a z, m = a ++ z /\ lang zero_assign_re (rev a ++ pre) z post.
Proof.
  unfold zero_ptr_re, zero_assign_re. cbn [cat lang].
  intros (m1 & r1 & -> & H1 & m2 & r2 & -> & H2 & m3 & r3 & -> & H3
          & m4 & r4 & -> & H4 & H5).
  exists (m1 ++ m2 ++ m3 ++ m4), r4.
  rewrite <- !app_assoc. split; [reflexivity|].
  rewrite !rev_app_distr, <- !app_assoc. exact H5.
Qed.

Lemma zero_never_empty : never_empty zero_assign_re.
Proof.
  intros pre m post H. apply lang_zero_assign in H.
  destruct H as (w1 & w2 & -> & _). discriminate.
Qed.

Lemma space_not (c : ascii) :
  is_space c = true ->
  c <> "="%char /\ c <> "0"%char /\ c <> "n"%char /\ c <> ";"%char.
Proof. intros H. repeat split; intros ->; discriminate H. Qed.

Lemma zero_repl_differs (pre m post X : str) :
  lang zero_assign_re pre m post -> L "= nullptr;" ++ X <> m ++ post.
Proof.
  intros H. apply lang_zero_assign in H.
  destruct H as (w1 & w2 & -> & Hw1 & _).
  cbv [L list_ascii_of_string app]. intros E. injection E as E.
  destruct w1 as [|a [|b w1]]; simpl in *; try discriminate.
  injection E as _ Eb _. subst b. rewrite andb_false_r in Hw1.
  discriminate Hw1.
Qed.

Lemma zero_sub_step (pre s : str) :
  zero_sub pre s
  = match re_at zero_assign_re false pre s with
    | Some x => L "= nullptr;" ++ zero_sub (rev (m_text x) ++ pre) (m_rest x)
    | None =>
        match s with
        | [] => []
        | c :: s' => c :: zero_sub (c :: pre) s'
        end
    end.
Proof. apply sub_go_step, zero_never_empty. Qed.

Lemma zero_at_head (pre s : str) (c : ascii) :
  c <> "="%char -> re_at zero_assign_re false pre (c :: s) = None.
Proof.
  intros Hc. destruct (re_at _ false pre (c :: s)) as [x|] eqn:E; [|reflexivity].
  destruct (re_at_sound _ _ _ _ E) as (Hs & Hl & _).
  apply lang_zero_assign in Hl. destruct Hl as (w1 & w2 & Hm & _).
  rewrite Hm in Hs. injection Hs as -> _. congruence.
Qed.

Lemma zero_at_nil (pre : str) : re_at zero_assign_re false pre [] = None.
Proof.
  destruct (re_at _ false pre []) as [x|] eqn:E; [|reflexivity].
  destruct (re_at_sound _ _ _ _ E) as (Hs & Hl & _).
  apply zero_never_empty in Hl. destruct (m_text x); [congruence | discriminate].
Qed.

Lemma zero_at_repl (pre X : str) :
  re_at zero_assign_re false pre (L "= nullptr;" ++ X) = None.
Proof.
  destruct (re_at _ false pre _) as [x|] eqn:E; [|reflexivity].
  destruct (re_at_sound _ _ _ _ E) as (Hs & Hl & _).
  exfalso. exact (@zero_repl_differs _ _ _ X Hl Hs).
Qed.

(** A stretch of the output without [=] is a copied one. *)
Lemma zero_sub_copied : forall w pre s rest,
  zero_sub pre s = w ++ rest ->
  (forall y, In y w -> y <> "="%char) ->
  exists s', s = w ++ s' /\ rest = zero_sub (rev w ++ pre) s'.
Proof.
  induction w as [|y w IH]; intros pre s rest H Hw; simpl in *; [eauto|].
  rewrite zero_sub_step in H.
  destruct (re_at _ false pre s) as [x|].
  - injection H as <- _. exfalso. apply (Hw "="%char); auto.
  - destruct s as [|c s']; [discriminate|]. injection H as -> H.
    destruct (IH _ _ _ H) as (s'' & -> & Hr); [auto|].
    exists s''. rewrite <- app_assoc. auto.
Qed.

(** No [= 0 ;] is left in the output of the substitution. *)
Lemma zero_sub_clean : forall n s pre pre',
  length s <= n -> search_from zero_assign_re pre' (zero_sub pre s) = None.
Proof.
  induction n as [|n IH]; intros s pre pre' Hn.
  - destruct s; [|simpl in Hn; lia].
    rewrite zero_sub_step, zero_at_nil. cbn [search_from].
    rewrite zero_at_nil. reflexivity.
  - rewrite zero_sub_step.
    destruct (re_at _ false pre s) as [x|] eqn:E.
    + destruct (re_at_sound _ _ _ _ E) as (Hs & Hl & _).
      apply zero_never_empty in Hl.
      assert (Hlen : length (m_rest x) <= n).
      { rewrite Hs, length_app in Hn. destruct (m_text x); [congruence|].
        simpl in Hn. lia. }
      pose proof (zero_at_repl pre'
                    (zero_sub (rev (m_text x) ++ pre) (m_rest x))) as Hr.
      cbv [L list_ascii_of_string app] in Hr |- *.
      rewrite search_from_skip by exact Hr.
      do 9 (rewrite search_from_skip by (apply zero_at_head; discriminate)).
      apply IH. exact Hlen.
    + destruct s as [|c s'];
        [cbn [search_from]; rewrite zero_at_nil; reflexivity|].
      assert (Hc : re_at zero_assign_re false pre' (c :: zero_sub (c :: pre) s')
                   = None).
      { destruct (re_at _ false pre' _) as [y|] eqn:E'; [exfalso|reflexivity].
        destruct (re_at_sound _ _ _ _ E') as (Hs & Hl & _).
        apply lang_zero_assign in Hl. destruct Hl as (w1 & w2 & Hm & Hw1 & Hw2).
        rewrite Hm in Hs. cbv [L list_ascii_of_string] in Hs. simpl in Hs.
        injection Hs as -> Hs.
        replace (w1 ++ "0"%char :: w2 ++ ";"%char :: m_rest y)
          with ((w1 ++ "0"%char :: w2 ++ [";"%char]) ++ m_rest y) in Hs
          by (rewrite <- !app_assoc; simpl; rewrite <- app_assoc; reflexivity).
        apply zero_sub_copied in Hs.
        - destruct Hs as (s'' & -> & _).
          apply (@re_at_complete _ _ _ E
                   (L "=" ++ w1 ++ L "0" ++ w2 ++ L ";") s'').
          + cbv [L list_ascii_of_string]. simpl.
            rewrite <- !app_assoc. simpl. rewrite <- app_assoc. reflexivity.
          + apply lang_zero_assign. eauto.
        - intros z Hz. rewrite forallb_forall in Hw1, Hw2.
          apply in_app_or in Hz. destruct Hz as [Hz | [<- | Hz]].
          + apply space_not, Hw1, Hz.
          + discriminate.
          + apply in_app_or in Hz. destruct Hz as [Hz | [<- | []]].
            * apply space_not, Hw2, Hz.
            * discriminate. }
      rewrite search_from_skip by exact Hc.
      apply IH. simpl in Hn. lia.
Qed.

Lemma search_some_lang (r : regex) (s pre : str) :
  search_from r pre s <> None
  <-> exists a m post, s = a ++ m ++ post /\ lang r (rev a ++ pre) m post.
Proof.
  split.
  - destruct (search_from r pre s) as [x|] eqn:E; [|congruence].
    intros _. apply search_from_some in E.
    destruct E as (a & b & -> & E). apply re_at_sound in E.
    destruct E as (-> & Hl & _). eauto.
  - intros (a & m & post & -> & Hl) H.
    rewrite search_from_none in H.
    exact (@re_at_complete _ _ _ (H a (m ++ post) eq_refl) m post eq_refl Hl).
Qed.

Lemma zero_ptr_has_assign (text : str) :
  is_some (re_search zero_ptr_re text) = true ->
  search_from zero_assign_re [] text <> None.
Proof.
  unfold re_search. intros H.
  assert (Hs : search_from zero_ptr_re [] text <> None)
    by (destruct (search_from zero_ptr_re [] text); [discriminate | discriminate H]).
  apply search_some_lang in Hs. destruct Hs as (a & m & post & -> & Hl).
  apply lang_zero_ptr in Hl. destruct Hl as (b & z & -> & Hz).
  apply search_some_lang. exists (a ++ b), z, post.
  rewrite <- !app_assoc. split; [reflexivity|].
  rewrite rev_app_distr, <- app_assoc. exact Hz.
Qed.

(** * The pointer-zero pass rewrites every [= 0;] of a matching line (C10) *)

Lemma zero_body_rewrites (i : nat) (text : str) :
  is_some (re_search zero_ptr_re text) = true ->
  let new := re_sub zero_assign_re (L "= nullptr;") text in
  zero_body i text = (new, [mkReplacement i text new reason_zero])
  /\ re_search zero_assign_re new = None.
Proof.
  intros Hs new. unfold zero_body. rewrite Hs. simpl. fold new.
  assert (Hne : new <> text).
  { apply sub_go_changes.
    - apply zero_never_empty.
    - intros. apply zero_repl_differs with (pre := pre). assumption.
    - apply zero_ptr_has_assign, Hs. }
  replace (str_eqb text new) with false
    by (symmetry; apply str_eqb_neq; congruence).
  split; [reflexivity|].
  apply (@zero_sub_clean (length text) text [] []). auto.
Qed.

(** C10.  On a line in which the pointer pattern [* name = 0 ;] is found,
    the pointer-zero pass replaces every text of the shape [= 0;] by
    [= nullptr;], whichever assignment it belongs to, so that none is left,
    and logs exactly one Replacement for the line; the line
    [*p = 0; n = 0;] becomes [*p = nullptr; n = nullptr;]. *)
Theorem zero_pass_rewrites_all
    (lines : list str) (n : nat) (text : str)
    (Hn : nth_error lines n = Some text)
    (Hptr : is_some (re_search zero_ptr_re text) = true) :
  let out := _replace_zero_nullptr lines in
  let new := re_sub zero_assign_re (L "= nullptr;") text in
  nth_error (fst out) n = Some new
  /\ re_search zero_assign_re new = None
  /\ log_at (S n) (snd out) = [mkReplacement (S n) text new reason_zero]
  /\ re_sub zero_assign_re (L "= nullptr;") (L "*p = 0; n = 0;")
     = L "*p = nullptr; n = nullptr;".
Proof.
  intros out new. unfold out, _replace_zero_nullptr.
  rewrite for_lines_nth, Hn. simpl option_map.
  change (S n) with (1 + n).
  rewrite (log_at_for_lines zero_body zero_body_shape lines 1 n Hn).
  destruct (zero_body_rewrites (1 + n) text Hptr) as [Hb Hc].
  rewrite Hb. repeat split; auto.
Qed.

Lemma zero_pass_rewrites_all_witness :
  nth_error [L "*p = 0; n = 0;"] 0 = Some (L "*p = 0; n = 0;")
  /\ is_some (re_search zero_ptr_re (L "*p = 0; n = 0;")) = true
  /\ nth_error (fst (_replace_zero_nullptr [L "*p = 0; n = 0;"])) 0
     = Some (L "*p = nullptr; n = nullptr;")
  /\ length (log_at 1 (snd (_replace_zero_nullptr [L "*p = 0; n = 0;"]))) = 1.
Proof.
  pose proof (@zero_pass_rewrites_all [L "*p = 0; n = 0;"] 0
                (L "*p = 0; n = 0;") eq_refl eq_refl) as (H1 & _ & H3 & H4).
  split; [reflexivity|]. split; [reflexivity|]. split.
  - rewrite H1, H4. reflexivity.
  - rewrite H3. reflexivity.
Defined.

(** * Runs of one class of characters *)

Lemma span_unique (p : ascii -> bool) : forall a b r r',
  forallb p a = true -> forallb p b = true ->
  head_not p r -> head_not p r' ->
  a ++ r = b ++ r' -> a = b /\ r = r'.
Proof.
  induction a as [|x a IH]; intros [|y b] r r' Ha Hb Hr Hr' E; simpl in *.
  - auto.
  - subst r. apply andb_true_iff in Hb. simpl in Hr. destruct Hb. congruence.
  - subst r'. apply andb_true_iff in Ha. simpl in Hr'. destruct Ha. congruence.
  - injection E as -> E. apply andb_true_iff in Ha, Hb.
    destruct Ha as [_ Ha], Hb as [_ Hb].
    destruct (IH _ _ _ Ha Hb Hr Hr' E) as [-> ->]. auto.
Qed.

Lemma space_not_word (c : ascii) : is_space c = true -> is_word c = false.
Proof.
  destruct c as [[] [] [] [] [] [] [] []]; intros H;
    try reflexivity; discriminate H.
Qed.

Lemma word_not_space (c : ascii) : is_word c = true -> is_space c = false.
Proof.
  intros H. destruct (is_space c) eqn:E; [|reflexivity].
  apply space_not_word in E. congruence.
Qed.

Lemma head_not_app (p : ascii -> bool) (a r : str) :
  (forall c, In c a -> p c = false) -> head_not p r -> head_not p (a ++ r).
Proof. destruct a as [|c a]; simpl; auto. Qed.

(** After a run of white space and a character that is no word character,
    no word character comes first. *)
Lemma head_not_word_after_space (w : str) (x : ascii) (t : str) :
  forallb is_space w = true -> is_word x = false ->
  head_not is_word (w ++ x :: t).
Proof.
  intros Hw Hx. apply head_not_app; [|exact Hx].
  rewrite forallb_forall in Hw. intros c Hc. apply space_not_word, Hw, Hc.
Qed.

Lemma lang_plus (p : ascii -> bool) (pre m post : str) :
  lang (plus p) pre m post
  <-> exists c cs, m = c :: cs /\ p c = true /\ forallb p cs = true.
Proof.
  unfold plus. cbn [lang]. split.
  - intros (m1 & m2 & -> & (c & -> & Hc) & Hcs). exists c, m2. auto.
  - intros (c & cs & -> & Hc & Hcs). exists [c], cs. eauto 6.
Qed.

Lemma plus_forallb (p : ascii -> bool) (pre m post : str) :
  lang (plus p) pre m post -> forallb p m = true /\ m <> [].
Proof.
  intros H. apply lang_plus in H. destruct H as (c & cs & -> & Hc & Hcs).
  simpl. rewrite Hc, Hcs. split; [reflexivity | discriminate].
Qed.

(** ** The shapes of the scope patterns *)

Lemma lang_label (kw pre m post : str) :
  lang (label_re kw) pre m post ->
  exists w1 w2,
    m = w1 ++ kw ++ w2 ++ L ":"
    /\ forallb is_space w1 = true /\ forallb is_space w2 = true.
Proof.
  unfold label_re, ws. cbn [cat lang].
  intros (w1 & r1 & -> & Hw1 & m2 & r2 & -> & H2 & w2 & m3 & -> & Hw2 & H3).
  apply lang_lit in H2, H3. subst. eauto.
Qed.

Lemma lang_class_end (pre m post : str) :
  lang class_end_re pre m post ->
  exists w1 t, m = w1 ++ L "}" ++ t /\ forallb is_space w1 = true.
Proof.
  unfold class_end_re, ws. cbn [cat lang].
  intros (w1 & r1 & -> & Hw1 & m2 & r2 & -> & H2 & _).
  apply lang_lit in H2. subst. eauto.
Qed.

Lemma lang_class (pre m post : str) :
  lang class_re pre m post ->
  exists w1 kw w2 x t,
    m = w1 ++ kw ++ w2 ++ x :: t
    /\ forallb is_space w1 = true
    /\ (kw = L "class" \/ kw = L "struct")
    /\ forallb is_space w2 = true /\ w2 <> []
    /\ is_word x = true.
Proof.
  unfold class_re, ws, ws1, word1. cbn [cat lang alt_lits].
  intros (w1 & r1 & -> & Hw1 & kw & r2 & -> & Hkw & w2 & r3 & -> & Hw2 & H3).
  apply plus_forallb in Hw2. destruct Hw2 as [Hw2 Hne].
  apply lang_plus in H3. destruct H3 as (x & t & -> & Hx & _).
  exists w1, kw, w2, x, t. repeat split; auto.
  destruct Hkw as [H|H]; apply lang_lit in H; auto.
Qed.

Lemma lang_ctor_tail (pre m post : str) :
  lang (cat [ws; lit (L "("); ws; word1;
             Star true (none_of (L ",)")); lit (L ")"); ws;
             Cls (one_of (L ":{;"))]) pre m post ->
  exists w t, m = w ++ L "(" ++ t /\ forallb is_space w = true.
Proof.
  unfold ws. cbn [cat lang].
  intros (w & r1 & -> & Hw & m2 & r2 & -> & H2 & _).
  apply lang_lit in H2. subst. eauto.
Qed.

(** * Groups *)

Lemma run_grp_sound (A : Type) (n : nat) (r : regex) (k : cont A)
                    (pre s : str) (g : caps) (v : A) :
  run (Grp n r) pre s g k = Some v ->
  exists m post g',
    s = m ++ post /\ lang r pre m post
    /\ k (rev m ++ pre) post ((n, m) :: g') = Some v
    /\ (forall j, ~ In j (groups_of r) -> group j g' = group j g).
Proof.
  cbn [run]. intros H. apply run_sound in H.
  destruct H as (m & post & g' & -> & Hl & K & G).
  rewrite taken_app in K. eauto 8.
Qed.

Lemma replace_first_prefix (old new rest : str) :
  replace_first old new (old ++ rest) = new ++ rest.
Proof.
  assert (H : starts_with old (old ++ rest) = true)
    by (apply starts_with_iff; eauto).
  destruct (old ++ rest) as [|c s] eqn:E; simpl; rewrite H;
    rewrite <- E, skipn_app, skipn_all, Nat.sub_diag; reflexivity.
Qed.

(** A match of the constructor pattern: the first group is the white space
    the line begins with, the second the name behind it, and an opening
    parenthesis follows the name after optional white space. *)
Lemma ctor_match_shape (text : str) (m : rmatch) :
  re_match ctor_re text = Some m ->
  exists indent name w t,
    text = indent ++ name ++ w ++ L "(" ++ t
    /\ grp 1 m = indent /\ grp 2 m = name
    /\ forallb is_space indent = true
    /\ (exists c cs, name = c :: cs /\ is_word c = true
                     /\ forallb is_word cs = true)
    /\ forallb is_space w = true.
Proof.
  intros H.
  change (run (Grp 1 ws) [] text []
            (fun p s g =>
               run (Grp 2 word1) p s g
                 (fun p' s' g' =>
                    run (cat [ws; lit (L "("); ws; word1;
                              Star true (none_of (L ",)")); lit (L ")"); ws;
                              Cls (one_of (L ":{;"))]) p' s' g'
                      (fun pre' s'' g'' =>
                         if false && (length pre' =? length (@nil ascii))
                         then None
                         else Some (mkMatch (taken [] pre') s'' g''))))
          = Some m) in H.
  apply run_grp_sound in H.
  destruct H as (indent & post1 & g1 & -> & L1 & H & G1).
  apply run_grp_sound in H.
  destruct H as (name & post2 & g2 & -> & L2 & H & G2).
  apply run_sound in H.
  destruct H as (tail & post3 & g3 & -> & L3 & H & G3).
  simpl in H. injection H as <-.
  apply lang_ctor_tail in L3. destruct L3 as (w & t & -> & Hw).
  apply lang_plus in L2.
  exists indent, name, w, (t ++ post3).
  unfold grp. cbn [m_groups].
  rewrite !G3 by (simpl; tauto). simpl.
  rewrite G2 by (simpl; tauto). simpl.
  rewrite <- !app_assoc. repeat split; auto.
Qed.

(** * The explicit pass fires only in a public section (C7) *)

(** ** Lines that leave the scope alone *)

Lemma first_after_space (a b r r' : str) (x y : ascii) :
  forallb is_space a = true -> forallb is_space b = true ->
  is_space x = false -> is_space y = false ->
  a ++ x :: r = b ++ y :: r' -> a = b /\ x = y /\ r = r'.
Proof.
  intros Ha Hb Hx Hy E.
  destruct (span_unique is_space a b (x :: r) (y :: r') Ha Hb Hx Hy E)
    as [-> E']. injection E' as -> ->. auto.
Qed.

Lemma re_match_lang (r : regex) (text : str) (x : rmatch) :
  re_match r text = Some x ->
  exists m post, text = m ++ post /\ lang r [] m post.
Proof.
  intros H. apply re_at_sound in H. destruct H as (E & Hl & _). eauto.
Qed.

Lemma ctor_call_shaped (text : str) (m : rmatch) :
  re_match ctor_re text = Some m -> call_shaped text.
Proof.
  intros H. apply ctor_match_shape in H.
  destruct H as (indent & name & w & t & -> & _ & _ & Hi
                 & (c & cs & -> & Hc & Hcs) & Hw).
  exists indent, c, cs, w, t. auto.
Qed.

Lemma call_shaped_no_label (text kw : str) :
  call_shaped text -> forallb is_word kw = true -> kw <> [] ->
  re_match (label_re kw) text = None.
Proof.
  intros (indent & c & cs & w & t & -> & Hi & Hc & Hcs & Hw) Hkw Hne.
  destruct (re_match _ _) as [x|] eqn:E; [exfalso|reflexivity].
  apply re_match_lang in E. destruct E as (m & post & E & Hl).
  apply lang_label in Hl. destruct Hl as (w1 & w2 & -> & Hw1 & Hw2).
  destruct kw as [|k kw]; [congruence|]. simpl in Hkw.
  apply andb_true_iff in Hkw. destruct Hkw as [Hk Hkw].
  rewrite <- !app_assoc in E. simpl in E.
  apply first_after_space in E; auto using word_not_space.
  destruct E as (_ & <- & E).
  apply (span_unique is_word) in E; auto.
  - destruct E as [_ E].
    change (L "(" ++ t) with ("("%char :: t) in E.
    change (L ":" ++ post) with (":"%char :: post) in E.
    apply first_after_space in E; auto.
    destruct E as (_ & E & _). discriminate E.
  - apply head_not_word_after_space; auto.
  - apply head_not_word_after_space; auto.
Qed.

Lemma call_shaped_no_class (text : str) :
  call_shaped text -> re_match class_re text = None.
Proof.
  intros (indent & c & cs & w & t & -> & Hi & Hc & Hcs & Hw).
  destruct (re_match _ _) as [x|] eqn:E; [exfalso|reflexivity].
  apply re_match_lang in E. destruct E as (m & post & E & Hl).
  apply lang_class in Hl.
  destruct Hl as (w1 & kw & w2 & x' & t' & -> & Hw1 & Hkw & Hw2 & Hne & Hx).
  assert (Hk : exists k kw', kw = k :: kw' /\ is_word k = true
                             /\ forallb is_word kw' = true).
  { destruct Hkw as [-> | ->]; eexists _, _; split; try reflexivity; auto. }
  destruct Hk as (k & kw' & -> & Hk & Hkw').
  rewrite <- !app_assoc in E. simpl in E.
  apply first_after_space in E; auto using word_not_space.
  destruct E as (_ & <- & E).
  destruct w2 as [|s1 w2]; [congruence|]. simpl in Hw2.
  apply andb_true_iff in Hw2. destruct Hw2 as [Hs1 Hw2].
  apply (span_unique is_word) in E; auto.
  - destruct E as [_ E].
    change (L "(" ++ t) with ("("%char :: t) in E.
    change ((s1 :: w2) ++ (x' :: t') ++ post)
      with ((s1 :: w2) ++ x' :: t' ++ post) in E.
    apply first_after_space in E; auto using word_not_space.
    + destruct E as (_ & <- & _). discriminate Hx.
    + simpl. rewrite Hs1. exact Hw2.
  - apply head_not_word_after_space; auto.
  - simpl. apply space_not_word, Hs1.
Qed.

Lemma call_shaped_no_end (text : str) :
  call_shaped text -> re_match class_end_re text = None.
Proof.
  intros (indent & c & cs & w & t & -> & Hi & Hc & Hcs & Hw).
  destruct (re_match _ _) as [x|] eqn:E; [exfalso|reflexivity].
  apply re_match_lang in E. destruct E as (m & post & E & Hl).
  apply lang_class_end in Hl. destruct Hl as (w1 & t' & -> & Hw1).
  rewrite <- !app_assoc in E. simpl in E.
  change (L "}" ++ t' ++ post) with ("}"%char :: t' ++ post) in E.
  apply first_after_space in E; auto using word_not_space.
  destruct E as (_ & -> & _). discriminate Hc.
Qed.

(** Tracking does not move on a call-shaped line. *)
Lemma call_shaped_keeps_scope (st : scope) (text : str) :
  call_shaped text ->
  track_class st text = st /\ track_access st text = st
  /\ track_end st text = st.
Proof.
  intros H. unfold track_class, track_access, track_end.
  rewrite (call_shaped_no_class H).
  rewrite !(call_shaped_no_label H) by (try reflexivity; discriminate).
  rewrite (call_shaped_no_end H). simpl. rewrite andb_false_r. auto.
Qed.


Lemma explicit_line_result (st : scope) (i : nat) (text : str) :
  (fst (explicit_line st i text) = text
   /\ ~ (in_class st = true /\ access_level st = Public
         /\ is_some (re_match ctor_re text) = true
         /\ contains (L "explicit") text = false
         /\ contains (L "delete") text = false))
  \/ (in_class st = true /\ access_level st = Public
      /\ contains (L "explicit") text = false
      /\ contains (L "delete") text = false
      /\ exists m, re_match ctor_re text = Some m
           /\ fst (explicit_line st i text)
              = replace_first (grp 1 m) (grp 1 m ++ L "explicit ") text).
Proof.
  unfold explicit_line.
  destruct (in_class st) eqn:Ec;
    [|left; split; [reflexivity | intros (H & _); discriminate H]].
  destruct (access_level st) eqn:Ea;
    try (left; split; [reflexivity | intros (_ & H & _); discriminate H]).
  cbn [andb access_eqb].
  destruct (re_match ctor_re text) as [m|] eqn:Em;
    [|left; split; [reflexivity | intros (_ & _ & H & _); discriminate H]].
  destruct (contains (L "explicit") text) eqn:Ee;
    [left; split; [reflexivity | intros (_ & _ & _ & H & _); discriminate H]|].
  destruct (contains (L "delete") text) eqn:Ed;
    [left; split; [reflexivity | intros (_ & _ & _ & _ & H); discriminate H]|].
  right. repeat split; auto. exists m. auto.
Qed.

(** C7.  The explicit pass changes a line exactly when, under the scope it
    tracks, the line is inside a type, the access level is public, the line
    matches the single-parameter constructor pattern and holds neither
    [explicit] nor [delete].  It changes no line while the scope is outside
    a type or the access level is private or protected.  A changed line is
    the old one with [explicit ] put between its leading white space and the
    constructor name; such a line is no class opener or access label, so the
    scope it is tested under is the one the lines before it left. *)
Theorem explicit_only_in_public
    (lines : list str) (n : nat) (text out : str)
    (Hn : nth_error lines n = Some text)
    (Hout : nth_error (fst (_add_explicit_to_constructors lines)) n = Some out) :
  let st := scope_in_force initial_scope lines n text in
  (out <> text <->
     in_class st = true /\ access_level st = Public
     /\ is_some (re_match ctor_re text) = true
     /\ contains (L "explicit") text = false
     /\ contains (L "delete") text = false)
  /\ (in_class st = false \/ access_level st = Private
      \/ access_level st = Protected -> out = text)
  /\ (out <> text ->
      st = scope_before initial_scope lines n
      /\ exists indent name w t,
           text = indent ++ name ++ w ++ L "(" ++ t
           /\ forallb is_space indent = true
           /\ forallb is_word name = true /\ name <> []
           /\ forallb is_space w = true
           /\ out = indent ++ L "explicit " ++ name ++ w ++ L "(" ++ t).
Proof.
  intros st.
  unfold _add_explicit_to_constructors in Hout.
  rewrite explicit_loop_nth, Hn in Hout. simpl in Hout.
  injection Hout as Hout. fold st in Hout.
  destruct (explicit_line_result st (S n) text)
    as [[E Hno] | (Hc & Ha & He & Hd & m & Hm & E)]; rewrite E in Hout.
  - subst out. split; [|split].
    + split; [congruence | intros H; contradiction].
    + reflexivity.
    + congruence.
  - pose proof (@ctor_match_shape _ _ Hm)
      as (indent & name & w & t & Ht & Hg1 & Hg2 & Hi
          & (c & cs & Hname & Hwc & Hcs) & Hw).
    assert (Hnew : out = indent ++ L "explicit " ++ name ++ w ++ L "(" ++ t).
    { rewrite <- Hout, Hg1, Ht, replace_first_prefix, <- app_assoc.
      reflexivity. }
    assert (Hne : out <> text).
    { rewrite Hnew, Ht. intros Heq. apply app_inv_head in Heq.
      apply (f_equal (@length ascii)) in Heq. rewrite length_app in Heq.
      change (length (L "explicit ")) with 9 in Heq. lia. }
    split; [|split].
    + split; [intros _ | intros _; exact Hne].
      rewrite Hm. auto.
    + intros [H | [H | H]]; congruence.
    + intros _. split.
      * unfold st, scope_in_force.
        destruct (@call_shaped_keeps_scope
                    (scope_before initial_scope lines n) text
                    (@ctor_call_shaped _ _ Hm)) as (H1 & H2 & _).
        rewrite H1, H2. reflexivity.
      * exists indent, name, w, t.
        assert (Hall : forallb is_word name = true)
          by (rewrite Hname; simpl; rewrite Hwc, Hcs; reflexivity).
        repeat split; auto. rewrite Hname. discriminate.
Qed.

Lemma explicit_only_in_public_witness :
  let lines := [L "class Foo {"; L "public:"; L "    Foo(int x) { }"; L "};"] in
  nth_error lines 2 = Some (L "    Foo(int x) { }")
  /\ nth_error (fst (_add_explicit_to_constructors lines)) 2
     = Some (L "    explicit Foo(int x) { }")
  /\ access_level (scope_in_force initial_scope lines 2
                     (L "    Foo(int x) { }")) = Public.
Proof.
  intros lines.
  split; [reflexivity|]. split; [reflexivity|].
  pose proof (@explicit_only_in_public lines 2 (L "    Foo(int x) { }")
                (L "    explicit Foo(int x) { }") eq_refl eq_refl)
    as [[H _] _].
  apply H. intros E. discriminate E.
Defined.

(** * Running a pass on its own output (C4) *)















(** * Rules that read the whole line (C2) *)

(** C2, at a failing input.  The code segment of each line of
    [comment_only] is empty, yet the loop rule, the raw-pointer rule and the
    array rule, which search the whole line, report the three lines. *)
Theorem comment_only_reported :
  map code_part comment_only = [[]; []; []]
  /\ map (fun v => (line v, rule v)) (detect_lines (L "a.cpp") comment_only)
     = [(1, L "ES.71"); (2, L "I.11"); (3, L "SL.con.1")].
Proof. split; vm_compute; reflexivity. Qed.

(** * The access level a class opener sets (C6) *)

Lemma opener_sets_scope (st : scope) (text : str) :
  is_some (re_match class_re text) = true ->
  track_class st text
  = mkScope true (if contains (L "struct") text then Public else Private).
Proof. unfold track_class. intros ->. reflexivity. Qed.

(** C6, at a failing input.  The first line of [private_ctor] is a class
    opener, and the scope after it has access level public, because the
    test for the keyword looks for [struct] anywhere in the line; the
    constructor on the next line is then given [explicit]. *)
Theorem class_opener_made_public :
  is_some (re_match class_re (L "class Constructor {")) = true
  /\ scope_before initial_scope private_ctor 1 = mkScope true Public
  /\ fst (_add_explicit_to_constructors private_ctor)
     = [L "class Constructor {"; L "    explicit Constructor(int x);"; L "};"].
Proof. repeat split; vm_compute; reflexivity. Qed.

(** * The pipeline as a whole *)

Lemma keeps_lines_unlogged (pass : list str -> list str * list Replacement)
                           (lines : list str) :
  keeps_lines pass -> snd (pass lines) = [] -> fst (pass lines) = lines.
Proof.
  intros Hk Hlog. destruct (Hk lines) as (Hlen & Hline & _).
  apply nth_error_ext. intros n.
  destruct (nth_error lines n) as [l|] eqn:E.
  - destruct (Hline n l E) as (l' & Hl' & [-> | (r & Hr & _)]); [exact Hl'|].
    rewrite Hlog in Hr. destruct Hr.
  - apply nth_error_None. rewrite Hlen. apply nth_error_None. exact E.
Qed.

Lemma keeps_lines_range (pass : list str -> list str * list Replacement)
                        (lines : list str) (r : Replacement) :
  keeps_lines pass -> In r (snd (pass lines)) ->
  1 <= line_num r <= length lines.
Proof.
  intros Hk Hr. destruct (Hk lines) as (_ & _ & Hlog).
  destruct (Hlog r Hr) as (H1 & H2 & _). split; [exact H1|].
  assert (line_num r - 1 < length lines)
    by (apply nth_error_Some; congruence).
  lia.
Qed.

Lemma modernize_file_unfold (lines : list str) :
  let p1 := _replace_null_with_nullptr lines in
  let p2 := _replace_typedef_with_using (fst p1) in
  let p3 := _add_explicit_to_constructors (fst p2) in
  let p4 := _replace_zero_nullptr (fst p3) in
  modernize_file lines = (fst p4, snd p1 ++ snd p2 ++ snd p3 ++ snd p4).
Proof.
  intros p1 p2 p3 p4. unfold modernize_file, p4, p3, p2, p1.
  destruct (_replace_null_with_nullptr lines) as [l1 g1]; simpl.
  destruct (_replace_typedef_with_using l1) as [l2 g2]; simpl.
  destruct (_add_explicit_to_constructors l2) as [l3 g3]; simpl.
  destruct (_replace_zero_nullptr l3) as [l4 g4]; simpl.
  rewrite <- !app_assoc. reflexivity.
Qed.

Lemma null_pass_keeps : keeps_lines _replace_null_with_nullptr.
Proof. exact (for_lines_keeps null_body null_body_shape). Qed.

Lemma typedef_pass_keeps : keeps_lines _replace_typedef_with_using.
Proof. exact (for_lines_keeps Modernize.typedef_body typedef_body_shape). Qed.

Lemma zero_pass_keeps : keeps_lines _replace_zero_nullptr.
Proof. exact (for_lines_keeps zero_body zero_body_shape). Qed.

Lemma pipeline_length (lines : list str) :
  length (fst (modernize_file lines)) = length lines.
Proof.
  rewrite modernize_file_unfold. cbn [fst].
  rewrite (proj1 (zero_pass_keeps _)), (proj1 (explicit_keeps _)),
    (proj1 (typedef_pass_keeps _)).
  apply null_pass_keeps.
Qed.

(** X1.  The four passes together return as many lines as the file has, and
    every entry of the combined log carries a line number of the file. *)
Theorem pipeline_keeps_line_count (lines : list str) :
  length (fst (modernize_file lines)) = length lines
  /\ Forall (fun r => 1 <= line_num r <= length lines)
            (snd (modernize_file lines)).
Proof.
  rewrite modernize_file_unfold. cbn [fst snd].
  set (p1 := _replace_null_with_nullptr lines).
  set (p2 := _replace_typedef_with_using (fst p1)).
  set (p3 := _add_explicit_to_constructors (fst p2)).
  set (p4 := _replace_zero_nullptr (fst p3)).
  assert (L1 : length (fst p1) = length lines) by apply null_pass_keeps.
  assert (L2 : length (fst p2) = length lines)
    by (rewrite <- L1; apply typedef_pass_keeps).
  assert (L3 : length (fst p3) = length lines)
    by (rewrite <- L2; apply explicit_keeps).
  assert (L4 : length (fst p4) = length lines)
    by (rewrite <- L3; apply zero_pass_keeps).
  split; [exact L4|].
  repeat (apply Forall_app; split); apply Forall_forall; intros r Hr.
  - pose proof (@keeps_lines_range _ _ _ null_pass_keeps Hr). lia.
  - pose proof (@keeps_lines_range _ _ _ typedef_pass_keeps Hr). lia.
  - pose proof (@keeps_lines_range _ _ _ explicit_keeps Hr). lia.
  - pose proof (@keeps_lines_range _ _ _ zero_pass_keeps Hr). lia.
Qed.

(** X2.  A run that logs no Replacement returns the lines it was given: no
    pass changes a line without logging it. *)
Theorem empty_log_means_unchanged (lines : list str)
    (Hlog : snd (modernize_file lines) = []) :
  fst (modernize_file lines) = lines.
Proof.
  rewrite modernize_file_unfold in *. cbn [fst snd] in *.
  apply app_eq_nil in Hlog. destruct Hlog as [H1 Hlog].
  apply app_eq_nil in Hlog. destruct Hlog as [H2 Hlog].
  apply app_eq_nil in Hlog. destruct Hlog as [H3 H4].
  pose proof (@keeps_lines_unlogged _ _ null_pass_keeps H1) as E1.
  rewrite E1 in *.
  pose proof (@keeps_lines_unlogged _ _ typedef_pass_keeps H2) as E2.
  rewrite E2 in *.
  pose proof (@keeps_lines_unlogged _ _ explicit_keeps H3) as E3.
  rewrite E3 in *.
  exact (@keeps_lines_unlogged _ _ zero_pass_keeps H4).
Qed.

Lemma empty_log_means_unchanged_witness :
  snd (modernize_file [L "int main() {"; L "  return 0;"; L "}"]) = []
  /\ fst (modernize_file [L "int main() {"; L "  return 0;"; L "}"])
     = [L "int main() {"; L "  return 0;"; L "}"].
Proof.
  split; [reflexivity|].
  exact (@empty_log_means_unchanged
           [L "int main() {"; L "  return 0;"; L "}"] eq_refl).
Defined.

(** * What [modernize_code.py] does to files *)

Lemma lines_eqb_eq (a b : list str) : Driver.lines_eqb a b = true <-> a = b.
Proof.
  revert b; induction a as [|x a IH]; intros [|y b]; simpl;
    try (split; [discriminate | discriminate]); try tauto.
  rewrite andb_true_iff, str_eqb_eq, IH.
  split; [intros [-> ->]; reflexivity | intros H; inversion H; auto].
Qed.

(** X3.  In dry-run mode [modernize_file] copies and writes nothing and ends
    by returning, whatever the file and the environment; so does [main] when
    [--dry-run] is among its arguments. *)
Theorem dry_run_touches_no_file
    (w : Driver.env) (replacements : list Replacement) (filepath : str)
    (backup : bool) (argv : list str)
    (Hflag : In (L "--dry-run") argv) :
  (exists b log,
      Driver.modernize_file w true replacements filepath backup
      = (Driver.Returns b, [], log)
      \/ exists msg,
           Driver.modernize_file w true replacements filepath backup
           = (Driver.Returns b, [Driver.Complained msg], log))
  /\ Forall harmless (snd (Driver.main w argv))
  /\ exists n, fst (Driver.main w argv) = Driver.Returns n.
Proof.
  assert (Hm : forall reps f bk,
             exists b log,
               Driver.modernize_file w true reps f bk
               = (Driver.Returns b, [], log)
               \/ exists msg,
                    Driver.modernize_file w true reps f bk
                    = (Driver.Returns b, [Driver.Complained msg], log)).
  { intros reps f bk. unfold Driver.modernize_file.
    destruct (Driver.readlines w f) as [orig|e].
    - destruct (modernize_file orig) as [ls log].
      destruct (Driver.lines_eqb ls orig); eauto.
    - eauto 6. }
  split; [apply Hm|].
  assert (Hdry : existsb (str_eqb (L "--dry-run")) argv = true).
  { apply existsb_exists. exists (L "--dry-run").
    split; [exact Hflag | apply str_eqb_refl]. }
  unfold Driver.main.
  destruct argv as [|prog [|f rest]];
    [split; [constructor | simpl; eauto]
    | split; [constructor | simpl; eauto] |].
  rewrite Hdry.
  destruct (negb (Driver.isfile w f)).
  - split; [repeat constructor | simpl; eauto].
  - destruct (Hm [] f (existsb (str_eqb (L "--backup")) (prog :: f :: rest)))
      as (b & log & [E | (msg & E)]); rewrite E; simpl;
      (split; [repeat constructor | eauto]).
Qed.

Lemma dry_run_touches_no_file_witness :
  In (L "--dry-run") [L "modernize_code.py"; L "a.cpp"; L "--dry-run"]
  /\ Forall harmless
       (snd (Driver.main open_env
               [L "modernize_code.py"; L "a.cpp"; L "--dry-run"]))
  /\ Driver.main open_env [L "modernize_code.py"; L "a.cpp"; L "--dry-run"]
     = (Driver.Returns 0, []).
Proof.
  assert (H : In (L "--dry-run")
                [L "modernize_code.py"; L "a.cpp"; L "--dry-run"])
    by (right; right; left; reflexivity).
  split; [exact H|]. split; [|reflexivity].
  exact (proj1 (proj2 (@dry_run_touches_no_file open_env [] (L "a.cpp") false
                         [L "modernize_code.py"; L "a.cpp"; L "--dry-run"]
                         H))).
Defined.

(** X4.  When the four passes log nothing for the lines read,
    [modernize_file] returns [False] and does nothing: nothing is written,
    and no backup is made even when one is asked for. *)
Theorem nothing_logged_nothing_done
    (w : Driver.env) (dry_run backup : bool)
    (replacements : list Replacement) (filepath : str) (lines : list str)
    (Hread : Driver.readlines w filepath = Detect.ReadOk lines)
    (Hlog : snd (modernize_file lines) = []) :
  Driver.modernize_file w dry_run replacements filepath backup
  = (Driver.Returns false, [], []).
Proof.
  unfold Driver.modernize_file. rewrite Hread.
  assert (E : fst (modernize_file lines) = lines).
  { rewrite modernize_file_unfold in *. cbn [fst snd] in *.
    apply app_eq_nil in Hlog. destruct Hlog as [H1 Hlog].
    apply app_eq_nil in Hlog. destruct Hlog as [H2 Hlog].
    apply app_eq_nil in Hlog. destruct Hlog as [H3 H4].
    pose proof (@keeps_lines_unlogged _ _ null_pass_keeps H1) as E1.
    rewrite E1 in *.
    pose proof (@keeps_lines_unlogged _ _ typedef_pass_keeps H2) as E2.
    rewrite E2 in *.
    pose proof (@keeps_lines_unlogged _ _ explicit_keeps H3) as E3.
    rewrite E3 in *.
    exact (@keeps_lines_unlogged _ _ zero_pass_keeps H4). }
  destruct (modernize_file lines) as [ls log]. simpl in *. subst.
  replace (Driver.lines_eqb lines lines) with true
    by (symmetry; apply lines_eqb_eq; reflexivity).
  reflexivity.
Qed.

Lemma nothing_logged_nothing_done_witness :
  let w := Driver.mkEnv (fun _ => true)
             (fun _ => Detect.ReadOk [L "int main() { return 0; }"])
             (fun _ _ => None) (fun _ => None) in
  Driver.readlines w (L "a.cpp") = Detect.ReadOk [L "int main() { return 0; }"]
  /\ snd (modernize_file [L "int main() { return 0; }"]) = []
  /\ Driver.modernize_file w false [] (L "a.cpp") true
     = (Driver.Returns false, [], []).
Proof.
  intros w. split; [reflexivity|]. split; [reflexivity|].
  exact (@nothing_logged_nothing_done w false true [] (L "a.cpp")
           [L "int main() { return 0; }"] eq_refl eq_refl).
Defined.

(** X5.  Whatever [modernize_file] writes, it writes to the file it read,
    outside dry-run mode, and what it writes is the output of the four
    passes on the lines read: as many lines, and not the same lines.  When a
    backup is asked for, the copy to [filepath + '.bak'] is made first. *)
Theorem written_is_pipeline_output
    (w : Driver.env) (dry_run backup : bool)
    (replacements : list Replacement) (filepath path : str)
    (written : list str)
    (Hw : In (Driver.Written path written)
             (snd (fst (Driver.modernize_file w dry_run replacements
                          filepath backup)))) :
  dry_run = false /\ path = filepath
  /\ exists original,
       Driver.readlines w filepath = Detect.ReadOk original
       /\ written = fst (modernize_file original)
       /\ length written = length original
       /\ written <> original
       /\ snd (fst (Driver.modernize_file w dry_run replacements
                      filepath backup))
          = (if backup
             then [Driver.Copied filepath (filepath ++ L ".bak")] else [])
            ++ [Driver.Written filepath written].
Proof.
  unfold Driver.modernize_file in *.
  destruct (Driver.readlines w filepath) as [orig|e];
    [|simpl in Hw; destruct Hw as [Hw | []]; discriminate Hw].
  pose proof (pipeline_length orig) as Hlen.
  destruct (modernize_file orig) as [ls log] eqn:Em. cbn [fst] in Hlen.
  destruct (Driver.lines_eqb ls orig) eqn:Eq; [destruct Hw|].
  destruct dry_run; [destruct Hw|].
  destruct (if backup then Driver.copy2_raises w filepath _ else None);
    [destruct Hw|].
  assert (Hne : ls <> orig).
  { intros ->. rewrite (proj2 (lines_eqb_eq orig orig) eq_refl) in Eq.
    discriminate. }
  destruct (Driver.write_raises w filepath); cbn [fst snd] in *.
  - exfalso. destruct backup; simpl in Hw;
      repeat (destruct Hw as [Hw | Hw]; try discriminate Hw); exact Hw.
  - assert (Hp : path = filepath /\ written = ls).
    { destruct backup; simpl in Hw;
        repeat (destruct Hw as [Hw | Hw]; try discriminate Hw);
        try (injection Hw as <- <-; auto); destruct Hw. }
    destruct Hp as [-> ->].
    split; [reflexivity|]. split; [reflexivity|].
    exists orig. rewrite Em. repeat split; auto.
Qed.

Lemma written_is_pipeline_output_witness :
  In (Driver.Written (L "a.cpp") [L "int *p = nullptr;"])
     (snd (fst (Driver.modernize_file open_env false [] (L "a.cpp") true)))
  /\ snd (fst (Driver.modernize_file open_env false [] (L "a.cpp") true))
     = [Driver.Copied (L "a.cpp") (L "a.cpp.bak");
        Driver.Written (L "a.cpp") [L "int *p = nullptr;"]].
Proof.
  assert (H : In (Driver.Written (L "a.cpp") [L "int *p = nullptr;"])
                (snd (fst (Driver.modernize_file open_env false []
                             (L "a.cpp") true))))
    by (right; left; reflexivity).
  split; [exact H|].
  destruct (@written_is_pipeline_output open_env false true [] (L "a.cpp")
              (L "a.cpp") [L "int *p = nullptr;"] H)
    as (_ & _ & orig & _ & _ & _ & _ & E).
  exact E.
Defined.



(** * What a violation record says *)

Lemma detect_lines_in (filepath : str) (lines : list str) (v : Violation) :
  In v (detect_lines filepath lines) <->
  exists n text,
    nth_error lines n = Some text
    /\ In v (line_reports filepath lines (S n) text).
Proof.
  assert (Hfl : forall body,
             In v (Detect.for_lines body 1 lines) <->
             exists n text, nth_error lines n = Some text
                            /\ In v (body (S n) text)).
  { intros body. split; [apply in_detect_for_lines|].
    intros (n & text & Hn & Hv).
    change (S n) with (1 + n) in Hv. revert Hv Hn. generalize 1 as i.
    revert n. induction lines as [|x rest IH]; intros n i Hv Hn.
    - destruct n; discriminate.
    - simpl. apply in_or_app. destruct n as [|n]; simpl in Hn.
      + injection Hn as ->. rewrite Nat.add_0_r in Hv. auto.
      + right. apply (IH n (S i)); [|exact Hn].
        rewrite Nat.add_succ_r in Hv. exact Hv. }
  unfold detect_lines, line_reports,
    _detect_raw_new_delete, _detect_null_usage, _detect_c_style_cast,
    _detect_typedef, _detect_missing_const, _detect_manual_loops,
    _detect_raw_pointers, _detect_c_arrays.
  rewrite !in_app_iff, !Hfl. split.
  - intros H.
    repeat (destruct H as [H | H]);
      destruct H as (n & text & Hn & Hv); exists n, text;
      (split; [exact Hn|]); rewrite !in_app_iff; tauto.
  - intros (n & text & Hn & Hv). rewrite !in_app_iff in Hv.
    repeat (destruct Hv as [Hv | Hv]); eauto 12.
Qed.

Lemma missing_const_in (filepath : str) (lines : list str) (i : nat)
                       (text : str) (v : Violation) :
  In v (missing_const_body filepath lines i text) ->
  v = const_violation filepath i text
  /\ contains (L "const") text = false
  /\ exists next, nth_error lines i = Some next
                  /\ contains (L "return") next = true.
Proof.
  unfold missing_const_body.
  destruct (is_some (re_search const_re text)); [|intros []].
  destruct (nth_error lines i) as [next|]; [|intros []].
  destruct (contains (L "return") next) eqn:Er; [|intros []].
  destruct (contains (L "const") text) eqn:Ec; [intros []|].
  simpl. intros [<- | []]. eauto.
Qed.

(** X7.  Every violation [detect_file] builds from the lines of a file names
    that file, carries the number of one of its lines, quotes that line
    stripped of surrounding white space, and has one of the eight rule
    identifiers with the severity that goes with it. *)
Theorem violation_records_sound
    (filepath : str) (lines : list str) (v : Violation)
    (Hv : In v (detect_lines filepath lines)) :
  file v = filepath
  /\ 1 <= line v <= length lines
  /\ (exists text, nth_error lines (line v - 1) = Some text
                   /\ code_snippet v = strip text)
  /\ In (rule v, severity v) rule_table.
Proof.
  apply detect_lines_in in Hv. destruct Hv as (n & text & Hn & Hv).
  assert (Hlt : n < length lines) by (apply nth_error_Some; congruence).
  assert (H : file v = filepath /\ line v = S n /\ code_snippet v = strip text
              /\ In (rule v, severity v) rule_table).
  { unfold line_reports in Hv. rewrite !in_app_iff in Hv.
    destruct Hv as [Hv|[Hv|[Hv|[Hv|[Hv|Hv]]]]];
      try (apply missing_const_in in Hv; destruct Hv as (-> & _);
           simpl; tauto);
      report_cases Hv; subst v; simpl; tauto. }
  destruct H as (Hf & Hl & Hs & Hr). rewrite Hl. simpl.
  rewrite Nat.sub_0_r. repeat split; auto; try lia. eauto.
Qed.

Lemma violation_records_sound_witness :
  let v := null_violation (L "a.cpp") 1 (L "  p = NULL;  ") in
  In v (detect_lines (L "a.cpp") [L "  p = NULL;  "])
  /\ code_snippet v = L "p = NULL;"
  /\ In (rule v, severity v) rule_table.
Proof.
  intros v.
  assert (H : In v (detect_lines (L "a.cpp") [L "  p = NULL;  "]))
    by (left; reflexivity).
  split; [exact H|]. split; [reflexivity|].
  exact (proj2 (proj2 (proj2 (@violation_records_sound _ _ _ H)))).
Defined.

(** X8.  The const rule (Con.2) is reported for a line only when the file
    has a next line and that line holds [return]; it is never reported for
    the last line of a file. *)
Theorem const_rule_needs_next_line
    (filepath : str) (lines : list str) (v : Violation)
    (Hv : In v (detect_lines filepath lines))
    (Hrule : rule v = L "Con.2") :
  line v < length lines
  /\ exists next, nth_error lines (line v) = Some next
                  /\ contains (L "return") next = true.
Proof.
  apply detect_lines_in in Hv. destruct Hv as (n & text & Hn & Hv).
  assert (H : exists next, line v = S n /\ nth_error lines (S n) = Some next
                           /\ contains (L "return") next = true).
  { unfold line_reports in Hv. rewrite !in_app_iff in Hv.
    destruct Hv as [Hv|[Hv|[Hv|[Hv|[Hv|Hv]]]]];
      try (apply missing_const_in in Hv;
           destruct Hv as (-> & _ & next & Hnx & Hr); eauto; fail);
      exfalso; report_cases Hv; subst v; simpl in Hrule;
      apply str_eqb_eq in Hrule; discriminate Hrule. }
  destruct H as (next & Hl & Hnx & Hr). rewrite Hl.
  split; [apply nth_error_Some; congruence | eauto].
Qed.

Lemma const_rule_needs_next_line_witness :
  let lines := [L "int get() {"; L "  return 1; }"] in
  let v := const_violation (L "a.cpp") 1 (L "int get() {") in
  In v (detect_lines (L "a.cpp") lines) /\ rule v = L "Con.2"
  /\ line v < length lines.
Proof.
  intros lines v.
  assert (H : In v (detect_lines (L "a.cpp") lines)) by (left; reflexivity).
  split; [exact H|]. split; [reflexivity|].
  exact (proj1 (@const_rule_needs_next_line _ _ _ H eq_refl)).
Defined.



(** * The code segment *)

Lemma starts_with_app (p a b : str) :
  starts_with p a = true -> starts_with p (a ++ b) = true.
Proof.
  rewrite !starts_with_iff. intros (t & ->). exists (t ++ b).
  rewrite app_assoc. reflexivity.
Qed.

Lemma split_head_prefix (sep : str) : forall s,
  exists rest,
    s = split_head sep s ++ rest
    /\ (rest = [] \/ starts_with sep rest = true).
Proof.
  induction s as [|c s IH]; simpl.
  - destruct (starts_with sep []); exists []; auto.
  - destruct (starts_with sep (c :: s)) eqn:E.
    + exists (c :: s). auto.
    + destruct IH as (rest & Hs & Hr). exists rest. simpl.
      rewrite <- Hs. auto.
Qed.

Lemma split_head_clean (sep : str) : forall s,
  sep <> [] -> contains sep (split_head sep s) = false.
Proof.
  intros s Hsep. induction s as [|c s IH]; simpl.
  - destruct sep; [congruence|]. destruct (starts_with _ []); reflexivity.
  - destruct (starts_with sep (c :: s)) eqn:E.
    + destruct sep; [congruence | reflexivity].
    + simpl. rewrite IH, orb_false_r.
      destruct (starts_with sep (c :: split_head sep s)) eqn:E'; [|reflexivity].
      destruct (split_head_prefix sep s) as (rest & Hs & _).
      apply starts_with_app with (b := rest) in E'.
      simpl in E'. rewrite <- Hs in E'. congruence.
Qed.

(** X10.  The code segment of a line is the line up to its first [//]: it
    is a beginning of the line, holds no [//] itself, and is the whole line
    exactly when the line holds no [//]. *)
Theorem code_part_is_comment_free (text : str) :
  (exists rest, text = code_part text ++ rest
                /\ (rest = [] \/ starts_with (L "//") rest = true))
  /\ contains (L "//") (code_part text) = false
  /\ (code_part text = text <-> contains (L "//") text = false).
Proof.
  assert (Hclean : contains (L "//") (code_part text) = false).
  { unfold code_part. destruct (contains (L "//") text) eqn:E; [|exact E].
    apply split_head_clean. discriminate. }
  split; [|split; [exact Hclean|]].
  - unfold code_part. destruct (contains (L "//") text).
    + apply split_head_prefix.
    + exists []. rewrite app_nil_r. auto.
  - split.
    + intros E. rewrite E in Hclean. exact Hclean.
    + intros E. unfold code_part. rewrite E. reflexivity.
Qed.

(** * What the NULL pass rewrites, the NULL rule reports, and back *)

Lemma split_head_whole (sep s : str) :
  contains sep s = false -> split_head sep s = s.
Proof.
  induction s as [|c s IH]; simpl.
  - destruct (starts_with sep []); [discriminate | reflexivity].
  - destruct (starts_with sep (c :: s)); [discriminate|]. simpl.
    intros H. rewrite (IH H). reflexivity.
Qed.

Lemma code_part_split (text : str) :
  code_part text = split_head (L "//") text.
Proof.
  unfold code_part. destruct (contains (L "//") text) eqn:E; [reflexivity|].
  symmetry. apply split_head_whole, E.
Qed.

Lemma null_usage_has_null (filepath : str) (i : nat) (text : str) :
  is_some (re_search Detect.null_re (code_part text)) = true ->
  In (null_violation filepath i text) (null_usage_body filepath i text).
Proof. unfold null_usage_body. intros ->. left. reflexivity. Qed.

Lemma null_usage_silent (filepath : str) (i : nat) (text : str) :
  re_search Detect.null_re (code_part text) = None ->
  filter (fun v => str_eqb (message v) null_message)
         (null_usage_body filepath i text) = [].
Proof.
  unfold null_usage_body. intros ->. simpl.
  destruct (is_some (re_search zero_re (code_part text))); reflexivity.
Qed.

Lemma in_line_reports_null (filepath : str) (lines : list str) (n : nat)
                           (text : str) (v : Violation) :
  nth_error lines n = Some text ->
  In v (null_usage_body filepath (S n) text) ->
  In v (detect_lines filepath lines).
Proof.
  intros Hn Hv. apply detect_lines_in. exists n, text.
  split; [exact Hn|]. unfold line_reports. rewrite !in_app_iff. tauto.
Qed.

(** X11.  Every line the NULL pass rewrites is a line the detector reports
    under the NULL rule: a Replacement of that pass is matched by an ES.47
    violation with the same line number. *)
Theorem null_rewrite_was_reported
    (filepath : str) (lines : list str) (r : Replacement)
    (Hr : In r (snd (_replace_null_with_nullptr lines))) :
  exists text,
    nth_error lines (line_num r - 1) = Some text
    /\ old_text r = text
    /\ In (null_violation filepath (line_num r) text)
          (detect_lines filepath lines).
Proof.
  apply for_lines_log in Hr. destruct Hr as (n & text & Hn & Hr).
  unfold null_body in Hr.
  destruct (contains (L "//") text) eqn:E1; [destruct Hr|].
  destruct (contains (L "/*") text) eqn:E2; [destruct Hr|].
  cbn [negb andb] in Hr.
  destruct (is_some (re_search Modernize.null_re text)) eqn:Es;
    [|destruct Hr].
  destruct (negb (str_eqb text _)); [|destruct Hr].
  destruct Hr as [<- | []]. cbn [line_num old_text].
  exists text. simpl. rewrite Nat.sub_0_r.
  split; [exact Hn|]. split; [reflexivity|].
  apply (@in_line_reports_null filepath lines n text _ Hn).
  apply null_usage_has_null. unfold code_part. rewrite E1. exact Es.
Qed.

Lemma null_rewrite_was_reported_witness :
  let r := mkReplacement 1 (L "p = NULL;") (L "p = nullptr;") reason_null in
  In r (snd (_replace_null_with_nullptr [L "p = NULL;"]))
  /\ In (null_violation (L "a.cpp") 1 (L "p = NULL;"))
        (detect_lines (L "a.cpp") [L "p = NULL;"]).
Proof.
  intros r.
  assert (H : In r (snd (_replace_null_with_nullptr [L "p = NULL;"])))
    by (left; reflexivity).
  split; [exact H|].
  destruct (@null_rewrite_was_reported (L "a.cpp") _ _ H)
    as (text & Hn & Ht & Hin).
  simpl in Ht. subst text. exact Hin.
Defined.

(** A whole word NULL in the code segment is one in the line. *)
Lemma null_in_code_part (text : str) :
  re_search Modernize.null_re text = None ->
  re_search Detect.null_re (code_part text) = None.
Proof.
  intros Hnone.
  destruct (re_search Detect.null_re (code_part text)) as [x|] eqn:E;
    [exfalso|reflexivity].
  assert (Hs : search_from Modernize.null_re [] (code_part text) <> None)
    by (unfold re_search in E; change Modernize.null_re with Detect.null_re;
        congruence).
  apply search_some_lang in Hs. destruct Hs as (a & m & post & Ea & Hl).
  apply lang_null in Hl. destruct Hl as (-> & Hpre & Hpost).
  rewrite code_part_split in Ea.
  destruct (split_head_prefix (L "//") text) as (rest & Ht & Hrest).
  assert (Hfound : search_from Modernize.null_re [] text <> None).
  { apply search_some_lang. exists a, (L "NULL"), (post ++ rest).
    split.
    - rewrite Ht, Ea, <- !app_assoc. reflexivity.
    - apply lang_null. repeat split; auto.
      destruct post as [|c post]; [|exact Hpost].
      destruct Hrest as [-> | Hrest]; [reflexivity|].
      apply starts_with_iff in Hrest. destruct Hrest as (t & ->).
      reflexivity. }
  apply Hfound. exact Hnone.
Qed.

Lemma null_body_leaves_none (i : nat) (text : str) :
  contains (L "//") text = false -> contains (L "/*") text = false ->
  re_search Modernize.null_re (fst (null_body i text)) = None.
Proof.
  intros H1 H2. unfold null_body. rewrite H1, H2. cbn [negb andb].
  destruct (is_some (re_search Modernize.null_re text)) eqn:Es.
  - assert (Hc : re_search Modernize.null_re
                   (re_sub Modernize.null_re (L "nullptr") text) = None)
      by (apply (@null_sub_clean (length text) text [] []); auto).
    destruct (negb (str_eqb text _)); exact Hc.
  - simpl. destruct (re_search Modernize.null_re text); [discriminate|].
    reflexivity.
Qed.

(** X12.  On a line that holds neither [//] nor [/*] the NULL pass clears
    the finding: in the lines the pass returns, the NULL rule has nothing to
    report for that line. *)
Theorem null_pass_clears_report
    (filepath : str) (lines : list str) (n : nat) (text : str)
    (Hn : nth_error lines n = Some text)
    (Hslash : contains (L "//") text = false)
    (Hblock : contains (L "/*") text = false) :
  filter (is_null_report (S n))
         (detect_lines filepath (fst (_replace_null_with_nullptr lines)))
  = [].
Proof.
  set (out := fst (_replace_null_with_nullptr lines)).
  assert (Hout : nth_error out n = Some (fst (null_body (S n) text))).
  { unfold out, _replace_null_with_nullptr. rewrite for_lines_nth, Hn.
    reflexivity. }
  destruct (other_detectors_silent filepath out (S n))
    as (H1 & H3 & H4 & H5 & H6 & H7 & H8).
  unfold detect_lines. rewrite !filter_app, H1, H3, H4, H5, H6, H7, H8.
  rewrite !app_nil_r. simpl.
  unfold _detect_null_usage.
  change (is_null_report (S n))
    with (fun v => (line v =? 1 + n) && str_eqb (message v) null_message).
  rewrite (filter_detect_at _ (null_usage_body filepath)
             (null_usage_line filepath) out 1 n Hout).
  apply null_usage_silent, null_in_code_part, null_body_leaves_none; auto.
Qed.

Lemma null_pass_clears_report_witness :
  nth_error [L "p = NULL; q = NULL;"] 0 = Some (L "p = NULL; q = NULL;")
  /\ contains (L "//") (L "p = NULL; q = NULL;") = false
  /\ contains (L "/*") (L "p = NULL; q = NULL;") = false
  /\ filter (is_null_report 1)
       (detect_lines (L "a.cpp")
          (fst (_replace_null_with_nullptr [L "p = NULL; q = NULL;"])))
     = [].
Proof.
  split; [reflexivity|]. split; [reflexivity|]. split; [reflexivity|].
  exact (@null_pass_clears_report (L "a.cpp") [L "p = NULL; q = NULL;"] 0
           (L "p = NULL; q = NULL;") eq_refl eq_refl eq_refl).
Defined.

(** * What the typedef pass reads and writes *)

Lemma lang_plus_lazy (p : ascii -> bool) (pre m post : str) :
  lang (plus_lazy p) pre m post -> forallb p m = true /\ m <> [].
Proof.
  unfold plus_lazy. cbn [lang].
  intros (m1 & m2 & -> & (c & -> & Hc) & Hcs). simpl. rewrite Hc, Hcs.
  split; [reflexivity | discriminate].
Qed.

(** A match of the typedef pattern: the line read as indentation,
    [typedef], a type, a name and a semicolon, with the three groups. *)
Lemma typedef_match_groups (text : str) (m : rmatch) :
  re_match Modernize.typedef_re text = Some m ->
  exists w1 w2 w3 rest,
    text = grp 1 m ++ L "typedef" ++ w1 ++ grp 2 m ++ w2 ++ grp 3 m ++ w3
                   ++ L ";" ++ rest
    /\ forallb is_space (grp 1 m) = true
    /\ (forallb is_space w1 = true /\ w1 <> [])
    /\ (forallb is_dot (grp 2 m) = true /\ grp 2 m <> [])
    /\ (forallb is_space w2 = true /\ w2 <> [])
    /\ (forallb is_word (grp 3 m) = true /\ grp 3 m <> [])
    /\ forallb is_space w3 = true.
Proof.
  intros H.
  change (run (Grp 1 ws) [] text []
            (fun p1 s1 g1 =>
             run (lit (L "typedef")) p1 s1 g1
               (fun p2 s2 g2 =>
                run ws1 p2 s2 g2
                  (fun p3 s3 g3 =>
                   run (Grp 2 (plus_lazy is_dot)) p3 s3 g3
                     (fun p4 s4 g4 =>
                      run ws1 p4 s4 g4
                        (fun p5 s5 g5 =>
                         run (Grp 3 word1) p5 s5 g5
                           (fun p6 s6 g6 =>
                            run ws p6 s6 g6
                              (fun p7 s7 g7 =>
                               run (lit (L ";")) p7 s7 g7
                                 (fun pre' s'' g'' =>
                                  if false
                                     && (length pre' =? length (@nil ascii))
                                  then None
                                  else Some (mkMatch (taken [] pre') s'' g'')
                                 ))))))))
          = Some m) in H.
  apply run_grp_sound in H.
  destruct H as (indent & t1 & g1 & -> & L1 & H & G1).
  apply run_sound in H. destruct H as (kw & t2 & g2 & -> & L2 & H & G2).
  apply run_sound in H. destruct H as (w1 & t3 & g3 & -> & L3 & H & G3).
  apply run_grp_sound in H.
  destruct H as (ty & t4 & g4 & -> & L4 & H & G4).
  apply run_sound in H. destruct H as (w2 & t5 & g5 & -> & L5 & H & G5).
  apply run_grp_sound in H.
  destruct H as (name & t6 & g6 & -> & L6 & H & G6).
  apply run_sound in H. destruct H as (w3 & t7 & g7 & -> & L7 & H & G7).
  apply run_sound in H. destruct H as (semi & rest & g8 & -> & L8 & H & G8).
  simpl in H. injection H as <-.
  apply lang_lit in L2, L8. subst kw semi.
  assert (N : forall s : str, ~ In 1 (groups_of (lit s))
                              /\ ~ In 2 (groups_of (lit s))
                              /\ ~ In 3 (groups_of (lit s))).
  { induction s as [|c s IH]; simpl; tauto. }
  assert (E3 : grp 3 (mkMatch
                        (taken [] (rev (L ";") ++ rev w3 ++ rev name ++ rev w2
                           ++ rev ty ++ rev w1 ++ rev (L "typedef")
                           ++ rev indent ++ [])) rest g8) = name).
  { unfold grp. cbn [m_groups].
    rewrite G8 by apply N. rewrite G7 by (simpl; tauto). simpl.
    reflexivity. }
  assert (E2 : grp 2 (mkMatch
                        (taken [] (rev (L ";") ++ rev w3 ++ rev name ++ rev w2
                           ++ rev ty ++ rev w1 ++ rev (L "typedef")
                           ++ rev indent ++ [])) rest g8) = ty).
  { unfold grp. cbn [m_groups].
    rewrite G8 by apply N. rewrite G7 by (simpl; tauto). simpl.
    rewrite G6 by (simpl; tauto). rewrite G5 by (simpl; tauto). simpl.
    reflexivity. }
  assert (E1 : grp 1 (mkMatch
                        (taken [] (rev (L ";") ++ rev w3 ++ rev name ++ rev w2
                           ++ rev ty ++ rev w1 ++ rev (L "typedef")
                           ++ rev indent ++ [])) rest g8) = indent).
  { unfold grp. cbn [m_groups].
    rewrite G8 by apply N. rewrite G7 by (simpl; tauto). simpl.
    rewrite G6 by (simpl; tauto). rewrite G5 by (simpl; tauto). simpl.
    rewrite G4 by (simpl; tauto). rewrite G3 by (simpl; tauto).
    rewrite G2 by apply N. simpl. reflexivity. }
  rewrite E1, E2, E3.
  exists w1, w2, w3, rest.
  split; [reflexivity|]. split; [exact L1|].
  split; [eapply plus_forallb; exact L3|].
  split; [eapply lang_plus_lazy; exact L4|].
  split; [eapply plus_forallb; exact L5|].
  split; [eapply plus_forallb; exact L6 | exact L7].
Qed.

(** X14.  A line for which the typedef pass logs a Replacement reads as
    indentation, [typedef], a type, a name and a semicolon, with white space
    between them; the line written in its place is the indentation followed
    by [using name = type;] and a newline.  Whatever followed the semicolon
    on the old line, a comment or further code, is not in the new one. *)
Theorem typedef_rewrite_shape (i : nat) (text : str)
    (Hlog : snd (Modernize.typedef_body i text) <> []) :
  exists indent w1 type w2 name w3 rest,
    text = indent ++ L "typedef" ++ w1 ++ type ++ w2 ++ name ++ w3
                  ++ L ";" ++ rest
    /\ forallb is_space indent = true
    /\ (forallb is_space w1 = true /\ w1 <> [])
    /\ (forallb is_dot type = true /\ type <> [])
    /\ (forallb is_space w2 = true /\ w2 <> [])
    /\ (forallb is_word name = true /\ name <> [])
    /\ forallb is_space w3 = true
    /\ let new := indent ++ L "using " ++ name ++ L " = " ++ type ++ L ";"
                         ++ newline in
       Modernize.typedef_body i text
       = (new, [mkReplacement i text new reason_typedef]).
Proof.
  unfold Modernize.typedef_body in *.
  destruct (re_match Modernize.typedef_re text) as [m|] eqn:Em;
    [|exfalso; apply Hlog; reflexivity].
  destruct (typedef_match_groups _ Em)
    as (w1 & w2 & w3 & rest & Ht & H1 & Hw1 & H2 & Hw2 & H3 & Hw3).
  exists (grp 1 m), w1, (grp 2 m), w2, (grp 3 m), w3, rest.
  repeat (split; [assumption|]). reflexivity.
Qed.

Lemma typedef_rewrite_shape_witness :
  snd (Modernize.typedef_body 1 (L "  typedef unsigned long ULong; // id"))
  <> []
  /\ fst (Modernize.typedef_body 1 (L "  typedef unsigned long ULong; // id"))
     = L "  using ULong = unsigned long;" ++ newline.
Proof.
  assert (H : snd (Modernize.typedef_body 1
                     (L "  typedef unsigned long ULong; // id")) <> [])
    by (intros E; discriminate E).
  split; [exact H|].
  destruct (typedef_rewrite_shape 1 (L "  typedef unsigned long ULong; // id")
              H) as (? & ? & ? & ? & ? & ? & ? & _).
  reflexivity.
Defined.

(** * What the typedef pass rewrites, the typedef rule reports *)

Lemma lang_typedef_word (pre post : str) :
  head_word pre = false -> head_word post = false ->
  lang Detect.typedef_re pre (L "typedef") post.
Proof.
  intros Hpre Hpost. unfold Detect.typedef_re. cbn [cat lang].
  exists [], (L "typedef"). split; [reflexivity|].
  split; [split; [reflexivity|]|].
  - unfold at_boundary.
    change (head_word (L "typedef" ++ post)) with true. rewrite Hpre.
    reflexivity.
  - exists (L "typedef"), []. split; [reflexivity|].
    split; [apply lang_lit; reflexivity|]. split; [reflexivity|].
    unfold at_boundary.
    change (head_word (rev (L "typedef") ++ rev [] ++ pre)) with true.
    rewrite Hpost. reflexivity.
Qed.

Lemma split_head_copy : forall a rest,
  (forall c, In c a -> c <> "/"%char) ->
  split_head (L "//") (a ++ rest) = a ++ split_head (L "//") rest.
Proof.
  induction a as [|c a IH]; intros rest Ha; [reflexivity|].
  change ((c :: a) ++ rest) with (c :: a ++ rest). cbn [split_head].
  assert (Hc : starts_with (L "//") (c :: a ++ rest) = false).
  { cbv [L list_ascii_of_string starts_with].
    destruct (ascii_eqb "/" c) eqn:E; [|reflexivity].
    apply ascii_eqb_eq in E. exfalso. apply (Ha c); simpl; auto. }
  rewrite Hc, IH by (intros; apply Ha; simpl; auto). reflexivity.
Qed.

Lemma spaces_end_no_word (w : str) :
  forallb is_space w = true -> head_word (rev w ++ []) = false.
Proof.
  rewrite app_nil_r. intros Hw.
  destruct (rev w) as [|c r] eqn:E; [reflexivity|]. simpl.
  apply space_not_word. rewrite forallb_forall in Hw. apply Hw.
  apply in_rev. rewrite E. left. reflexivity.
Qed.

Lemma typedef_match_reported (text : str) (m : rmatch) :
  re_match Modernize.typedef_re text = Some m ->
  is_some (re_search Detect.typedef_re (code_part text)) = true.
Proof.
  intros Hm.
  destruct (typedef_match_groups _ Hm)
    as (w1 & w2 & w3 & rest & Ht & H1 & (Hw1 & Hne) & _).
  destruct w1 as [|s1 w1]; [congruence|]. simpl in Hw1.
  apply andb_true_iff in Hw1. destruct Hw1 as [Hs1 _].
  set (tail := w1 ++ grp 2 m ++ w2 ++ grp 3 m ++ w3 ++ L ";" ++ rest) in *.
  assert (Hcp : code_part text
                = grp 1 m ++ L "typedef" ++ s1 :: split_head (L "//") tail).
  { rewrite code_part_split, Ht.
    change (grp 1 m ++ L "typedef" ++ (s1 :: w1) ++ grp 2 m ++ w2 ++ grp 3 m
              ++ w3 ++ L ";" ++ rest)
      with (grp 1 m ++ L "typedef" ++ [s1] ++ tail).
    rewrite !app_assoc, split_head_copy, <- !app_assoc; [reflexivity|].
    intros c Hc. rewrite !in_app_iff in Hc.
    rewrite forallb_forall in H1.
    destruct Hc as [[Hc | Hc] | [<- | []]].
    - intros ->. specialize (H1 _ Hc). discriminate H1.
    - intros ->. cbv [L list_ascii_of_string] in Hc. simpl in Hc.
      repeat (destruct Hc as [Hc | Hc]; [discriminate Hc|]). exact Hc.
    - intros ->. discriminate Hs1. }
  assert (Hs : search_from Detect.typedef_re [] (code_part text) <> None).
  { apply search_some_lang.
    exists (grp 1 m), (L "typedef"), (s1 :: split_head (L "//") tail).
    split; [exact Hcp|].
    apply lang_typedef_word; [apply spaces_end_no_word, H1|].
    simpl. apply space_not_word, Hs1. }
  unfold re_search. destruct (search_from _ [] (code_part text));
    [reflexivity | congruence].
Qed.

(** X13.  Every line the typedef pass rewrites is a line the detector
    reports under the typedef rule: a Replacement of that pass is matched by
    a T.43 violation with the same line number. *)
Theorem typedef_rewrite_was_reported
    (filepath : str) (lines : list str) (r : Replacement)
    (Hr : In r (snd (_replace_typedef_with_using lines))) :
  exists text,
    nth_error lines (line_num r - 1) = Some text
    /\ old_text r = text
    /\ In (typedef_violation filepath (line_num r) text)
          (detect_lines filepath lines).
Proof.
  apply for_lines_log in Hr. destruct Hr as (n & text & Hn & Hr).
  unfold Modernize.typedef_body in Hr.
  destruct (re_match Modernize.typedef_re text) as [m|] eqn:Em;
    [|destruct Hr].
  destruct Hr as [<- | []]. cbn [line_num old_text].
  exists text. simpl. rewrite Nat.sub_0_r.
  split; [exact Hn|]. split; [reflexivity|].
  apply detect_lines_in. exists n, text. split; [exact Hn|].
  unfold line_reports, Detect.typedef_body.
  rewrite (typedef_match_reported _ Em). rewrite !in_app_iff.
  right. right. right. left. left. reflexivity.
Qed.

Lemma typedef_rewrite_was_reported_witness :
  let text := L "typedef int T; // alias" in
  let r := mkReplacement 1 text (L "using T = int;" ++ newline)
             reason_typedef in
  In r (snd (_replace_typedef_with_using [text]))
  /\ In (typedef_violation (L "a.cpp") 1 text)
        (detect_lines (L "a.cpp") [text]).
Proof.
  intros text r.
  assert (H : In r (snd (_replace_typedef_with_using [text])))
    by (left; reflexivity).
  split; [exact H|].
  destruct (@typedef_rewrite_was_reported (L "a.cpp") _ _ H)
    as (t & Hn & Ht & Hin).
  simpl in Ht. subst t. exact Hin.
Defined.

(** * Where the explicit pass stays out *)

Lemma scope_before_step : forall lines st n text,
  nth_error lines n = Some text ->
  scope_before st lines (S n)
  = track_end (track_access (track_class (scope_before st lines n) text) text)
              text.
Proof.
  induction lines as [|x rest IH]; intros st n text Hn.
  - destruct n; discriminate.
  - destruct n as [|n]; simpl in Hn.
    + injection Hn as ->. destruct rest; reflexivity.
    + cbn [scope_before]. apply (IH _ n text Hn).
Qed.

Lemma track_class_quiet (st : scope) (text : str) :
  re_match class_re text = None -> track_class st text = st.
Proof. unfold track_class. intros ->. reflexivity. Qed.

Lemma track_access_in_class (st : scope) (text : str) :
  in_class (track_access st text) = in_class st.
Proof.
  unfold track_access.
  destruct (is_some (re_match (label_re (L "public")) text)); [reflexivity|].
  destruct (is_some (re_match (label_re (L "private")) text)); [reflexivity|].
  destruct (is_some (re_match (label_re (L "protected")) text)); reflexivity.
Qed.

Lemma track_end_outside (st : scope) (text : str) :
  in_class st = false -> track_end st text = st.
Proof. unfold track_end. intros ->. reflexivity. Qed.

Lemma track_end_access (st : scope) (text : str) :
  access_level (track_end st text) = access_level st.
Proof.
  unfold track_end.
  destruct (in_class st && is_some (re_match class_end_re text)); reflexivity.
Qed.

Lemma explicit_line_outside (st : scope) (i : nat) (text : str) :
  in_class st = false \/ access_level st <> Public ->
  explicit_line st i text = (text, []).
Proof.
  unfold explicit_line. intros [-> | H]; [reflexivity|].
  destruct (in_class st); [|reflexivity].
  destruct (access_level st); [congruence | reflexivity | reflexivity].
Qed.

Lemma outside_until_opener : forall n lines,
  (forall k text, k < n -> nth_error lines k = Some text ->
                  re_match class_re text = None) ->
  n <= length lines ->
  in_class (scope_before initial_scope lines n) = false.
Proof.
  induction n as [|n IH]; intros lines Hq Hlen.
  - destruct lines; reflexivity.
  - destruct (nth_error lines n) as [text|] eqn:En;
      [|apply nth_error_None in En; lia].
    rewrite (scope_before_step lines initial_scope n En).
    assert (Hin : in_class (scope_before initial_scope lines n) = false)
      by (apply IH; [intros k t Hk Ht; apply (Hq k t); [lia | exact Ht] | lia]).
    rewrite (track_class_quiet _ text (Hq n text (Nat.lt_succ_diag_r n) En)).
    rewrite track_end_outside; rewrite track_access_in_class; exact Hin.
Qed.

(** X15.  The explicit pass changes no line up to and including line [n]
    when none of those lines is a class or struct opener: the scope starts
    outside any type and only an opener takes it inside. *)
Theorem no_rewrite_before_first_opener (lines : list str) (n : nat)
    (Hquiet : forall k text,
        k <= n -> nth_error lines k = Some text ->
        re_match class_re text = None) :
  nth_error (fst (_add_explicit_to_constructors lines)) n
  = nth_error lines n.
Proof.
  unfold _add_explicit_to_constructors. rewrite explicit_loop_nth.
  destruct (nth_error lines n) as [text|] eqn:En; [|reflexivity].
  simpl. f_equal. rewrite explicit_line_outside; [reflexivity|].
  left. unfold scope_in_force.
  rewrite (track_class_quiet _ text (Hquiet n text (le_n n) En)).
  rewrite track_access_in_class.
  apply outside_until_opener.
  - intros k t Hk. apply Hquiet. lia.
  - apply Nat.lt_le_incl, nth_error_Some. congruence.
Qed.

Lemma no_rewrite_before_first_opener_witness :
  let lines := [L "#include <x>"; L "Foo(int x);"; L "struct S {"] in
  (forall k text, k <= 1 -> nth_error lines k = Some text ->
                  re_match class_re text = None)
  /\ nth_error (fst (_add_explicit_to_constructors lines)) 1
     = Some (L "Foo(int x);").
Proof.
  intros lines.
  assert (H : forall k text, k <= 1 -> nth_error lines k = Some text ->
                             re_match class_re text = None).
  { intros [|[|k]] text Hk Hn; [| |lia]; injection Hn as <-; reflexivity. }
  split; [exact H|].
  exact (@no_rewrite_before_first_opener lines 1 H).
Defined.

(** ** After [private:] or [protected:] *)

Lemma label_line_first (kw text : str) (x : rmatch) :
  re_match (label_re kw) text = Some x ->
  exists w1 t, text = w1 ++ kw ++ t /\ forallb is_space w1 = true.
Proof.
  intros H. apply re_match_lang in H. destruct H as (m & post & -> & Hl).
  apply lang_label in Hl. destruct Hl as (w1 & w2 & -> & Hw1 & _).
  exists w1, (w2 ++ L ":" ++ post). rewrite <- !app_assoc. auto.
Qed.

Lemma closing_label_shape (text : str) :
  closing_label text ->
  exists w1 t,
    forallb is_space w1 = true
    /\ (text = w1 ++ L "private" ++ t \/ text = w1 ++ L "protected" ++ t).
Proof.
  intros [H | H];
    [destruct (re_match (label_re (L "private")) text) as [x|] eqn:E
    |destruct (re_match (label_re (L "protected")) text) as [x|] eqn:E];
    try discriminate H;
    apply label_line_first in E; destruct E as (w1 & t & -> & Hw);
    exists w1, t; auto.
Qed.

Lemma closing_label_not_public (text : str) :
  closing_label text -> re_match (label_re (L "public")) text = None.
Proof.
  intros H. apply closing_label_shape in H.
  destruct H as (w1 & t & Hw1 & Ht).
  destruct (re_match (label_re (L "public")) text) as [x|] eqn:E;
    [exfalso|reflexivity].
  apply label_line_first in E. destruct E as (w1' & t' & E & Hw1').
  destruct Ht as [-> | ->];
    cbv [L list_ascii_of_string] in E; simpl in E;
    apply first_after_space in E; auto;
    destruct E as (_ & _ & E); discriminate E.
Qed.

Lemma closing_label_not_opener (text : str) :
  closing_label text -> re_match class_re text = None.
Proof.
  intros H. apply closing_label_shape in H.
  destruct H as (w1 & t & Hw1 & Ht).
  destruct (re_match class_re text) as [x|] eqn:E; [exfalso|reflexivity].
  apply re_match_lang in E. destruct E as (m & post & E & Hl).
  apply lang_class in Hl.
  destruct Hl as (w1' & kw & w2 & x' & t' & -> & Hw1' & Hkw & _).
  rewrite <- !app_assoc in E.
  destruct Ht as [-> | ->]; destruct Hkw as [-> | ->];
    cbv [L list_ascii_of_string] in E; simpl in E;
    apply first_after_space in E; auto;
    destruct E as (_ & E & _); discriminate E.
Qed.

Lemma closing_label_sets (st : scope) (text : str) :
  closing_label text ->
  access_level (track_end (track_access (track_class st text) text) text)
  <> Public.
Proof.
  intros H. rewrite track_end_access.
  rewrite (track_class_quiet st text (closing_label_not_opener H)).
  unfold track_access. rewrite (closing_label_not_public H). simpl.
  destruct H as [H | H].
  - rewrite H. discriminate.
  - destruct (is_some (re_match (label_re (L "private")) text));
      [discriminate|]. rewrite H. discriminate.
Qed.

Lemma quiet_line_keeps_closed (st : scope) (text : str) :
  re_match class_re text = None ->
  re_match (label_re (L "public")) text = None ->
  access_level st <> Public ->
  access_level (track_access (track_class st text) text) <> Public.
Proof.
  intros Hc Hp Hst. rewrite (track_class_quiet st text Hc).
  unfold track_access. rewrite Hp. simpl.
  destruct (is_some (re_match (label_re (L "private")) text));
    [discriminate|].
  destruct (is_some (re_match (label_re (L "protected")) text));
    [discriminate | exact Hst].
Qed.

(** X16.  After a [private:] or [protected:] label the explicit pass changes
    no line until a [public:] label or a class or struct opener comes: a
    line [j] behind the label is returned as it is when no line from the one
    after the label up to [j] is such a label or opener. *)
Theorem no_rewrite_after_closing_label
    (lines : list str) (i j : nat) (label : str)
    (Hi : nth_error lines i = Some label)
    (Hlabel : closing_label label)
    (Hij : i < j)
    (Hquiet : forall k text,
        i < k <= j -> nth_error lines k = Some text ->
        re_match class_re text = None
        /\ re_match (label_re (L "public")) text = None) :
  nth_error (fst (_add_explicit_to_constructors lines)) j
  = nth_error lines j.
Proof.
  unfold _add_explicit_to_constructors. rewrite explicit_loop_nth.
  destruct (nth_error lines j) as [text|] eqn:Ej; [|reflexivity].
  assert (Hlen : j < length lines) by (apply nth_error_Some; congruence).
  assert (Hinv : forall d, i + 1 + d <= j ->
                   access_level (scope_before initial_scope lines (i + 1 + d))
                   <> Public).
  { induction d as [|d IH]; intros Hd.
    - replace (i + 1 + 0) with (S i) by lia.
      rewrite (scope_before_step lines initial_scope i Hi).
      apply closing_label_sets, Hlabel.
    - replace (i + 1 + S d) with (S (i + 1 + d)) by lia.
      destruct (nth_error lines (i + 1 + d)) as [t|] eqn:Et;
        [|apply nth_error_None in Et; lia].
      rewrite (scope_before_step lines initial_scope (i + 1 + d) Et).
      rewrite track_end_access.
      destruct (Hquiet (i + 1 + d) t) as [Hc Hp]; [lia | exact Et |].
      apply quiet_line_keeps_closed; auto. apply IH. lia. }
  simpl. f_equal. rewrite explicit_line_outside; [reflexivity|].
  right. unfold scope_in_force.
  destruct (Hquiet j text) as [Hc Hp]; [lia | exact Ej |].
  apply quiet_line_keeps_closed; auto.
  replace j with (i + 1 + (j - i - 1)) by lia. apply Hinv. lia.
Qed.

Lemma no_rewrite_after_closing_label_witness :
  let lines := [L "struct S {"; L "private:"; L "  S(int x);"; L "};"] in
  nth_error lines 1 = Some (L "private:")
  /\ closing_label (L "private:")
  /\ 1 < 2
  /\ nth_error (fst (_add_explicit_to_constructors lines)) 2
     = Some (L "  S(int x);").
Proof.
  intros lines.
  assert (Hl : closing_label (L "private:")) by (left; reflexivity).
  assert (Hq : forall k text,
             1 < k <= 2 -> nth_error lines k = Some text ->
             re_match class_re text = None
             /\ re_match (label_re (L "public")) text = None).
  { intros k text Hk Hn. assert (k = 2) by lia. subst k.
    injection Hn as <-. split; reflexivity. }
  split; [reflexivity|]. split; [exact Hl|]. split; [lia|].
  exact (@no_rewrite_after_closing_label lines 1 2 (L "private:") eq_refl Hl
           (Nat.lt_succ_diag_r 1) Hq).
Defined.

(** * Scanning a directory *)

Lemma detect_lines_file (filepath : str) (lines : list str) (v : Violation) :
  In v (detect_lines filepath lines) -> file v = filepath.
Proof.
  intros Hv. apply detect_lines_in in Hv. destruct Hv as (n & text & _ & Hv).
  unfold line_reports in Hv. rewrite !in_app_iff in Hv.
  destruct Hv as [Hv|[Hv|[Hv|[Hv|[Hv|Hv]]]]];
    try (apply missing_const_in in Hv; destruct Hv as (-> & _);
         reflexivity);
    report_cases Hv; subst v; reflexivity.
Qed.

Lemma scan_files_in (w : world) (files : list str) (v : Violation) :
  In v (fst (scan_files w files)) ->
  exists f, In f files /\ In v (fst (detect_file w f)).
Proof.
  induction files as [|f files IH]; simpl; [tauto|].
  destruct (detect_file w f) as [vs err] eqn:Ef.
  destruct (scan_files w files) as [all errs]. simpl in *.
  rewrite in_app_iff. intros [H | H].
  - exists f. rewrite Ef. auto.
  - destruct (IH H) as (f' & Hf' & Hv). eauto.
Qed.

(** X17.  Every violation a directory scan returns comes from a file that
    one of the three patterns [*.cpp], [*.h], [*.hpp] (under [**/] when the
    scan is recursive) lists in the directory and that could be read; it is
    one of the violations of that file's lines and names that file. *)
Theorem scan_reports_listed_files
    (w : world) (directory : str) (recursive : bool) (v : Violation)
    (Hv : In v (fst (scan_directory w directory recursive))) :
  exists ext filepath lines,
    In ext [L ".cpp"; L ".h"; L ".hpp"]
    /\ In filepath
          (glob w directory ((if recursive then L "**/*" else L "*") ++ ext))
    /\ readlines w filepath = ReadOk lines
    /\ In v (detect_lines filepath lines)
    /\ file v = filepath.
Proof.
  unfold scan_directory in Hv. apply scan_files_in in Hv.
  destruct Hv as (f & Hf & Hv).
  unfold detect_file in Hv.
  destruct (readlines w f) as [lines|e] eqn:Er; [|destruct Hv].
  simpl in Hv.
  assert (Hext : exists ext,
             In ext [L ".cpp"; L ".h"; L ".hpp"]
             /\ In f (glob w directory
                        ((if recursive then L "**/*" else L "*") ++ ext))).
  { rewrite !in_app_iff in Hf. destruct recursive;
      destruct Hf as [Hf | [Hf | Hf]];
      [exists (L ".cpp") | exists (L ".h") | exists (L ".hpp")
      |exists (L ".cpp") | exists (L ".h") | exists (L ".hpp")];
      (split; [simpl; auto | exact Hf]). }
  destruct Hext as (ext & Hext & Hg).
  exists ext, f, lines. repeat split; auto.
  apply (detect_lines_file _ _ _ Hv).
Qed.

Lemma scan_reports_listed_files_witness :
  let v := null_violation (L "src/ok.cpp") 1 (L "int *p = NULL;") in
  In v (fst (scan_directory probe_world (L "src") false))
  /\ exists ext filepath lines,
       In ext [L ".cpp"; L ".h"; L ".hpp"]
       /\ In filepath (glob probe_world (L "src") (L "*" ++ ext))
       /\ readlines probe_world filepath = ReadOk lines
       /\ In v (detect_lines filepath lines)
       /\ file v = filepath.
Proof.
  intros v.
  assert (H : In v (fst (scan_directory probe_world (L "src") false)))
    by (left; reflexivity).
  split; [exact H|].
  exact (@scan_reports_listed_files probe_world (L "src") false v H).
Defined.

(** * The totals [main] prints *)

Lemma count_severity_cons (s : Severity) (v : Violation)
                          (vs : list Violation) :
  Summary.count_severity s (v :: vs)
  = (if Summary.severity_eqb (severity v) s then 1 else 0)
    + Summary.count_severity s vs.
Proof.
  unfold Summary.count_severity. simpl.
  destruct (Summary.severity_eqb (severity v) s); reflexivity.
Qed.

Lemma counts_add_up (vs : list Violation) :
  Summary.critical vs + Summary.important vs + Summary.suggestions vs
  = length vs.
Proof.
  unfold Summary.critical, Summary.important, Summary.suggestions.
  induction vs as [|v vs IH]; [reflexivity|].
  rewrite !count_severity_cons. simpl length.
  destruct (severity v); simpl; lia.
Qed.

(** X18.  The three totals [main] prints under the list, of critical,
    important and suggestion entries, add up to the number of violations
    detected. *)
Theorem printed_totals_add_up (w : world) (argv : list str) :
  Summary.critical (shown (main w argv))
  + Summary.important (shown (main w argv))
  + Summary.suggestions (shown (main w argv))
  = length (detected w argv).
Proof.
  rewrite counts_add_up, main_shown.
  symmetry. apply Permutation_length, sort_by_key_perm.
Qed.

(** * The statistics of the report *)

Section Counting.
Variable key : Violation -> str.

Lemma get_bump (k k' : str) (d : Report.counter) :
  Report.get k (Report.bump k' d)
  = Report.get k d + (if str_eqb k k' then 1 else 0).
Proof.
  induction d as [|[k0 n] d IH]; simpl.
  - destruct (str_eqb k k'); reflexivity.
  - destruct (str_eqb k' k0) eqn:E0; simpl.
    + apply str_eqb_eq in E0. subst k0.
      destruct (str_eqb k k'); lia.
    + destruct (str_eqb k k0) eqn:E1; [|exact IH].
      apply str_eqb_eq in E1. subst k0.
      replace (str_eqb k k') with false; [lia|].
      symmetry. apply str_eqb_neq. apply str_eqb_neq in E0. congruence.
Qed.

Lemma get_tally (k : str) : forall vs d,
  Report.get k (tally key d vs)
  = Report.get k d + length (filter (fun v => str_eqb k (key v)) vs).
Proof.
  induction vs as [|v vs IH]; intros d; simpl; [lia|].
  unfold tally in *. simpl. rewrite IH, get_bump.
  destruct (str_eqb k (key v)); simpl; lia.
Qed.

Lemma keys_bump (k k' : str) (d : Report.counter) :
  In k (map fst (Report.bump k' d)) <-> k = k' \/ In k (map fst d).
Proof.
  induction d as [|[k0 n] d IH]; simpl; [intuition congruence|].
  destruct (str_eqb k' k0) eqn:E; simpl.
  - apply str_eqb_eq in E. subst k0. intuition congruence.
  - rewrite IH. tauto.
Qed.

Lemma nodup_bump (k' : str) (d : Report.counter) :
  NoDup (map fst d) -> NoDup (map fst (Report.bump k' d)).
Proof.
  induction d as [|[k0 n] d IH]; simpl; intros H.
  - constructor; [intros [] | constructor].
  - inversion H as [|? ? Hnot Hd]; subst.
    destruct (str_eqb k' k0) eqn:E; simpl.
    + constructor; assumption.
    + constructor; [|apply IH, Hd].
      rewrite keys_bump. intros [-> | Hin]; [|contradiction].
      rewrite str_eqb_refl in E. discriminate.
Qed.

Lemma sum_bump (k' : str) (d : Report.counter) :
  list_sum (map snd (Report.bump k' d)) = S (list_sum (map snd d)).
Proof.
  induction d as [|[k0 n] d IH]; simpl; [reflexivity|].
  destruct (str_eqb k' k0); simpl; [lia | rewrite IH; lia].
Qed.

Lemma tally_keys : forall vs d,
  NoDup (map fst d) ->
  NoDup (map fst (tally key d vs))
  /\ (forall k, In k (map fst (tally key d vs))
                <-> In k (map fst d) \/ exists v, In v vs /\ key v = k)
  /\ list_sum (map snd (tally key d vs)) = list_sum (map snd d) + length vs.
Proof.
  unfold tally.
  induction vs as [|v vs IH]; intros d Hd; simpl.
  - split; [exact Hd|]. split; [|lia].
    intros k. split; [auto | intros [H | (v & [] & _)]; exact H].
  - destruct (IH (Report.bump (key v) d) (nodup_bump (key v) d Hd))
      as (Hn & Hk & Hs).
    split; [exact Hn|]. split.
    + intros k. rewrite Hk, keys_bump. split.
      * intros [[-> | H] | (u & Hu & Ek)]; eauto.
      * intros [H | (u & [-> | Hu] & Ek)]; eauto.
    + rewrite Hs, sum_bump. lia.
Qed.
End Counting.

Lemma stats_fields : forall vs st,
  fold_left Report.count_one vs st
  = Report.mkStats (Report.total st)
      (tally (fun v => Report.severity_value (severity v))
             (Report.by_severity st) vs)
      (tally rule (Report.by_rule st) vs)
      (tally file (Report.by_file st) vs).
Proof.
  induction vs as [|v vs IH]; intros st; simpl.
  - destruct st; reflexivity.
  - rewrite IH. reflexivity.
Qed.

(** X19.  In the statistics of the report the total is the number of
    violations, and the counter of a rule, of a file and of a severity holds
    the number of violations with that rule, file and severity; a rule or a
    file without violations counts as 0. *)
Theorem stats_count_each (vs : list Violation) :
  Report.total (Report._calculate_stats vs) = length vs
  /\ (forall k,
        Report.get k (Report.by_rule (Report._calculate_stats vs))
        = length (filter (fun v => str_eqb k (rule v)) vs))
  /\ (forall k,
        Report.get k (Report.by_file (Report._calculate_stats vs))
        = length (filter (fun v => str_eqb k (file v)) vs))
  /\ (forall s,
        Report.get (Report.severity_value s)
                   (Report.by_severity (Report._calculate_stats vs))
        = length (filter (fun v => Summary.severity_eqb (severity v) s) vs)).
Proof.
  unfold Report._calculate_stats. rewrite stats_fields. cbn.
  split; [reflexivity|]. split; [|split].
  - intros k. rewrite get_tally. reflexivity.
  - intros k. rewrite get_tally. reflexivity.
  - intros s. rewrite get_tally. simpl.
    f_equal. apply filter_ext. intros v.
    destruct s, (severity v); reflexivity.
Qed.

(** X20.  Each of the three counters of the report has every key once and
    its counts add up to the total.  The keys of the file counter are the
    files that have a violation, so the number of files the report states
    is the number of files with at least one violation. *)
Theorem stats_counters_partition (vs : list Violation) :
  let st := Report._calculate_stats vs in
  (NoDup (map fst (Report.by_severity st))
   /\ list_sum (map snd (Report.by_severity st)) = Report.total st)
  /\ (NoDup (map fst (Report.by_rule st))
      /\ list_sum (map snd (Report.by_rule st)) = Report.total st)
  /\ (NoDup (map fst (Report.by_file st))
      /\ list_sum (map snd (Report.by_file st)) = Report.total st)
  /\ forall f, In f (map fst (Report.by_file st))
               <-> exists v, In v vs /\ file v = f.
Proof.
  unfold Report._calculate_stats. rewrite stats_fields. cbn.
  destruct (tally_keys (fun v => Report.severity_value (severity v)) vs []
              (NoDup_nil _)) as (N1 & _ & S1).
  destruct (tally_keys rule vs [] (NoDup_nil _)) as (N2 & _ & S2).
  destruct (tally_keys file vs [] (NoDup_nil _)) as (N3 & K3 & S3).
  repeat split; auto.
  - intros H. apply K3 in H. destruct H as [[] | H]. exact H.
  - intros H. apply K3. right. exact H.
Qed.

(** * The exit status of [detect_violations.py] *)

(** X21.  [main] of the detector exits with status 1 exactly when it is
    given no target or a target that is neither a file nor a directory; in
    every other case it returns, whatever was detected. *)
Theorem detect_exit_status (w : world) (argv : list str) :
  (exit_status (main w argv) = Exited 1
   <-> match argv with
       | _ :: target :: _ => isfile w target = false /\ isdir w target = false
       | _ => True
       end)
  /\ (exit_status (main w argv) = Exited 1
      \/ exit_status (main w argv) = Returned).
Proof.
  assert (Hr : forall v e, exit_status (report v e) = Returned)
    by (intros [|x v] e; reflexivity).
  unfold main. destruct argv as [|prog [|target rest]];
    try (split; [simpl; tauto | left; reflexivity]).
  destruct (isfile w target).
  - destruct (detect_file w target) as [vs err]. rewrite Hr.
    split; [split; [discriminate | intros [H _]; discriminate H] | auto].
  - destruct (isdir w target).
    + destruct (scan_directory w target _) as [vs err]. rewrite Hr.
      split; [split; [discriminate | intros [_ H]; discriminate H] | auto].
    + simpl. split; [tauto | auto].
Qed.
